(** * mqltr: the federated Q-learning routing core of [osken.py]

    A shallow embedding of the learning, aggregation and trust subsystem of
    [SDNQLTRFederatedController] (src/osken.py), and the properties its
    specification states about it.

    - Python [float] is IEEE binary64: Rocq's primitive [float].  The integer
      literals the code mixes in ([0], [1], [2]) are coerced by Python to the
      float of the same value before every operation they take part in.
    - A Python [dict] keeps its keys in insertion order, and both the
      aggregation and the [max] of the decision depend on that order: a
      dictionary is an association list whose [dset] overwrites in place or
      appends.
    - [self.q_values[dp]] and [self.global_q_values] hold references to table
      objects; the tables live in an object store and the state holds
      references, so that sharing a table between two owners can be told from
      copying it. *)

From Stdlib Require Import ZArith List String Bool Floats Lia.
Import ListNotations.

Set Warnings "-inexact-float,-abstract-large-number".
Set Implicit Arguments.

(** * Part I: the model *)

(** ** Keys

    Dictionary keys are compared with [==]; datapath ids and port numbers
    are integers, addresses are MAC strings. *)

Class Key (K : Type) : Type := {
  keqb : K -> K -> bool;
  keqb_spec : forall x y : K, reflect (x = y) (keqb x y)
}.

#[export] Instance Key_Z : Key Z := {| keqb := Z.eqb; keqb_spec := Z.eqb_spec |}.

#[export] Instance Key_string : Key string :=
  {| keqb := String.eqb; keqb_spec := String.eqb_spec |}.

(** ** Insertion-ordered dictionaries *)

Abbreviation dict K V := (list (K * V)) (only parsing).

Section DictOps.
Context {K V : Type} `{Key K}.

(** [d.get(k)], [None] when the key is missing. *)
Fixpoint dget (k : K) (d : dict K V) : option V :=
  match d with
  | [] => None
  | (k', v) :: d' => if keqb k k' then Some v else dget k d'
  end.

(** [k in d] *)
Definition dmem (k : K) (d : dict K V) : bool :=
  match dget k d with Some _ => true | None => false end.

(** [d.get(k, dflt)]; also [d[k]] where the code has just made sure that
    [k] is present. *)
Definition dget_or (k : K) (dflt : V) (d : dict K V) : V :=
  match dget k d with Some v => v | None => dflt end.

(** [d[k] = v]: an existing key keeps its place, a new one goes last. *)
Fixpoint dset (k : K) (v : V) (d : dict K V) : dict K V :=
  match d with
  | [] => [(k, v)]
  | (k', v') :: d' => if keqb k k' then (k', v) :: d' else (k', v') :: dset k v d'
  end.

(** [if k not in d: d[k] = dflt] *)
Definition ensure_key (k : K) (dflt : V) (d : dict K V) : dict K V :=
  if dmem k d then d else dset k dflt d.

(** A mutation [f] of the object stored under [k], in place: [d[k]] is
    afterwards what [f] made of it.  The code only does this to a key that
    is present. *)
Definition dupd (k : K) (f : V -> V) (d : dict K V) : dict K V :=
  match dget k d with
  | Some v => dset k (f v) d
  | None => d
  end.

(** [d.keys()] and [d.values()], in insertion order. *)
Definition dkeys (d : dict K V) : list K := map fst d.
Definition dvalues (d : dict K V) : list V := map snd d.

(** No key occurs twice: true of every Python dictionary. *)
Definition dict_ok (d : dict K V) : Prop := NoDup (dkeys d).

(** A dictionary without repeated keys whose values all satisfy [P]. *)
Definition dict_all (P : V -> Prop) (d : dict K V) : Prop :=
  dict_ok d /\ Forall (fun kv => P (snd kv)) d.

End DictOps.

(** ** Data model *)

Abbreviation dpid := Z (only parsing).
Abbreviation addr := string (only parsing).
Abbreviation action := Z (only parsing).

(** [q[src][dst]]: action -> learned value. *)
Abbreviation qentry := (dict action float) (only parsing).
(** [q[src]]: destination -> entry. *)
Abbreviation row := (dict addr qentry) (only parsing).
(** A whole Q-table, local or global: source -> destination -> entry. *)
Abbreviation table := (dict addr row) (only parsing).

(** A reference to a table object: its position in the store. *)
Abbreviation ref := nat (only parsing).

(** The controller's fields.  [q_values] maps a datapath to the table object
    it owns, [global_q_values] is the global table object.  The inner
    dictionaries of a table are only ever made by a [{}] display or by
    [copy.deepcopy] and are never stored in a second place, so a table object
    holds them by value. *)
Record state : Type := mkState {
  store : list table;
  q_values : dict dpid ref;
  global_q_values : ref;
  trust_values : dict addr float
}.

Definition deref (st : list table) (r : ref) : table := nth r st [].

(** Mutation of the object [r] in place: every holder of [r] sees it. *)
Fixpoint write (r : ref) (t : table) (st : list table) : list table :=
  match st, r with
  | [], _ => []
  | _ :: st', O => t :: st'
  | t0 :: st', S r' => t0 :: write r' t st'
  end.

(** A new object; [{}] allocates an empty one, [copy.deepcopy(x)] one whose
    content equals that of [x]. *)
Definition alloc (t : table) (st : list table) : ref * list table :=
  (List.length st, st ++ [t]).

Definition with_store (s : state) (st : list table) : state :=
  {| store := st; q_values := q_values s;
     global_q_values := global_q_values s; trust_values := trust_values s |}.

(** The table a datapath owns ([{}] when it owns none) and the global one. *)
Definition local_table (s : state) (dp : dpid) : table :=
  match dget dp (q_values s) with
  | Some r => deref (store s) r
  | None => []
  end.

Definition global_table (s : state) : table :=
  deref (store s) (global_q_values s).

(** [t.get(src, {}).get(dst, {}).get(a)] *)
Definition lookup3 (t : table) (src dst : addr) (a : action) : option float :=
  dget a (dget_or dst [] (dget_or src [] t)).

(** [trust_values.get(node, 1.0)] *)
Definition trust_of (s : state) (node : addr) : float :=
  dget_or node 1.0%float (trust_values s).

(** [__init__] *)
Definition init : state :=
  {| store := [[]]; q_values := []; global_q_values := 0%nat; trust_values := [] |}.

Definition learning_rate : float := 0.6%float.
Definition discount_factor : float := 0.95%float.

(** [ofproto.OFPP_FLOOD] of OpenFlow 1.3 (os_ken's ofproto_v1_3). *)
Definition OFPP_FLOOD : action := 0xfffffffb%Z.

(** Two hosts, two switches and an output port, for the scenarios. *)
Definition host1 : addr := "00:00:00:00:00:01"%string.
Definition host2 : addr := "00:00:00:00:00:02"%string.
Definition dp1 : dpid := 1%Z.
Definition dp2 : dpid := 2%Z.
Definition port3 : action := 3%Z.

(** ** Exceptions *)

Inductive exn : Type := TypeError | ValueError.

(** A call returns a value or raises; either way it leaves a state behind. *)
Inductive outcome (A : Type) : Type :=
| Return (a : A) (s : state)
| Raise (e : exn) (s : state).

Arguments Return {A} a s.
Arguments Raise {A} e s.

Definition state_of {A} (o : outcome A) : state :=
  match o with Return _ s => s | Raise _ s => s end.

(** ** DecisionPolicy: [federated_decision] *)

(** [max(d, key=d.get)]: the keys are visited in insertion order and the
    running best is replaced only when a value compares [>] to it, so the
    first maximum wins. *)
Fixpoint max_by_value (best : action) (bv : float) (rest : qentry) : action :=
  match rest with
  | [] => best
  | (a, v) :: rest' =>
      if (bv <? v)%float then max_by_value a v rest' else max_by_value best bv rest'
  end.

(** [None] stands for the [ValueError] of [max] on an empty dictionary. *)
Definition py_max_key (e : qentry) : option action :=
  match e with
  | [] => None
  | (a, v) :: rest => Some (max_by_value a v rest)
  end.

(** Lines 75-78 on the global table object.  [rnd] is what
    [random.random()] returns when it is called. *)
Definition init_flow (g : table) (src dst : addr) (rnd : float) : table :=
  dupd src (ensure_key dst [(OFPP_FLOOD, rnd)]) (ensure_key src [] g).

(** [federated_decision(datapath, src, dst)]; [datapath] only supplies the
    constant [OFPP_FLOOD]. *)
Definition federated_decision (s : state) (src dst : addr) (rnd : float)
  : outcome action :=
  let g := init_flow (global_table s) src dst rnd in
  let s' := with_store s (write (global_q_values s) g (store s)) in
  match py_max_key (dget_or dst [] (dget_or src [] g)) with
  | None => Raise ValueError s'
  | Some best_action =>
      Return (if (0.5 <=? trust_of s src)%float then best_action else OFPP_FLOOD) s'
  end.

(** ** LocalQStore: [update_local_q_table] *)

(** What [max(..., default=0)] may hand back: a number or a dictionary. *)
Inductive pyval : Type :=
| PyNum (x : float)
| PyDict (d : qentry).

(** [max(vs, default=0)] over the values of a row, which are dictionaries:
    the default for none, the only one for one (no comparison is made), and
    for two or more the comparison [dict > dict] raises [TypeError]
    ([None]). *)
Definition py_max_default (vs : list qentry) : option pyval :=
  match vs with
  | [] => Some (PyNum 0%float)
  | [d] => Some (PyDict d)
  | _ :: _ :: _ => None
  end.

(** Lines 86-87: the datapath's table object, a new empty one on first
    sight. *)
Definition ensure_datapath (s : state) (datapath_id : dpid) : ref * state :=
  match dget datapath_id (q_values s) with
  | Some r => (r, s)
  | None =>
      let (r, st) := alloc [] (store s) in
      (r, {| store := st; q_values := dset datapath_id r (q_values s);
             global_q_values := global_q_values s;
             trust_values := trust_values s |})
  end.

(** Lines 89-92 on the table object. *)
Definition ensure_flow (t : table) (src dst : addr) : table :=
  dupd src (ensure_key dst []) (ensure_key src [] t).

(** [t[src][dst][act] = v] *)
Definition store_q (t : table) (src dst : addr) (act : action) (v : float) : table :=
  dupd src (dupd dst (dset act v)) t.

(** Line 96, for a numeric [next_max]. *)
Definition q_update (old_value reward next_max : float) : float :=
  (old_value + learning_rate * (reward + discount_factor * next_max - old_value))%float.

(** [update_local_q_table(datapath_id, src, dst, action, reward)].  The
    right-hand side of line 96 is evaluated before anything is stored; the
    product [discount_factor * next_max] raises [TypeError] when [next_max]
    is a dictionary. *)
Definition update_local_q_table (s : state) (datapath_id : dpid) (src dst : addr)
  (act : action) (reward : float) : outcome unit :=
  let (r, s1) := ensure_datapath s datapath_id in
  let t := ensure_flow (deref (store s1) r) src dst in
  let s2 := with_store s1 (write r t (store s1)) in
  let old_value := dget_or act 0%float (dget_or dst [] (dget_or src [] t)) in
  match py_max_default (dvalues (dget_or dst [] t)) with
  | Some (PyNum next_max) =>
      Return tt (with_store s2
                   (write r (store_q t src dst act (q_update old_value reward next_max))
                      (store s2)))
  | Some (PyDict _) | None => Raise TypeError s2
  end.

(** ** Aggregator: [aggregate_global_q_values], [redistribute_global_model] *)

(** Lines 112-115. *)
Definition merge_action (g : qentry) (aq : action * float) : qentry :=
  let (a, q_value) := aq in
  match dget a g with
  | None => dset a q_value g
  | Some x => dset a ((x + q_value) / 2)%float g
  end.

(** Lines 106-115, on the global row of one source. *)
Definition merge_dst (grow : row) (de : addr * qentry) : row :=
  let (dst, e) := de in
  dupd dst (fold_left merge_action e) (ensure_key dst [] grow).

(** Lines 103-115, on the global table. *)
Definition merge_src (g : table) (sr : addr * row) : table :=
  let (src, lrow) := sr in
  dupd src (fold_left merge_dst lrow) (ensure_key src [] g).

(** One turn of the loop of line 102: the table object [r] of a datapath is
    merged into the global table object. *)
Definition aggregate_dp (gref : ref) (st : list table) (dr : dpid * ref) : list table :=
  write gref (fold_left merge_src (deref st (snd dr)) (deref st gref)) st.

(** [aggregate_global_q_values()].  The deep copy of line 101 is bound to a
    local name that is never read. *)
Definition aggregate_global_q_values (s : state) : state :=
  with_store s (fold_left (aggregate_dp (global_q_values s)) (q_values s) (store s)).

(** One turn of the loop of line 120: [q_values[dp_id] = deepcopy(global)]. *)
Definition redistribute_dp (s : state) (dp_id : dpid) : state :=
  let (r, st) := alloc (deref (store s) (global_q_values s)) (store s) in
  {| store := st; q_values := dset dp_id r (q_values s);
     global_q_values := global_q_values s; trust_values := trust_values s |}.

(** [redistribute_global_model()] *)
Definition redistribute_global_model (s : state) : state :=
  fold_left redistribute_dp (dkeys (q_values s)) s.

(** ** TrustTracker: [update_trust] *)

Definition update_trust (s : state) (node : addr) (success_rate : float) : state :=
  {| store := store s; q_values := q_values s;
     global_q_values := global_q_values s;
     trust_values :=
       dset node (0.9 * trust_of s node + 0.1 * success_rate)%float (trust_values s) |}.

(** ** RoutingCore: [packet_in_handler] *)

(** The handler for a packet with an Ethernet header (one without leaves
    the tables alone), as far as the three tables are concerned: [rnd] is
    what [random.random()] returns if line 78 calls it, [aggregate] is the
    answer of [should_aggregate_global_model()].  An exception ends the
    handler; the controller's event loop logs it and goes on with the next
    event. *)
Definition packet_in_handler (s : state) (dp : dpid) (src dst : addr)
  (rnd : float) (aggregate : bool) : outcome unit :=
  match federated_decision s src dst rnd with
  | Raise e s1 => Raise e s1
  | Return act s1 =>
      match update_local_q_table s1 dp src dst act 1%float with
      | Raise e s2 => Raise e s2
      | Return _ s2 =>
          let s3 := update_trust s2 src 0.9%float in
          Return tt (if aggregate
                     then redistribute_global_model (aggregate_global_q_values s3)
                     else s3)
      end
  end.

(** The states the controller is in between two packets. *)
Inductive served : state -> Prop :=
| served_init : served init
| served_packet s dp src dst rnd aggregate :
    served s -> served (state_of (packet_in_handler s dp src dst rnd aggregate)).

(** ** Well-formed and reachable states *)

Definition row_ok (r : row) : Prop :=
  dict_all (fun e : qentry => dict_ok e) r.

Definition table_ok (t : table) : Prop :=
  dict_all row_ok t.

(** What holds of every state a Python run can be in: references point into
    the store, no table object has two owners, and dictionaries have no
    repeated key. *)
Record wf (s : state) : Prop := mkWf {
  wf_global : (global_q_values s < List.length (store s))%nat;
  wf_refs : Forall (fun r => (r < List.length (store s))%nat) (dvalues (q_values s));
  wf_owners : NoDup (global_q_values s :: dvalues (q_values s));
  wf_datapaths : dict_ok (q_values s);
  wf_tables : Forall table_ok (store s)
}.

(** One call of a core operation, with any arguments; a call that raises
    still leaves its state behind. *)
Inductive step : state -> state -> Prop :=
| step_decision s src dst rnd :
    step s (state_of (federated_decision s src dst rnd))
| step_update s dp src dst act reward :
    step s (state_of (update_local_q_table s dp src dst act reward))
| step_aggregate s :
    step s (aggregate_global_q_values s)
| step_redistribute s :
    step s (redistribute_global_model s)
| step_trust s node rate :
    step s (update_trust s node rate).

Inductive reachable : state -> Prop :=
| reachable_init : reachable init
| reachable_step s s' : reachable s -> step s s' -> reachable s'.

(** [dst in t.get(src, {})]: the table has an entry for the flow. *)
Definition has_flow (t : table) (src dst : addr) : bool :=
  dmem dst (dget_or src [] t).

(** No entry of the table is an empty dictionary. *)
Definition entries_ok (g : table) : Prop :=
  forall src dst, dget dst (dget_or src [] g) <> Some [].

(** What the handler keeps true: no entry of the global table is empty, and
    the global table has an entry for every flow a local table has one
    for. *)
Record decided (s : state) : Prop := mkDecided {
  decided_wf : wf s;
  decided_entries : entries_ok (global_table s);
  decided_flows :
    forall dp src dst, has_flow (local_table s dp) src dst = true ->
                       has_flow (global_table s) src dst = true
}.

(** ** The aggregation rule, as the specification words it *)

(** Merging one incoming local value into the global value of a key: copied
    when the key is absent, else the mean of the two. *)
Definition merge1 (g : option float) (v : float) : option float :=
  Some match g with
       | None => v
       | Some x => ((x + v) / 2)%float
       end.

(** The values the tables at the references of [l] hold for one key. *)
Definition reported (st : list table) (src dst : addr) (a : action)
  (l : dict dpid ref) : list float :=
  flat_map (fun dr : dpid * ref =>
              match lookup3 (deref st (snd dr)) src dst a with
              | Some v => [v]
              | None => []
              end) l.

(** The values the datapaths report for [(src, dst, a)], in the order in which
    the aggregation visits the datapaths. *)
Definition local_values (s : state) (src dst : addr) (a : action) : list float :=
  reported (store s) src dst a (q_values s).

(** Where a value of the global table may come from, for one key
    [(src, dst, a)] and one aggregation run from the state [s]: it was there
    before, or it is a local value copied while the key was absent, or it is
    the mean of such a value and a local value. *)
Inductive merged (s : state) (src dst : addr) (a : action) : float -> Prop :=
| merged_kept g :
    lookup3 (global_table s) src dst a = Some g -> merged s src dst a g
| merged_copied v :
    lookup3 (global_table s) src dst a = None ->
    In v (local_values s src dst a) -> merged s src dst a v
| merged_mean g v :
    merged s src dst a g -> In v (local_values s src dst a) ->
    merged s src dst a ((g + v) / 2)%float.

(** Two switches that have each learned one value for the same flow and
    port: [2.0] at [dp1], then [4.0] at [dp2]. *)
Definition two_reports : state :=
  state_of (update_local_q_table
              (state_of (update_local_q_table init dp1 host1 host2 port3 (2 / 0.6)%float))
              dp2 host1 host2 port3 (4 / 0.6)%float).

(** ** An integer key for the binary64 numbers that are not below zero

    Line 126 is arithmetic on binary64 numbers.  The numbers from zero up are
    ordered like the integers [(e + 1074) * 2^53 + m] of their canonical
    mantissa [m] and exponent [e]; zero has key [0], the infinity a key above
    all others, and NaN and the negative numbers get [-1]. *)
Definition fkey (x : spec_float) : Z :=
  match x with
  | S754_zero _ => 0
  | S754_finite false m e => (e + 1074) * 2 ^ 53 + Zpos m
  | S754_infinity false => 2 ^ 64
  | _ => -1
  end%Z.

Definition tkey (t : float) : Z := fkey (Prim2SF t).

(** The mantissa of the binary64 number nearest to [0.9], which is
    [mantissa_09 * 2^-53]. *)
Definition mantissa_09 : positive := 8106479329266893.

(** ** The OpenFlow side: [features_handler], [__add_flow] and the message
    of [packet_in_handler] *)

(** Constants of OpenFlow 1.3 (os_ken's ofproto_v1_3). *)
Definition OFPP_CONTROLLER : Z := 0xfffffffd%Z.
Definition OFPCML_NO_BUFFER : Z := 0xffff%Z.
Definition OFP_NO_BUFFER : Z := 0xffffffff%Z.
Definition OFPIT_APPLY_ACTIONS : Z := 4%Z.

(** [parser.OFPActionOutput(port)] and [parser.OFPActionOutput(port, max_len)]:
    [max_len] is [None] where the code leaves it to the parser's default. *)
Record OFPActionOutput : Type := mkActionOutput {
  output_port : Z;
  output_max_len : option Z
}.

(** [parser.OFPInstructionActions(type, actions)] *)
Record OFPInstructionActions : Type := mkInstructionActions {
  instruction_type : Z;
  instruction_actions : list OFPActionOutput
}.

(** The messages the controller sends to a datapath, with the arguments the
    code passes to their constructors.  [parser.OFPMatch()] has no field: a
    match is the list of its fields. *)
Inductive message : Type :=
| OFPFlowMod (datapath : dpid) (priority : Z) (match_ : list (string * Z))
    (instructions : list OFPInstructionActions)
| OFPPacketOut (datapath : dpid) (buffer_id : Z) (in_port : Z)
    (actions : list OFPActionOutput) (data : option (list Byte.byte)).

(** What the handler reads of a packet-in message: [msg.datapath.id],
    [msg.buffer_id], [msg.match['in_port']], [msg.data], and the addresses
    [(eth.src, eth.dst)] of the Ethernet header that
    [packet.Packet(msg.data)] finds, [None] when it finds none. *)
Record OFPPacketIn : Type := mkPacketIn {
  msg_datapath : dpid;
  msg_buffer_id : Z;
  msg_in_port : Z;
  msg_data : list Byte.byte;
  msg_eth : option (addr * addr)
}.

(** [__add_flow(datapath, priority, match, actions)]: the one message it
    sends. *)
Definition __add_flow (datapath : dpid) (priority : Z) (match_ : list (string * Z))
  (actions : list OFPActionOutput) : message :=
  let inst := [mkInstructionActions OFPIT_APPLY_ACTIONS actions] in
  OFPFlowMod datapath priority match_ inst.

(** [features_handler(ev)]: the table-miss entry that sends every packet to
    the controller.  It touches none of the controller's fields. *)
Definition features_handler (datapath : dpid) : message :=
  let match_ := [] in
  let actions := [mkActionOutput OFPP_CONTROLLER (Some OFPCML_NO_BUFFER)] in
  __add_flow datapath 0 match_ actions.

(** [should_aggregate_global_model()]; [u] is what [random.uniform(0, 1)]
    returns. *)
Definition should_aggregate_global_model (u : float) : bool :=
  (u <? 0.05)%float.

(** The whole of [packet_in_handler(ev)]: the messages it hands to
    [datapath.send_msg] and what it does to the tables.  The packet-out is
    sent (line 61) before the tables are updated (line 64). *)
Definition packet_in_handler_msg (s : state) (msg : OFPPacketIn) (rnd u : float)
  : list message * outcome unit :=
  match msg_eth msg with
  | None => ([], Return tt s)
  | Some (src, dst) =>
      match federated_decision s src dst rnd with
      | Raise e s1 => ([], Raise e s1)
      | Return act s1 =>
          let actions := [mkActionOutput act None] in
          let out :=
            if negb (msg_buffer_id msg =? OFP_NO_BUFFER)%Z
            then OFPPacketOut (msg_datapath msg) (msg_buffer_id msg) (msg_in_port msg)
                   actions None
            else OFPPacketOut (msg_datapath msg) OFP_NO_BUFFER (msg_in_port msg)
                   actions (Some (msg_data msg)) in
          ([out],
           match update_local_q_table s1 (msg_datapath msg) src dst act 1%float with
           | Raise e s2 => Raise e s2
           | Return _ s2 =>
               let s3 := update_trust s2 src 0.9%float in
               Return tt (if should_aggregate_global_model u
                          then redistribute_global_model (aggregate_global_q_values s3)
                          else s3)
           end)
      end
  end.

(** The two events the controller subscribes to (lines 23 and 33), with the
    random numbers the handling of a packet may draw. *)
Inductive event : Type :=
| EventOFPSwitchFeatures (datapath : dpid)
| EventOFPPacketIn (msg : OFPPacketIn) (rnd u : float).

(** One event: the messages sent and the state left behind.  An exception
    ends the handler, not the controller. *)
Definition dispatch (s : state) (ev : event) : list message * state :=
  match ev with
  | EventOFPSwitchFeatures datapath => ([features_handler datapath], s)
  | EventOFPPacketIn msg rnd u =>
      let (out, o) := packet_in_handler_msg s msg rnd u in (out, state_of o)
  end.

(** A run of the controller over a sequence of events. *)
Fixpoint run (s : state) (evs : list event) : list message * state :=
  match evs with
  | [] => ([], s)
  | ev :: evs' =>
      let (out, s1) := dispatch s ev in
      let (out', s2) := run s1 evs' in
      (out ++ out', s2)
  end.

(** What a hub that knows no table answers to an event: the table-miss entry
    to a new switch, and to a packet with an Ethernet header a packet-out
    that floods it. *)
Definition hub_reply (ev : event) : list message :=
  match ev with
  | EventOFPSwitchFeatures datapath =>
      [OFPFlowMod datapath 0 []
         [mkInstructionActions OFPIT_APPLY_ACTIONS
            [mkActionOutput OFPP_CONTROLLER (Some OFPCML_NO_BUFFER)]]]
  | EventOFPPacketIn msg _ _ =>
      match msg_eth msg with
      | None => []
      | Some _ =>
          [OFPPacketOut (msg_datapath msg) (msg_buffer_id msg) (msg_in_port msg)
             [mkActionOutput OFPP_FLOOD None]
             (if (msg_buffer_id msg =? OFP_NO_BUFFER)%Z then Some (msg_data msg) else None)]
      end
  end.

(** No table has learned a value for an action other than the flood
    action. *)
Definition flood_only (t : table) : Prop :=
  forall src dst a, lookup3 t src dst a <> None -> a = OFPP_FLOOD.

(** The trust score of a host after [n] of its packets have been handled:
    line 65 applied [n] times to the default [1.0]. *)
Definition handler_trust (n : nat) : float :=
  Nat.iter n (fun t => (0.9 * t + 0.1 * 0.9)%float) 1.0%float.

(** ** Binary64 numbers as exact integers

    Every binary64 number from zero up is an integer multiple of [2^-1074].
    [fval] is that multiple, with a value above all others for the infinity
    and [-1] for NaN and the negative numbers.  It is the measure in which
    the roundings of lines 96, 115 and 126 are bounded. *)
Definition fval (x : spec_float) : Z :=
  match x with
  | S754_zero _ => 0
  | S754_finite false m e => Zpos m * 2 ^ (e + 1074)
  | S754_infinity false => 2 ^ 2100
  | _ => -1
  end%Z.

Definition tval (t : float) : Z := fval (Prim2SF t).

(** The multiples of [2^-1074] that are binary64 numbers: zero, and a
    mantissa below [2^53] (canonical or not) at an exponent binary64 has. *)
Definition representable (C : Z) : Prop :=
  C = 0%Z
  \/ exists m e, (0 < m < 2 ^ 53 /\ -1074 <= e <= 971 /\ C = m * 2 ^ (e + 1074))%Z.

(** What rounding to nearest makes of the exact value [P * 2^E]: at the
    exponent [E'] of the result the mantissa is the quotient or the next
    integer, the quotient whenever the remainder is below half a step; a
    result from [2^1024] up is the infinity. *)
Definition rounds (P E v : Z) : Prop :=
  let E' := Z.max (Zdigits2 P + E - 53) (-1074) in
  exists M,
    (P / 2 ^ (E' - E) <= M <= P / 2 ^ (E' - E) + 1
     /\ (2 * (P mod 2 ^ (E' - E)) < 2 ^ (E' - E) -> M = P / 2 ^ (E' - E))
     /\ v = if M * 2 ^ (E' + 1074) <? 2 ^ 2098 then M * 2 ^ (E' + 1074) else 2 ^ 2100)%Z.

(** A binary64 number that is zero or above and not the infinity. *)
Definition nonneg_finite (t : float) : Prop := (0 <= tval t < 2 ^ 2100)%Z.

(** ** Ranges of Q-values and trust scores *)

(** [lo <= v <= hi] *)
Definition within (lo hi v : float) : Prop :=
  (lo <=? v)%float = true /\ (v <=? hi)%float = true.

(** Every Q-value of the table lies within [lo, hi]. *)
Definition table_within (lo hi : float) (t : table) : Prop :=
  forall src dst a v, lookup3 t src dst a = Some v -> within lo hi v.

(** The number [random.random()] returns for the event, if it is a packet,
    lies within [0, 1]. *)
Definition unit_draw (ev : event) : Prop :=
  match ev with
  | EventOFPSwitchFeatures _ => True
  | EventOFPPacketIn _ rnd _ => within 0 1 rnd
  end.

(** [[v for row in t.values() for e in row.values() for v in e.values()]] *)
Definition table_values (t : table) : list float :=
  flat_map (fun sr : addr * row =>
              flat_map (fun de : addr * qentry => dvalues (snd de)) (snd sr)) t.

(** [all(lo <= v <= hi for v in table_values(t))] *)
Definition table_within_b (lo hi : float) (t : table) : bool :=
  forallb (fun v => (lo <=? v)%float && (v <=? hi)%float) (table_values t).

(** A packet from [host1] to [host2] that arrives unbuffered at port 1 of
    [dp1]. *)
Definition packet12 : OFPPacketIn :=
  {| msg_datapath := dp1; msg_buffer_id := OFP_NO_BUFFER; msg_in_port := 1;
     msg_data := []; msg_eth := Some (host1, host2) |}.

(** * Part II: facts about the model *)

Section DictFacts.
Context {K V : Type} `{Key K}.
Implicit Types (k : K) (v : V) (d : dict K V).

Lemma keqb_refl k : keqb k k = true.
Proof. destruct (keqb_spec k k); congruence. Qed.

Lemma keqb_neq k k' : k <> k' -> keqb k k' = false.
Proof. destruct (keqb_spec k k'); congruence. Qed.

Lemma dget_dset_same k v d : dget k (dset k v d) = Some v.
Proof.
  induction d as [|[k' v'] d IH]; simpl.
  - now rewrite keqb_refl.
  - destruct (keqb k k') eqn:E; simpl; rewrite E; auto.
Qed.

Lemma dget_dset_other k k' v d : k' <> k -> dget k' (dset k v d) = dget k' d.
Proof.
  intros Hne. induction d as [|[k0 v0] d IH]; simpl.
  - now rewrite (keqb_neq Hne).
  - destruct (keqb k k0) eqn:E; simpl.
    + destruct (keqb_spec k k0) as [->|]; [|discriminate].
      now rewrite (keqb_neq Hne).
    + now rewrite IH.
Qed.

Lemma dget_dset k k' v d :
  dget k' (dset k v d) = if keqb k' k then Some v else dget k' d.
Proof.
  destruct (keqb_spec k' k) as [->|Hne].
  - apply dget_dset_same.
  - now apply dget_dset_other.
Qed.

Lemma dget_or_dset_same k v dflt d : dget_or k dflt (dset k v d) = v.
Proof. unfold dget_or. now rewrite dget_dset_same. Qed.

Lemma dkeys_dset_mem k v d : dmem k d = true -> dkeys (dset k v d) = dkeys d.
Proof.
  unfold dmem. induction d as [|[k0 v0] d IH]; simpl; [discriminate|].
  destruct (keqb_spec k k0) as [->|Hne]; simpl; auto.
  intros Hm. now rewrite IH.
Qed.

Lemma dkeys_dset_new k v d : dmem k d = false -> dset k v d = d ++ [(k, v)].
Proof.
  unfold dmem. induction d as [|[k0 v0] d IH]; simpl; auto.
  destruct (keqb_spec k k0) as [->|Hne]; simpl; [discriminate|].
  intros Hm. now rewrite IH.
Qed.

Lemma dget_None_notin k d : dget k d = None <-> ~ In k (dkeys d).
Proof.
  induction d as [|[k0 v0] d IH]; simpl; [tauto|].
  destruct (keqb_spec k k0) as [->|Hne].
  - split; [discriminate | intros F; exfalso; apply F; now left].
  - rewrite IH. split; intros F; [intros [E|E]; [congruence | tauto] | tauto].
Qed.

Lemma dmem_false_notin k d : dmem k d = false <-> ~ In k (dkeys d).
Proof.
  rewrite <- dget_None_notin. unfold dmem.
  destruct (dget k d); split; congruence.
Qed.

Lemma dmem_In k d : dmem k d = true <-> In k (dkeys d).
Proof.
  destruct (dmem k d) eqn:E.
  - split; auto. intros _.
    destruct (in_dec (fun a b => reflect_dec _ _ (keqb_spec a b)) k (dkeys d)) as [i|n]; auto.
    apply dmem_false_notin in n. congruence.
  - apply dmem_false_notin in E. split; [discriminate | tauto].
Qed.

Lemma dict_ok_dset k v d : dict_ok d -> dict_ok (dset k v d).
Proof.
  unfold dict_ok. intros Hd.
  destruct (dmem k d) eqn:E.
  - now rewrite dkeys_dset_mem.
  - rewrite dkeys_dset_new by assumption. unfold dkeys. rewrite map_app. simpl.
    apply NoDup_app; auto.
    + constructor; [simpl; tauto | constructor].
    + intros x Hx [<-|[]].
      apply dmem_In in Hx. congruence.
Qed.

Lemma dget_In k v d : dget k d = Some v -> In (k, v) d.
Proof.
  induction d as [|[k0 v0] d IH]; simpl; [discriminate|].
  destruct (keqb_spec k k0) as [->|Hne]; intros E.
  - left. congruence.
  - right. auto.
Qed.

Lemma In_dget k v d : dict_ok d -> In (k, v) d -> dget k d = Some v.
Proof.
  unfold dict_ok. induction d as [|[k0 v0] d IH]; simpl; [tauto|].
  intros Hd [E|Hin]; inversion Hd; subst.
  - inversion E; subst. now rewrite keqb_refl.
  - destruct (keqb_spec k k0) as [->|Hne]; auto.
    exfalso. apply H2. change k0 with (fst (k0, v)). now apply in_map.
Qed.

Lemma Forall_dset (P : K * V -> Prop) k v d :
  Forall P d -> (forall k0, P (k0, v)) -> Forall P (dset k v d).
Proof.
  intros Hd Hv. induction d as [|[k0 v0] d IH]; simpl.
  - constructor; auto.
  - inversion Hd; subst. destruct (keqb k k0); constructor; auto.
Qed.

Lemma dget_ensure_key k k' dflt d :
  dget k' (ensure_key k dflt d)
  = if keqb k' k then Some (dget_or k dflt d) else dget k' d.
Proof.
  unfold ensure_key, dmem, dget_or.
  destruct (keqb_spec k' k) as [->|Hne].
  - destruct (dget k d) eqn:E; auto. apply dget_dset_same.
  - destruct (dget k d) eqn:E; auto. now apply dget_dset_other.
Qed.

Lemma dget_or_ensure_key k dflt d :
  dget_or k dflt (ensure_key k dflt d) = dget_or k dflt d.
Proof. unfold dget_or at 1. now rewrite dget_ensure_key, keqb_refl. Qed.

Lemma dget_dupd k k' (f : V -> V) d :
  dget k' (dupd k f d)
  = if keqb k' k then option_map f (dget k d) else dget k' d.
Proof.
  unfold dupd. destruct (keqb_spec k' k) as [->|Hne].
  - destruct (dget k d) eqn:E; simpl; auto. apply dget_dset_same.
  - destruct (dget k d) eqn:E; auto. now apply dget_dset_other.
Qed.

(** Get-or-create followed by a mutation of what is stored under the key:
    the shape of every nested update of the controller. *)
Lemma dget_dupd_ensure k k' (f : V -> V) dflt d :
  dget k' (dupd k f (ensure_key k dflt d))
  = if keqb k' k then Some (f (dget_or k dflt d)) else dget k' d.
Proof.
  rewrite dget_dupd, !dget_ensure_key, keqb_refl.
  now destruct (keqb k' k).
Qed.

Lemma dget_or_dupd_ensure_same k (f : V -> V) dflt d :
  dget_or k dflt (dupd k f (ensure_key k dflt d)) = f (dget_or k dflt d).
Proof. unfold dget_or at 1. now rewrite dget_dupd_ensure, keqb_refl. Qed.

Lemma dget_or_dupd_ensure_other k k' (f : V -> V) dflt dflt' d :
  k' <> k ->
  dget_or k' dflt' (dupd k f (ensure_key k dflt d)) = dget_or k' dflt' d.
Proof.
  intros Hne. unfold dget_or. now rewrite dget_dupd_ensure, (keqb_neq Hne).
Qed.

Lemma dict_ok_ensure_key k dflt d : dict_ok d -> dict_ok (ensure_key k dflt d).
Proof. unfold ensure_key. destruct (dmem k d); auto using dict_ok_dset. Qed.

Lemma dict_ok_dupd k (f : V -> V) d : dict_ok d -> dict_ok (dupd k f d).
Proof. unfold dupd. destruct (dget k d); auto using dict_ok_dset. Qed.

Lemma Forall_ensure_key (P : K * V -> Prop) k dflt d :
  Forall P d -> (forall k0, P (k0, dflt)) -> Forall P (ensure_key k dflt d).
Proof. unfold ensure_key. destruct (dmem k d); auto using Forall_dset. Qed.

Lemma Forall_dupd (P : V -> Prop) k (f : V -> V) d :
  Forall (fun kv => P (snd kv)) d -> (forall v, P v -> P (f v)) ->
  Forall (fun kv => P (snd kv)) (dupd k f d).
Proof.
  intros Hd Hf. unfold dupd. destruct (dget k d) as [v|] eqn:E; auto.
  apply Forall_dset; auto. intros k0. simpl. apply Hf.
  apply dget_In in E. rewrite Forall_forall in Hd. apply (Hd _ E).
Qed.

Lemma dict_all_nil (P : V -> Prop) : dict_all P ([] : dict K V).
Proof. split; constructor. Qed.

Lemma dict_all_dupd_ensure (P : V -> Prop) k (f : V -> V) dflt d :
  dict_all P d -> P dflt -> (forall v, P v -> P (f v)) ->
  dict_all P (dupd k f (ensure_key k dflt d)).
Proof.
  intros [Hk Hv] Hp Hf. split.
  - now apply dict_ok_dupd, dict_ok_ensure_key.
  - apply Forall_dupd; auto. now apply Forall_ensure_key.
Qed.

Lemma dict_all_dupd (P : V -> Prop) k (f : V -> V) d :
  dict_all P d -> (forall v, P v -> P (f v)) -> dict_all P (dupd k f d).
Proof.
  intros [Hk Hv] Hf. split; [now apply dict_ok_dupd | now apply Forall_dupd].
Qed.

(** The values after [d[k] = v]: the old ones and [v]. *)
Lemma In_dvalues_dset k v x d :
  In x (dvalues (dset k v d)) -> x = v \/ In x (dvalues d).
Proof.
  unfold dvalues. induction d as [|[k0 v0] d IH]; simpl.
  - intros [E|[]]; auto.
  - destruct (keqb k k0); simpl; intros [E|Hin]; auto.
    destruct (IH Hin); auto.
Qed.

Lemma NoDup_dvalues_dset k v d :
  NoDup (dvalues d) -> ~ In v (dvalues d) -> NoDup (dvalues (dset k v d)).
Proof.
  unfold dvalues. induction d as [|[k0 v0] d IH]; simpl; intros Hd Hv.
  - constructor; [tauto | constructor].
  - inversion Hd; subst. destruct (keqb k k0); simpl.
    + constructor; tauto.
    + constructor; [|apply IH; tauto].
      intros Hin. apply In_dvalues_dset in Hin. tauto.
Qed.

Lemma In_dvalues k v d : dget k d = Some v -> In v (dvalues d).
Proof.
  intros E. apply dget_In in E. change v with (snd (k, v)). now apply in_map.
Qed.

Lemma dvalues_nonempty k v d : dget k d = Some v -> dvalues d <> [].
Proof. destruct d; simpl; [discriminate | intros _; discriminate]. Qed.

(** Distinct keys of a dictionary without repeated values hold distinct
    values. *)
Lemma dget_distinct k k' v v' d :
  NoDup (dvalues d) -> k <> k' ->
  dget k d = Some v -> dget k' d = Some v' -> v <> v'.
Proof.
  induction d as [|[k0 v0] d IH]; simpl; [discriminate|].
  intros Hn Hne. inversion Hn as [|? ? Hnotin Hn']; subst.
  destruct (keqb_spec k k0) as [->|H1], (keqb_spec k' k0) as [->|H2].
  - congruence.
  - intros [= <-] E Heq. subst. apply Hnotin. eapply In_dvalues, E.
  - intros E [= <-] Heq. subst. apply Hnotin. eapply In_dvalues, E.
  - now apply IH.
Qed.

Lemma dmem_dupd k k' (f : V -> V) d :
  dmem k' (dupd k f d) = dmem k' d.
Proof.
  unfold dmem. rewrite dget_dupd.
  destruct (keqb_spec k' k) as [->|Hne]; auto. now destruct (dget k d).
Qed.

Lemma dmem_ensure_key k k' dflt d :
  dmem k' (ensure_key k dflt d) = keqb k' k || dmem k' d.
Proof.
  unfold dmem. rewrite dget_ensure_key.
  destruct (keqb_spec k' k) as [->|Hne]; auto.
Qed.

Lemma dset_nonempty k v d :
  dset k v d <> [].
Proof. destruct d as [|[k0 v0] d]; simpl; [|destruct (keqb k k0)]; discriminate. Qed.

End DictFacts.

(** ** The object store *)

Lemma length_write r t st : List.length (write r t st) = List.length st.
Proof.
  revert r. induction st as [|t0 st IH]; intros [|r]; simpl; auto.
Qed.

Lemma deref_write_same r t st :
  (r < List.length st)%nat -> deref (write r t st) r = t.
Proof.
  unfold deref. revert r. induction st as [|t0 st IH]; intros [|r]; simpl; try lia; auto.
  intros. apply IH. lia.
Qed.

Lemma deref_write_other r r' t st : r' <> r -> deref (write r t st) r' = deref st r'.
Proof.
  unfold deref. revert r r'.
  induction st as [|t0 st IH]; intros [|r] [|r']; simpl; try congruence; auto.
Qed.

Lemma deref_alloc_old r t st :
  (r < List.length st)%nat -> deref (st ++ [t]) r = deref st r.
Proof. intros. unfold deref. now rewrite app_nth1. Qed.

Lemma deref_alloc_new t st : deref (st ++ [t]) (List.length st) = t.
Proof. unfold deref. rewrite app_nth2, Nat.sub_diag; auto. Qed.

Lemma Forall_write (P : table -> Prop) r t st :
  Forall P st -> P t -> Forall P (write r t st).
Proof.
  intros Hst Ht. revert r. induction Hst; intros [|r]; simpl; constructor; auto.
Qed.

(** ** Comparisons of binary64 numbers *)

Lemma compare_cont_flip (p q : positive) :
  Pos.compare_cont Eq q p = CompOpp (Pos.compare_cont Eq p q).
Proof. now rewrite Pos.compare_cont_antisym. Qed.

Lemma SFcompare_Lt_Gt (x y : spec_float) :
  SFcompare x y = Some Lt -> SFcompare y x = Some Gt.
Proof.
  destruct x as [sx|sx| |sx mx ex], y as [sy|sy| |sy my ey]; simpl;
    try destruct sx; try destruct sy; simpl; try congruence;
    rewrite (Z.compare_antisym ex ey), (compare_cont_flip mx my);
    destruct (ex ?= ey)%Z; simpl; try congruence;
    destruct (Pos.compare_cont Eq mx my); simpl; congruence.
Qed.


(** Two numbers that a comparison tells apart are not equal. *)
Lemma float_neq_by_ltb (x y c : float) :
  (x <? c)%float = true -> (y <? c)%float = false -> x <> y.
Proof. intros Hx Hy E. subst. congruence. Qed.

(** ** TrustTracker *)

(** The score [update_trust] stores is the moving average of line 126. *)
Lemma trust_of_update_trust (s : state) (node : addr) (rate : float) :
  trust_of (update_trust s node rate) node
  = (0.9 * trust_of s node + 0.1 * rate)%float.
Proof. unfold trust_of at 1. simpl. apply dget_or_dset_same. Qed.


(** ** DecisionPolicy *)

(** The entry [federated_decision] takes its maximum over: the one the
    global table holds for the flow, or the freshly made [{FLOOD: rnd}]. *)
Lemma init_flow_entry (g : table) (src dst : addr) (rnd : float) :
  dget_or dst [] (dget_or src [] (init_flow g src dst rnd))
  = match dget dst (dget_or src [] g) with
    | Some e => e
    | None => [(OFPP_FLOOD, rnd)]
    end.
Proof.
  unfold init_flow. rewrite dget_or_dupd_ensure_same.
  unfold dget_or at 1. rewrite dget_ensure_key, keqb_refl.
  reflexivity.
Qed.

Lemma py_max_key_nonempty (e : qentry) :
  e <> [] -> exists a, py_max_key e = Some a.
Proof. destruct e as [|[a v] e]; [congruence | simpl; eauto]. Qed.

(** ** LocalQStore *)

Lemma write_write r t t' st : write r t' (write r t st) = write r t' st.
Proof.
  revert r. induction st as [|t0 st IH]; intros [|r]; simpl; auto.
  now rewrite IH.
Qed.

(** What lines 86-87 leave behind: the datapath owns an object of the store,
    which holds what the datapath's table held, and nothing else moved. *)
Lemma ensure_datapath_spec (s : state) (dp : dpid) (r : ref) (s1 : state) :
  wf s -> ensure_datapath s dp = (r, s1) ->
  dget dp (q_values s1) = Some r
  /\ (r < List.length (store s1))%nat
  /\ r <> global_q_values s
  /\ deref (store s1) r = local_table s dp
  /\ global_q_values s1 = global_q_values s
  /\ trust_values s1 = trust_values s
  /\ (List.length (store s) <= List.length (store s1))%nat
  /\ (forall r', (r' < List.length (store s))%nat ->
                 deref (store s1) r' = deref (store s) r')
  /\ (forall dp', dp' <> dp -> dget dp' (q_values s1) = dget dp' (q_values s)).
Proof.
  intros Hwf. unfold ensure_datapath, local_table.
  destruct (dget dp (q_values s)) as [r0|] eqn:E.
  - intros [= <- <-]. rewrite E.
    assert (Hin : In r0 (dvalues (q_values s))) by (eapply In_dvalues, E).
    repeat split; auto.
    + pose proof (wf_refs Hwf) as Hr. rewrite Forall_forall in Hr. auto.
    + pose proof (wf_owners Hwf) as Hn. inversion Hn; subst. congruence.
  - simpl. intros [= <- <-]. simpl.
    rewrite dget_dset_same, length_app, deref_alloc_new. simpl.
    repeat split; auto; try lia.
    + pose proof (wf_global Hwf). lia.
    + intros r' Hr'. now apply deref_alloc_old.
    + intros dp' Hne. now apply dget_dset_other.
Qed.

(** The flow's entry after lines 89-92: the one that was there, else [{}]. *)
Lemma ensure_flow_entry (t : table) (src dst : addr) :
  dget_or dst [] (dget_or src [] (ensure_flow t src dst))
  = dget_or dst [] (dget_or src [] t).
Proof.
  unfold ensure_flow.
  now rewrite dget_or_dupd_ensure_same, dget_or_ensure_key.
Qed.

Lemma ensure_flow_other_row (t : table) (src dst k : addr) :
  k <> src -> dget_or k [] (ensure_flow t src dst) = dget_or k [] t.
Proof. intros. unfold ensure_flow. now apply dget_or_dupd_ensure_other. Qed.

(** The row of [src] after lines 89-92 has [dst] among its keys. *)
Lemma ensure_flow_row_nonempty (t : table) (src dst : addr) :
  dvalues (dget_or src [] (ensure_flow t src dst)) <> [].
Proof.
  unfold ensure_flow. rewrite dget_or_dupd_ensure_same.
  eapply dvalues_nonempty. rewrite dget_ensure_key, keqb_refl. reflexivity.
Qed.

Lemma lookup3_store_q (t : table) (src dst : addr) (act : action) (v : float) :
  dmem dst (dget_or src [] t) = true -> dmem src t = true ->
  lookup3 (store_q t src dst act v) src dst act = Some v.
Proof.
  unfold lookup3, store_q, dmem. intros Hd Hs.
  unfold dget_or at 1 2. rewrite dget_dupd, keqb_refl.
  destruct (dget src t) as [rw|] eqn:Es; [|discriminate]. simpl.
  unfold dget_or in Hd. rewrite Es in Hd.
  rewrite dget_dupd, keqb_refl.
  destruct (dget dst rw) as [e|] eqn:Ed; [|discriminate]. simpl.
  apply dget_dset_same.
Qed.

Lemma ensure_flow_mem (t : table) (src dst : addr) :
  dmem src (ensure_flow t src dst) = true
  /\ dmem dst (dget_or src [] (ensure_flow t src dst)) = true.
Proof.
  unfold ensure_flow, dmem. split.
  - now rewrite dget_dupd_ensure, keqb_refl.
  - rewrite dget_or_dupd_ensure_same. now rewrite dget_ensure_key, keqb_refl.
Qed.

(** ** Every reachable state is well formed *)

Lemma table_ok_deref (st : list table) (r : ref) :
  Forall table_ok st -> table_ok (deref st r).
Proof.
  intros Hst. unfold deref. destruct (nth_in_or_default r st []) as [Hin | ->].
  - rewrite Forall_forall in Hst. auto.
  - apply dict_all_nil.
Qed.

Lemma dict_ok_merge_action (g : qentry) (aq : action * float) :
  dict_ok g -> dict_ok (merge_action g aq).
Proof.
  destruct aq as [a q]. unfold merge_action.
  destruct (dget a g); apply dict_ok_dset.
Qed.

Lemma dict_ok_fold_merge_action (e g : qentry) :
  dict_ok g -> dict_ok (fold_left merge_action e g).
Proof.
  revert g. induction e as [|aq e IH]; simpl; auto using dict_ok_merge_action.
Qed.

Lemma row_ok_merge_dst (grow : row) (de : addr * qentry) :
  row_ok grow -> row_ok (merge_dst grow de).
Proof.
  destruct de as [dst e]. intros Hg. unfold merge_dst.
  apply dict_all_dupd_ensure; auto.
  - constructor.
  - intros v. apply dict_ok_fold_merge_action.
Qed.

Lemma row_ok_fold_merge_dst (lrow grow : row) :
  row_ok grow -> row_ok (fold_left merge_dst lrow grow).
Proof.
  revert grow. induction lrow as [|de lrow IH]; simpl; auto using row_ok_merge_dst.
Qed.

Lemma table_ok_merge_src (g : table) (sr : addr * row) :
  table_ok g -> table_ok (merge_src g sr).
Proof.
  destruct sr as [src lrow]. intros Hg. unfold merge_src.
  apply dict_all_dupd_ensure; auto.
  - apply dict_all_nil.
  - intros v. apply row_ok_fold_merge_dst.
Qed.

Lemma table_ok_fold_merge_src (lt g : table) :
  table_ok g -> table_ok (fold_left merge_src lt g).
Proof.
  revert g. induction lt as [|sr lt IH]; simpl; auto using table_ok_merge_src.
Qed.

Lemma table_ok_init_flow (g : table) (src dst : addr) (rnd : float) :
  table_ok g -> table_ok (init_flow g src dst rnd).
Proof.
  intros Hg. unfold init_flow. apply dict_all_dupd_ensure; auto.
  - apply dict_all_nil.
  - intros rw [Hk Hv]. split; [now apply dict_ok_ensure_key|].
    apply Forall_ensure_key; auto. intros k0. simpl.
    constructor; [simpl; tauto | constructor].
Qed.

Lemma table_ok_ensure_flow (t : table) (src dst : addr) :
  table_ok t -> table_ok (ensure_flow t src dst).
Proof.
  intros Ht. unfold ensure_flow. apply dict_all_dupd_ensure; auto.
  - apply dict_all_nil.
  - intros rw [Hk Hv]. split; [now apply dict_ok_ensure_key|].
    apply Forall_ensure_key; auto. intros k0. constructor.
Qed.

Lemma table_ok_store_q (t : table) (src dst : addr) (act : action) (v : float) :
  table_ok t -> table_ok (store_q t src dst act v).
Proof.
  intros Ht. unfold store_q. apply dict_all_dupd; auto.
  intros rw Hrw. apply dict_all_dupd; auto.
  intros e He. now apply dict_ok_dset.
Qed.

(** A mutation of a table object keeps the state well formed as long as
    the new content is a proper table. *)
Lemma wf_write (s : state) (r : ref) (t : table) :
  wf s -> table_ok t -> wf (with_store s (write r t (store s))).
Proof.
  intros [Hg Hr Ho Hd Ht] Hok.
  constructor; simpl; rewrite ?length_write; auto using Forall_write.
Qed.

Lemma wf_ensure_datapath (s : state) (dp : dpid) :
  wf s -> wf (snd (ensure_datapath s dp)).
Proof.
  intros Hwf. unfold ensure_datapath.
  destruct (dget dp (q_values s)) eqn:E; simpl; auto.
  destruct Hwf as [Hg Hr Ho Hd Ht].
  assert (Hfresh : ~ In (List.length (store s)) (dvalues (q_values s))).
  { intros Hin. rewrite Forall_forall in Hr. apply Hr in Hin. lia. }
  constructor; simpl; rewrite ?length_app; simpl.
  - lia.
  - rewrite Forall_forall in *. intros x Hx.
    apply In_dvalues_dset in Hx. destruct Hx as [->|Hx]; [lia|].
    apply Hr in Hx. lia.
  - inversion Ho; subst. constructor.
    + intros Hin. apply In_dvalues_dset in Hin. destruct Hin as [Eg|Hin]; [lia | auto].
    + now apply NoDup_dvalues_dset.
  - now apply dict_ok_dset.
  - apply Forall_app. split; auto. constructor; [apply dict_all_nil | constructor].
Qed.

Lemma wf_update_trust (s : state) (node : addr) (rate : float) :
  wf s -> wf (update_trust s node rate).
Proof. intros [Hg Hr Ho Hd Ht]. constructor; auto. Qed.

Lemma wf_federated_decision (s : state) (src dst : addr) (rnd : float) :
  wf s -> wf (state_of (federated_decision s src dst rnd)).
Proof.
  intros Hwf. unfold federated_decision.
  assert (Hw : wf (with_store s
                     (write (global_q_values s)
                        (init_flow (global_table s) src dst rnd) (store s)))).
  { apply wf_write; auto. apply table_ok_init_flow, table_ok_deref, (wf_tables Hwf). }
  destruct (py_max_key _); exact Hw.
Qed.

Lemma wf_update_local_q_table (s : state) (dp : dpid) (src dst : addr)
  (act : action) (reward : float) :
  wf s -> wf (state_of (update_local_q_table s dp src dst act reward)).
Proof.
  intros Hwf. unfold update_local_q_table.
  pose proof (wf_ensure_datapath dp Hwf) as Hwf1.
  destruct (ensure_datapath s dp) as [r s1]. simpl in Hwf1.
  assert (Hok : table_ok (ensure_flow (deref (store s1) r) src dst))
    by apply table_ok_ensure_flow, table_ok_deref, (wf_tables Hwf1).
  pose proof (wf_write r Hwf1 Hok) as Hwf2.
  destruct (py_max_default _) as [[next_max|e]|]; simpl; auto.
  apply (wf_write r Hwf2). now apply table_ok_store_q.
Qed.

Lemma length_aggregate_fold (g : ref) (l : dict dpid ref) (st : list table) :
  List.length (fold_left (aggregate_dp g) l st) = List.length st.
Proof.
  revert st. induction l as [|dr l IH]; intros st; simpl; auto.
  rewrite IH. apply length_write.
Qed.

Lemma table_ok_aggregate_fold (g : ref) (l : dict dpid ref) (st : list table) :
  Forall table_ok st -> Forall table_ok (fold_left (aggregate_dp g) l st).
Proof.
  revert st. induction l as [|dr l IH]; intros st Hst; simpl; auto.
  apply IH. unfold aggregate_dp. apply Forall_write; auto.
  now apply table_ok_fold_merge_src, table_ok_deref.
Qed.

Lemma wf_aggregate_global_q_values (s : state) :
  wf s -> wf (aggregate_global_q_values s).
Proof.
  intros [Hg Hr Ho Hd Ht]. unfold aggregate_global_q_values.
  constructor; simpl; rewrite ?length_aggregate_fold; auto.
  now apply table_ok_aggregate_fold.
Qed.

Lemma wf_redistribute_dp (s : state) (dp : dpid) :
  wf s -> wf (redistribute_dp s dp).
Proof.
  intros [Hg Hr Ho Hd Ht]. unfold redistribute_dp. simpl.
  assert (Hfresh : ~ In (List.length (store s)) (dvalues (q_values s))).
  { intros Hin. rewrite Forall_forall in Hr. apply Hr in Hin. lia. }
  constructor; simpl; rewrite ?length_app; simpl.
  - lia.
  - rewrite Forall_forall in *. intros x Hx.
    apply In_dvalues_dset in Hx. destruct Hx as [->|Hx]; [lia|].
    apply Hr in Hx. lia.
  - inversion Ho; subst. constructor.
    + intros Hin. apply In_dvalues_dset in Hin. destruct Hin as [Eg|Hin]; [lia | auto].
    + now apply NoDup_dvalues_dset.
  - now apply dict_ok_dset.
  - apply Forall_app. split; auto.
    constructor; [now apply table_ok_deref | constructor].
Qed.

Lemma wf_redistribute_fold (dps : list dpid) (s : state) :
  wf s -> wf (fold_left redistribute_dp dps s).
Proof.
  revert s. induction dps as [|dp dps IH]; intros s Hwf; simpl; auto.
  apply IH. now apply wf_redistribute_dp.
Qed.

Lemma wf_redistribute_global_model (s : state) :
  wf s -> wf (redistribute_global_model s).
Proof. apply wf_redistribute_fold. Qed.

Lemma wf_init : wf init.
Proof.
  constructor; simpl; auto; repeat constructor; simpl; tauto.
Qed.

Lemma wf_step (s s' : state) : wf s -> step s s' -> wf s'.
Proof.
  intros Hwf Hstep. destruct Hstep;
    auto using wf_federated_decision, wf_update_local_q_table,
      wf_aggregate_global_q_values, wf_redistribute_global_model, wf_update_trust.
Qed.

Theorem wf_reachable (s : state) : reachable s -> wf s.
Proof. induction 1; eauto using wf_init, wf_step. Qed.

(** ** Aggregation, key by key *)

Section NestedMerge.
Context {K V X : Type} `{Key K}.
Variable dflt : V.
Variable F : X -> V -> V.
Variable f : dict K V -> K * X -> dict K V.
Hypothesis f_shape :
  forall g k x, f g (k, x) = dupd k (F x) (ensure_key k dflt g).

(** A loop that, for every item [(k, x)] of [l], makes sure that [g[k]]
    exists and then lets [F x] work on it, touches [g[k]] once for each key
    of [l] and leaves the other keys alone. *)
Lemma dget_fold_nested (l : dict K X) (g : dict K V) (k : K) :
  dict_ok l ->
  dget k (fold_left f l g)
  = match dget k l with
    | Some x => Some (F x (dget_or k dflt g))
    | None => dget k g
    end.
Proof.
  unfold dict_ok. revert g. induction l as [|[k0 x0] l IH]; intros g Hl; simpl; auto.
  inversion Hl as [|? ? Hnotin Hl']; subst.
  rewrite IH, f_shape by assumption.
  destruct (keqb_spec k k0) as [->|Hne].
  - apply dget_None_notin in Hnotin. rewrite Hnotin.
    now rewrite dget_dupd_ensure, keqb_refl.
  - rewrite dget_dupd_ensure, (keqb_neq Hne).
    unfold dget_or at 1. now rewrite dget_dupd_ensure, (keqb_neq Hne).
Qed.

End NestedMerge.

(** Lines 111-115 for one action: the incoming local value meets the global
    one once. *)
Lemma dget_fold_merge_action (e g : qentry) (a : action) :
  dict_ok e ->
  dget a (fold_left merge_action e g)
  = match dget a e with
    | Some v => merge1 (dget a g) v
    | None => dget a g
    end.
Proof.
  unfold dict_ok. revert g. induction e as [|[a0 v0] e IH]; intros g He; [reflexivity|].
  inversion He as [|? ? Hnotin He']; subst.
  cbn [fold_left dget]. rewrite IH by assumption.
  assert (Hstep : dget a (merge_action g (a0, v0))
                  = if keqb a a0 then merge1 (dget a0 g) v0 else dget a g).
  { unfold merge_action, merge1.
    destruct (dget a0 g); rewrite dget_dset; reflexivity. }
  destruct (keqb_spec a a0) as [->|Hne].
  - apply dget_None_notin in Hnotin. now rewrite Hnotin, Hstep.
  - now rewrite Hstep.
Qed.

Lemma lookup_fold_merge_dst (lrow grow : row) (dst : addr) (a : action) :
  row_ok lrow ->
  dget a (dget_or dst [] (fold_left merge_dst lrow grow))
  = match dget a (dget_or dst [] lrow) with
    | Some v => merge1 (dget a (dget_or dst [] grow)) v
    | None => dget a (dget_or dst [] grow)
    end.
Proof.
  intros [Hk Hv]. unfold dget_or at 1.
  rewrite (@dget_fold_nested _ _ _ _ [] (fold_left merge_action) merge_dst)
    by (auto; intros g k x; reflexivity).
  unfold dget_or at 2. destruct (dget dst lrow) as [e|] eqn:E; [|reflexivity].
  apply dget_fold_merge_action.
  apply dget_In in E. rewrite Forall_forall in Hv. apply (Hv _ E).
Qed.

Lemma lookup3_fold_merge_src (lt g : table) (src dst : addr) (a : action) :
  table_ok lt ->
  lookup3 (fold_left merge_src lt g) src dst a
  = match lookup3 lt src dst a with
    | Some v => merge1 (lookup3 g src dst a) v
    | None => lookup3 g src dst a
    end.
Proof.
  intros [Hk Hv]. unfold lookup3. unfold dget_or at 2.
  rewrite (@dget_fold_nested _ _ _ _ [] (fold_left merge_dst) merge_src)
    by (auto; intros g0 k x; reflexivity).
  unfold dget_or at 4. destruct (dget src lt) as [lrow|] eqn:E; [|reflexivity].
  apply lookup_fold_merge_dst.
  apply dget_In in E. rewrite Forall_forall in Hv. apply (Hv _ E).
Qed.

Lemma deref_aggregate_fold_other (g : ref) (l : dict dpid ref) (st : list table) (r : ref) :
  r <> g -> deref (fold_left (aggregate_dp g) l st) r = deref st r.
Proof.
  intros Hne. revert st. induction l as [|dr l IH]; intros st; simpl; auto.
  rewrite IH. unfold aggregate_dp. now apply deref_write_other.
Qed.

Lemma reported_write (g : ref) (t : table) (st : list table) (src dst : addr)
  (a : action) (l : dict dpid ref) :
  ~ In g (dvalues l) ->
  reported (write g t st) src dst a l = reported st src dst a l.
Proof.
  unfold reported, dvalues. induction l as [|[dp r] l IH]; simpl; intros Hg; auto.
  rewrite IH by tauto. rewrite deref_write_other; auto.
Qed.

(** The loop of line 102, for one key of the global table. *)
Lemma lookup3_aggregate_fold (g : ref) (l : dict dpid ref) (st : list table)
  (src dst : addr) (a : action) :
  (g < List.length st)%nat -> ~ In g (dvalues l) -> Forall table_ok st ->
  lookup3 (deref (fold_left (aggregate_dp g) l st) g) src dst a
  = fold_left merge1 (reported st src dst a l) (lookup3 (deref st g) src dst a).
Proof.
  revert st. induction l as [|[dp r] l IH]; intros st Hlen Hg Hok; [reflexivity|].
  cbn [fold_left]. unfold dvalues in Hg. simpl in Hg.
  rewrite IH.
  - unfold aggregate_dp at 1 2. cbn [snd].
    rewrite reported_write by (unfold dvalues; tauto).
    rewrite deref_write_same by assumption.
    rewrite lookup3_fold_merge_src by now apply table_ok_deref.
    unfold reported at 2. cbn [flat_map snd]. fold (reported st src dst a l).
    rewrite fold_left_app.
    destruct (lookup3 (deref st r) src dst a); reflexivity.
  - unfold aggregate_dp. now rewrite length_write.
  - unfold dvalues. tauto.
  - unfold aggregate_dp. apply Forall_write; auto.
    now apply table_ok_fold_merge_src, table_ok_deref.
Qed.

Lemma wf_global_not_local (s : state) :
  wf s -> ~ In (global_q_values s) (dvalues (q_values s)).
Proof. intros Hwf. pose proof (wf_owners Hwf) as Hn. now inversion Hn. Qed.

Lemma wf_local_not_global (s : state) (dp : dpid) (r : ref) :
  wf s -> dget dp (q_values s) = Some r -> r <> global_q_values s.
Proof.
  intros Hwf E Heq. apply (wf_global_not_local Hwf). subst.
  now apply In_dvalues in E.
Qed.

Lemma two_reports_reachable : reachable two_reports.
Proof.
  unfold two_reports.
  eapply reachable_step; [|apply step_update].
  eapply reachable_step; [|apply step_update].
  apply reachable_init.
Qed.

(** ** Ownership of table objects *)

(** In a well-formed state a mutation of the table object of one datapath,
    whatever it stores, is seen by that datapath alone. *)
Lemma write_local_frame (s : state) (dp1 : dpid) (r1 : ref) (t' : table) :
  wf s -> dget dp1 (q_values s) = Some r1 ->
  global_table (with_store s (write r1 t' (store s))) = global_table s
  /\ forall dp2, dp2 <> dp1 ->
       local_table (with_store s (write r1 t' (store s))) dp2 = local_table s dp2.
Proof.
  intros Hwf E1. unfold global_table, local_table. simpl. split.
  - apply deref_write_other. intros Heq. now apply (wf_local_not_global dp1 Hwf E1).
  - intros dp2 Hne. destruct (dget dp2 (q_values s)) as [r2|] eqn:E2; auto.
    apply deref_write_other.
    pose proof (wf_owners Hwf) as Hn. inversion Hn; subst.
    now apply (@dget_distinct _ _ _ dp2 dp1 r2 r1 (q_values s)).
Qed.

(** The state an update leaves behind, returned or raised: the datapath's
    table object has been written, and that is all. *)
Lemma update_local_q_table_state (s : state) (dp : dpid) (src dst : addr)
  (act : action) (reward : float) :
  exists t', state_of (update_local_q_table s dp src dst act reward)
             = with_store (snd (ensure_datapath s dp))
                 (write (fst (ensure_datapath s dp)) t'
                    (store (snd (ensure_datapath s dp)))).
Proof.
  unfold update_local_q_table. destruct (ensure_datapath s dp) as [r s1]. simpl.
  destruct (py_max_default _) as [[next_max|e]|]; simpl;
    rewrite ?write_write; eexists; reflexivity.
Qed.

(** An update at one datapath leaves the global table and the tables of the
    other datapaths as they were. *)
Lemma update_local_q_table_frame (s : state) (dp : dpid) (src dst : addr)
  (act : action) (reward : float) :
  wf s ->
  global_table (state_of (update_local_q_table s dp src dst act reward))
  = global_table s
  /\ forall dp2, dp2 <> dp ->
       local_table (state_of (update_local_q_table s dp src dst act reward)) dp2
       = local_table s dp2.
Proof.
  intros Hwf.
  destruct (update_local_q_table_state s dp src dst act reward) as [t' ->].
  pose proof (wf_ensure_datapath dp Hwf) as Hwf1.
  destruct (ensure_datapath s dp) as [r s1] eqn:E. simpl in *.
  destruct (ensure_datapath_spec _ Hwf E)
    as (Hq & Hr & Hrg & Ht & Hg & _ & _ & Hold & Hother).
  destruct (@write_local_frame s1 dp r t' Hwf1 Hq) as [Hglob Hloc]. split.
  - rewrite Hglob. unfold global_table. rewrite Hg. apply Hold, (wf_global Hwf).
  - intros dp2 Hne. rewrite (Hloc _ Hne). unfold local_table.
    rewrite (Hother _ Hne).
    destruct (dget dp2 (q_values s)) as [r2|] eqn:E2; auto.
    apply Hold. pose proof (wf_refs Hwf) as Hrefs. rewrite Forall_forall in Hrefs.
    apply Hrefs. eapply In_dvalues, E2.
Qed.

(** ** Redistribution *)

Lemma redistribute_dp_global (s : state) (dp : dpid) :
  wf s -> global_table (redistribute_dp s dp) = global_table s.
Proof.
  intros Hwf. unfold global_table, redistribute_dp. simpl.
  apply deref_alloc_old, (wf_global Hwf).
Qed.

Lemma redistribute_dp_local_same (s : state) (dp : dpid) :
  local_table (redistribute_dp s dp) dp = global_table s.
Proof.
  unfold local_table, redistribute_dp, global_table. simpl.
  rewrite dget_dset_same. apply deref_alloc_new.
Qed.

Lemma redistribute_dp_local_other (s : state) (dp dp' : dpid) :
  wf s -> dp' <> dp -> local_table (redistribute_dp s dp) dp' = local_table s dp'.
Proof.
  intros Hwf Hne. unfold local_table, redistribute_dp. simpl.
  rewrite dget_dset_other by assumption.
  destruct (dget dp' (q_values s)) as [r|] eqn:E; auto.
  apply deref_alloc_old. pose proof (wf_refs Hwf) as Hrefs.
  rewrite Forall_forall in Hrefs. apply Hrefs. eapply In_dvalues, E.
Qed.

Lemma redistribute_fold_global (dps : list dpid) (s : state) :
  wf s -> global_table (fold_left redistribute_dp dps s) = global_table s.
Proof.
  revert s. induction dps as [|dp dps IH]; intros s Hwf; simpl; auto.
  rewrite IH by now apply wf_redistribute_dp. now apply redistribute_dp_global.
Qed.

Lemma redistribute_fold_local_other (dps : list dpid) (s : state) (dp' : dpid) :
  wf s -> ~ In dp' dps ->
  local_table (fold_left redistribute_dp dps s) dp' = local_table s dp'.
Proof.
  revert s. induction dps as [|dp dps IH]; intros s Hwf Hnotin; simpl in *; auto.
  rewrite IH by (try apply wf_redistribute_dp; tauto).
  apply redistribute_dp_local_other; auto.
Qed.

(** Every datapath the loop of line 120 visits ends up with a table equal
    to the global one. *)
Lemma redistribute_fold_local (dps : list dpid) (s : state) (dp : dpid) :
  wf s -> In dp dps ->
  local_table (fold_left redistribute_dp dps s) dp = global_table s.
Proof.
  revert s. induction dps as [|dp0 dps IH]; intros s Hwf Hin; simpl in *; [tauto|].
  pose proof (wf_redistribute_dp dp0 Hwf) as Hwf1.
  destruct (in_dec Z.eq_dec dp dps) as [Hin'|Hnotin].
  - rewrite IH by assumption. now apply redistribute_dp_global.
  - destruct Hin as [->|Hin]; [|tauto].
    rewrite redistribute_fold_local_other by assumption.
    apply redistribute_dp_local_same.
Qed.

Lemma redistribute_dp_keys (s : state) (dp : dpid) :
  In dp (dkeys (q_values s)) ->
  dkeys (q_values (redistribute_dp s dp)) = dkeys (q_values s).
Proof.
  intros Hin. unfold redistribute_dp. simpl.
  apply dkeys_dset_mem. now apply dmem_In.
Qed.

Lemma redistribute_fold_keys (dps : list dpid) (s : state) :
  incl dps (dkeys (q_values s)) ->
  dkeys (q_values (fold_left redistribute_dp dps s)) = dkeys (q_values s).
Proof.
  revert s. induction dps as [|dp dps IH]; intros s Hincl; simpl; auto.
  assert (Hdp : In dp (dkeys (q_values s))) by (apply Hincl; now left).
  rewrite IH; rewrite redistribute_dp_keys; auto.
  intros x Hx. apply Hincl. now right.
Qed.

(** ** Where the values of the global table come from *)

Lemma federated_decision_global (s : state) (src dst : addr) (rnd : float) :
  wf s ->
  global_table (state_of (federated_decision s src dst rnd))
  = init_flow (global_table s) src dst rnd.
Proof.
  intros Hwf. unfold federated_decision.
  assert (Hg : global_table
                 (with_store s (write (global_q_values s)
                                  (init_flow (global_table s) src dst rnd) (store s)))
               = init_flow (global_table s) src dst rnd).
  { unfold global_table at 1. simpl. apply deref_write_same, (wf_global Hwf). }
  destruct (py_max_key _); exact Hg.
Qed.

(** Lines 75-78 add at most one value to the global table: the random one
    of the flood action of a flow that had no entry. *)
Lemma lookup3_init_flow (g : table) (src dst : addr) (rnd : float)
  (src' dst' : addr) (a : action) (v : float) :
  lookup3 (init_flow g src dst rnd) src' dst' a = Some v ->
  lookup3 g src' dst' a = Some v
  \/ (src' = src /\ dst' = dst /\ a = OFPP_FLOOD /\ v = rnd
      /\ dget dst (dget_or src [] g) = None).
Proof.
  unfold lookup3, init_flow.
  destruct (string_dec src' src) as [->|Hs].
  - rewrite dget_or_dupd_ensure_same.
    destruct (string_dec dst' dst) as [->|Hd].
    + unfold dget_or at 1. rewrite dget_ensure_key, keqb_refl.
      unfold dget_or at 1 3.
      destruct (dget dst (dget_or src [] g)) as [e|] eqn:E; auto.
      simpl. destruct (Z.eqb_spec a OFPP_FLOOD) as [->|Ha]; [|discriminate].
      intros [= <-]. right. auto.
    + unfold dget_or at 1 3. rewrite dget_ensure_key, (keqb_neq Hd). auto.
  - rewrite dget_or_dupd_ensure_other by assumption. auto.
Qed.

Lemma merged_fold (s : state) (src dst : addr) (a : action)
  (l : list float) (acc : option float) :
  incl l (local_values s src dst a) ->
  match acc with
  | Some g => merged s src dst a g
  | None => lookup3 (global_table s) src dst a = None
  end ->
  match fold_left merge1 l acc with
  | Some v => merged s src dst a v
  | None => lookup3 (global_table s) src dst a = None
  end.
Proof.
  revert acc. induction l as [|x l IH]; intros acc Hincl Hacc; simpl; auto.
  apply IH.
  - intros y Hy. apply Hincl. now right.
  - assert (Hx : In x (local_values s src dst a)) by (apply Hincl; now left).
    destruct acc as [g|]; simpl.
    + now apply merged_mean.
    + now apply merged_copied.
Qed.

(** ** Rounding of binary64 products by [0.9] *)

Section Binary64.
Local Open Scope Z_scope.
Local Unset Implicit Arguments.

Lemma digits2_size (p : positive) : digits2_pos p = Pos.size p.
Proof. induction p; simpl; congruence. Qed.

Lemma size_upper (p : positive) : Zpos p < 2 ^ Zpos (Pos.size p).
Proof.
  pose proof (Pos.size_gt p) as H. rewrite <- Pos2Z.inj_pow. lia.
Qed.

Lemma size_lower (p : positive) : 2 ^ Zpos (Pos.size p) <= 2 * Zpos p.
Proof.
  pose proof (Pos.size_le p) as H. rewrite <- Pos2Z.inj_pow. lia.
Qed.

(** Size is decided by the powers of two around the number. *)
Lemma size_le_of_lt (p : positive) (k : Z) :
  Zpos p < 2 ^ k -> Zpos (Pos.size p) <= k.
Proof.
  intros H. destruct (Z_lt_le_dec k (Zpos (Pos.size p))) as [Hlt|]; [|assumption].
  exfalso. pose proof (size_lower p) as Hl.
  assert (0 <= k).
  { destruct (Z_lt_le_dec k 0) as [Hk|]; auto. rewrite Z.pow_neg_r in H by assumption. lia. }
  assert (2 ^ (k + 1) <= 2 ^ Zpos (Pos.size p)) by (apply Z.pow_le_mono_r; lia).
  rewrite Z.pow_add_r in * by lia. lia.
Qed.

Lemma size_ge_of_le (p : positive) (k : Z) :
  2 ^ k <= Zpos p -> k + 1 <= Zpos (Pos.size p).
Proof.
  intros H. destruct (Z_lt_le_dec (Zpos (Pos.size p)) (k + 1)) as [Hlt|]; [|assumption].
  exfalso. pose proof (size_upper p) as Hu.
  assert (2 ^ Zpos (Pos.size p) <= 2 ^ k) by (apply Z.pow_le_mono_r; lia).
  lia.
Qed.

Lemma shr_1_m (mrs : shr_record) :
  0 <= shr_m mrs -> shr_m (shr_1 mrs) = shr_m mrs / 2.
Proof.
  destruct mrs as [m r s]. cbn [shr_m]. intros Hm.
  destruct m as [|[p|p|]|p]; cbn [shr_1 shr_m]; try lia; try reflexivity.
  - apply Z.div_unique with (r := 1); lia.
  - apply Z.div_unique with (r := 0); lia.
Qed.

Lemma pow2_xO (p : positive) : 2 ^ Zpos p~0 = 2 ^ Zpos p * 2 ^ Zpos p.
Proof.
  replace (Zpos p~0) with (Zpos p + Zpos p) by lia.
  apply Z.pow_add_r; lia.
Qed.

Lemma pow2_xI (p : positive) : 2 ^ Zpos p~1 = 2 * (2 ^ Zpos p * 2 ^ Zpos p).
Proof.
  replace (Zpos p~1) with (1 + (Zpos p + Zpos p)) by lia.
  rewrite Z.pow_add_r, Z.pow_add_r by lia. reflexivity.
Qed.

Lemma iter_shr_m (p : positive) (mrs : shr_record) :
  0 <= shr_m mrs ->
  shr_m (iter_pos shr_1 p mrs) = shr_m mrs / 2 ^ Zpos p.
Proof.
  revert mrs. induction p as [p IH|p IH|]; intros mrs Hm; cbn [iter_pos].
  - assert (H1 : 0 <= shr_m (shr_1 mrs)) by (rewrite shr_1_m by assumption; apply Z.div_pos; lia).
    assert (H2 : 0 <= shr_m (iter_pos shr_1 p (shr_1 mrs)))
      by (rewrite IH by assumption; apply Z.div_pos; lia).
    rewrite IH, IH, shr_1_m by assumption.
    rewrite !Z.div_div, pow2_xI by lia. reflexivity.
  - assert (H2 : 0 <= shr_m (iter_pos shr_1 p mrs))
      by (rewrite IH by assumption; apply Z.div_pos; lia).
    rewrite IH, IH by assumption.
    rewrite !Z.div_div, pow2_xO by lia. reflexivity.
  - rewrite shr_1_m by assumption. reflexivity.
Qed.

Lemma round_nearest_even_bounds (mx : Z) (lx : location) :
  mx <= round_nearest_even mx lx <= mx + 1.
Proof.
  destruct lx as [|[| |]]; simpl; try lia. destruct (Z.even mx); lia.
Qed.

Lemma bounded_inv (m : positive) (e : Z) :
  bounded prec emax m e = true ->
  -1074 <= e <= 971 /\ Zpos m < 2 ^ 53 /\ (e <> -1074 -> 2 ^ 52 <= Zpos m)
  /\ Z.max (Zpos (Pos.size m) + e - 53) (-1074) = e.
Proof.
  unfold bounded, canonical_mantissa, fexp, emin, prec, emax.
  rewrite andb_true_iff, Z.eqb_eq, Z.leb_le, digits2_size.
  intros [Hc He].
  pose proof (size_upper m) as Hu. pose proof (size_lower m) as Hl.
  assert (Hd : Zpos (Pos.size m) <= 53) by lia.
  assert (Hp : 2 ^ Zpos (Pos.size m) <= 2 ^ 53) by (apply Z.pow_le_mono_r; lia).
  repeat split; try lia.
  intros Hne. assert (Hd53 : Zpos (Pos.size m) = 53) by lia.
  rewrite Hd53 in Hl. change (2 ^ 53) with (2 * 2 ^ 52) in Hl. lia.
Qed.

Lemma shr_m_of_loc (m : Z) (l : location) : shr_m (shr_record_of_loc m l) = m.
Proof. destruct l as [|[| |]]; reflexivity. Qed.

Lemma shr_fexp_spec (m e : Z) (l : location) :
  0 <= m ->
  let n := Z.max (Zdigits2 m + e - 53) (-1074) - e in
  (n <= 0 -> shr_fexp prec emax m e l = (shr_record_of_loc m l, e))
  /\ (0 < n -> exists mrs, shr_fexp prec emax m e l = (mrs, e + n)
                           /\ shr_m mrs = m / 2 ^ n).
Proof.
  intros Hm n. unfold shr_fexp, shr, fexp, emin, prec, emax.
  change (3 - 1024 - 53) with (-1074). fold n.
  destruct n as [|p|p]; split; intros Hn; try lia; try reflexivity.
  eexists. split; [reflexivity|].
  rewrite iter_shr_m; rewrite shr_m_of_loc; auto.
Qed.

Ltac pow2_consts :=
  change (2 ^ 52) with 4503599627370496 in *;
  change (2 ^ 53) with 9007199254740992 in *;
  change (2 ^ 104) with 20282409603651670423947251286016 in *;
  change (2 ^ 105) with 40564819207303340847894502572032 in *;
  change (2 ^ 106) with 81129638414606681695789005144064 in *.

Lemma mul09_key (m : positive) (e : Z) :
  bounded prec emax m e = true ->
  let r := SFmul prec emax (S754_finite false mantissa_09 (-53)) (S754_finite false m e) in
  0 <= fkey r <= fkey (S754_finite false m e)
  /\ (11 <= Zpos m \/ e <> -1074 -> fkey r < fkey (S754_finite false m e)).
Proof.
  intros Hb. destruct (bounded_inv _ _ Hb) as (He & Hm & Hnorm & Hcan).
  cbn [SFmul xorb fkey]. unfold binary_round_aux.
  assert (HP : Zpos (mantissa_09 * m) = 8106479329266893 * Zpos m) by reflexivity.
  pose proof (size_upper (mantissa_09 * m)) as HPu.
  pose proof (size_lower (mantissa_09 * m)) as HPl.
  assert (Hd106 : Zpos (Pos.size (mantissa_09 * m)) <= 106).
  { apply size_le_of_lt. rewrite HP. pow2_consts. lia. }
  destruct (shr_fexp_spec (Zpos (mantissa_09 * m)) (-53 + e) loc_Exact ltac:(lia)) as [_ Hs1].
  cbn [Zdigits2] in Hs1. rewrite digits2_size in Hs1.
  set (n1 := Z.max (Zpos (Pos.size (mantissa_09 * m)) + (-53 + e) - 53) (-1074) - (-53 + e)) in *.
  assert (Hn1 : n1 = 53
                \/ (n1 = 52 /\ e <> -1074
                    /\ 2 ^ 104 <= Zpos (mantissa_09 * m) < 2 ^ 105)).
  { destruct (Z.eq_dec e (-1074)) as [->|Hne]; [left; subst n1; lia|].
    specialize (Hnorm Hne).
    assert (Hlo : 2 ^ 104 <= Zpos (mantissa_09 * m)) by (rewrite HP; pow2_consts; lia).
    pose proof (size_ge_of_le _ _ Hlo) as Hd105.
    destruct (Z.eq_dec (Zpos (Pos.size (mantissa_09 * m))) 106) as [E|E].
    - left. subst n1. lia.
    - right. assert (E5 : Zpos (Pos.size (mantissa_09 * m)) = 105) by lia.
      rewrite E5 in HPu. subst n1. lia. }
  destruct Hs1 as (mrs1 & Heq1 & Hq1); [lia|]. rewrite Heq1. cbv beta iota.
  pose proof (round_nearest_even_bounds (shr_m mrs1) (loc_of_shr_record mrs1)) as Hr.
  set (m1 := round_nearest_even (shr_m mrs1) (loc_of_shr_record mrs1)) in *.
  rewrite Hq1 in Hr. clear Heq1 Hq1.
  destruct Hn1 as [Hn|(Hn & Hne & HPlo & HPhi)]; rewrite Hn in *.
  - (* shifted by 53: the exponent stays, the mantissa shrinks *)
    replace (-53 + e + 53) with e by lia.
    assert (Hq : 0 <= Zpos (mantissa_09 * m) / 2 ^ 53 <= Zpos m - 1).
    { split; [apply Z.div_pos; lia|].
      assert (Zpos (mantissa_09 * m) / 2 ^ 53 < Zpos m); [|lia].
      apply Z.div_lt_upper_bound; [lia|]. rewrite HP. pow2_consts. lia. }
    assert (Hq' : 11 <= Zpos m -> Zpos (mantissa_09 * m) / 2 ^ 53 <= Zpos m - 2).
    { intros H11. assert (Zpos (mantissa_09 * m) / 2 ^ 53 < Zpos m - 1); [|lia].
      apply Z.div_lt_upper_bound; [lia|]. rewrite HP. pow2_consts. lia. }
    destruct (shr_fexp_spec m1 e loc_Exact ltac:(lia)) as [Hs0 _].
    rewrite Hs0; clear Hs0.
    + cbv beta iota. cbn [shr_record_of_loc shr_m].
      destruct m1 as [|p1|p1]; cbn [fkey]; pow2_consts; try lia.
      replace (e <=? emax - prec) with true
        by (symmetry; apply Z.leb_le; unfold emax, prec; lia).
      cbn [fkey]. pow2_consts. split; [lia|].
      intros [H11|Hnn]; [|specialize (Hnorm Hnn)]; specialize (Hq' ltac:(lia)); lia.
    + destruct m1 as [|p1|p1]; cbn [Zdigits2]; try lia.
      rewrite digits2_size.
      assert (Zpos (Pos.size p1) <= Zpos (Pos.size m)); [|lia].
      apply size_le_of_lt. pose proof (size_upper m). lia.
  - (* shifted by 52: the exponent drops by one, unless rounding carries *)
    replace (-53 + e + 52) with (e - 1) by lia.
    specialize (Hnorm Hne).
    assert (Hq : 2 ^ 52 <= Zpos (mantissa_09 * m) / 2 ^ 52 <= 2 ^ 53 - 1).
    { split.
      - apply Z.div_le_lower_bound; [lia|]. pow2_consts. lia.
      - assert (Zpos (mantissa_09 * m) / 2 ^ 52 < 2 ^ 53); [|lia].
        apply Z.div_lt_upper_bound; [lia|]. pow2_consts. lia. }
    destruct m1 as [|p1|p1]; try (pow2_consts; lia).
    destruct (shr_fexp_spec (Zpos p1) (e - 1) loc_Exact ltac:(lia)) as [Hs0 Hs1].
    cbn [Zdigits2] in *. rewrite digits2_size in *.
    pose proof (size_upper p1) as Hp1u. pose proof (size_lower p1) as Hp1l.
    assert (Hd1 : 53 <= Zpos (Pos.size p1) <= 54).
    { split.
      - apply (size_ge_of_le p1 52). lia.
      - apply size_le_of_lt. pow2_consts. lia. }
    destruct (Z.eq_dec (Zpos (Pos.size p1)) 53) as [E|E].
    + rewrite Hs0 by lia. cbv beta iota. cbn [shr_record_of_loc shr_m].
      replace (e - 1 <=? emax - prec) with true
        by (symmetry; apply Z.leb_le; unfold emax, prec; lia).
      cbn [fkey]. rewrite E in Hp1u. pow2_consts. lia.
    + assert (E4 : Zpos (Pos.size p1) = 54) by lia.
      destruct Hs1 as (mrs2 & Heq2 & Hq2); [lia|]. rewrite Heq2. cbv beta iota.
      replace (Z.max (54 + (e - 1) - 53) (-1074) - (e - 1)) with 1 in * by lia.
      rewrite E4 in *.
      replace (Z.max (54 + (e - 1) - 53) (-1074) - (e - 1)) with 1 in * by lia.
      assert (Hp1 : Zpos p1 = 2 ^ 53).
      { change (2 ^ 54) with (2 * 2 ^ 53) in Hp1l. pow2_consts. lia. }
      rewrite Hq2, Hp1. change (2 ^ 53 / 2 ^ 1) with (2 ^ 52).
      change (2 ^ 52) with (Zpos 4503599627370496). cbv beta iota.
      replace (e - 1 + 1 <=? emax - prec) with true
        by (symmetry; apply Z.leb_le; unfold emax, prec; lia).
      cbn [fkey]. replace (e - 1 + 1) with e by lia.
      assert (Hstrict : 4503599627370496 < Zpos m).
      { rewrite Hp1 in Hr. pow2_consts.
        assert (9007199254740991 <= Zpos (mantissa_09 * m) / 4503599627370496) by lia.
        assert (9007199254740991 * 4503599627370496 <= Zpos (mantissa_09 * m)).
        { etransitivity; [apply Z.mul_le_mono_nonneg_r; [lia | eassumption]|].
          rewrite Z.mul_comm. apply Z.mul_div_le. lia. }
        rewrite HP in *. lia. }
      pow2_consts. lia.
Qed.

(** Below the first eleven subnormals the bound of [mul09_key] is too
    coarse; these few cases are computed. *)
Lemma mul09_key_small (m : positive) :
  6 <= Zpos m <= 10 ->
  fkey (SFmul prec emax (S754_finite false mantissa_09 (-53)) (S754_finite false m (-1074)))
  < Zpos m.
Proof.
  intros Hm.
  assert (H : (m = 6 \/ m = 7 \/ m = 8 \/ m = 9 \/ m = 10)%positive) by lia.
  destruct H as [ -> | [ -> | [ -> | [ -> | -> ] ] ] ]; vm_compute; reflexivity.
Qed.

Lemma mul09_key_strict (m : positive) (e : Z) :
  bounded prec emax m e = true ->
  6 <= fkey (S754_finite false m e) ->
  fkey (SFmul prec emax (S754_finite false mantissa_09 (-53)) (S754_finite false m e))
  < fkey (S754_finite false m e).
Proof.
  intros Hb H6. destruct (mul09_key m e Hb) as [_ Hs].
  destruct (bounded_inv _ _ Hb) as (He & Hm & _).
  destruct (Z.eq_dec e (-1074)) as [->|Hne]; [|apply Hs; now right].
  cbn [fkey] in *. change ((-1074 + 1074) * 2 ^ 53) with 0 in *.
  destruct (Z_lt_le_dec (Zpos m) 11) as [Hlt|Hge].
  - pose proof (@mul09_key_small m ltac:(lia)). lia.
  - apply Hs. now left.
Qed.

(** On the valid numbers that are not below zero, the order of binary64 is
    the order of the keys. *)
Lemma SFcompare_fkey (x y : spec_float) :
  valid_binary x = true -> valid_binary y = true ->
  0 <= fkey x -> 0 <= fkey y ->
  SFcompare x y = Some (fkey x ?= fkey y).
Proof.
  destruct x as [sx|[|]| |[|] mx ex], y as [sy|[|]| |[|] my ey];
    cbn [fkey valid_binary SFcompare]; intros Hx Hy Hkx Hky; try lia;
    try reflexivity.
  - f_equal. symmetry. apply Z.compare_lt_iff.
    destruct (bounded_inv _ _ Hy) as (He & Hm & _).
    change (2 ^ 53) with 9007199254740992 in *. lia.
  - f_equal. symmetry. apply Z.compare_gt_iff.
    destruct (bounded_inv _ _ Hy) as (He & Hm & _).
    change (2 ^ 53) with 9007199254740992 in *.
    change (2 ^ 64) with 18446744073709551616. lia.
  - f_equal. symmetry. apply Z.compare_gt_iff.
    destruct (bounded_inv _ _ Hx) as (He & Hm & _).
    change (2 ^ 53) with 9007199254740992 in *. lia.
  - f_equal. symmetry. apply Z.compare_lt_iff.
    destruct (bounded_inv _ _ Hx) as (He & Hm & _).
    change (2 ^ 53) with 9007199254740992 in *.
    change (2 ^ 64) with 18446744073709551616. lia.
  - f_equal.
    destruct (bounded_inv _ _ Hx) as (Hex & Hmx & _).
    destruct (bounded_inv _ _ Hy) as (Hey & Hmy & _).
    change (2 ^ 53) with 9007199254740992 in *.
    change (Pos.compare_cont Eq mx my) with (Pos.compare mx my).
    destruct (Z.compare_spec ex ey) as [->|Hlt|Hgt].
    + destruct (Pos.compare_spec mx my) as [->|Hl|Hg]; symmetry.
      * apply Z.compare_refl.
      * apply Z.compare_lt_iff. lia.
      * apply Z.compare_gt_iff. lia.
    + symmetry. apply Z.compare_lt_iff. lia.
    + symmetry. apply Z.compare_gt_iff. lia.
Qed.

Lemma leb_tkey (t u : float) :
  0 <= tkey t -> 0 <= tkey u -> (t <=? u)%float = (tkey t <=? tkey u).
Proof.
  intros Ht Hu. rewrite leb_spec. unfold SFleb, tkey in *.
  rewrite SFcompare_fkey by (auto using Prim2SF_valid).
  unfold Z.leb. now destruct (fkey (Prim2SF t) ?= fkey (Prim2SF u)).
Qed.



Lemma fkey_add_zero (r : spec_float) :
  0 <= fkey r -> fkey (SF64add r (S754_zero false)) = fkey r.
Proof.
  destruct r as [[|]|[|]| |[|] m e]; cbn; intros H; try reflexivity; lia.
Qed.

Lemma decay_key (t : float) :
  0 <= tkey t ->
  0 <= tkey (0.9 * t + 0.1 * 0)%float <= tkey t
  /\ (6 <= tkey t < 2 ^ 64 -> tkey (0.9 * t + 0.1 * 0)%float < tkey t).
Proof.
  unfold tkey. rewrite add_spec, !mul_spec.
  change (Prim2SF 0.9) with (S754_finite false mantissa_09 (-53)).
  change (SF64mul (Prim2SF 0.1) (Prim2SF 0)) with (S754_zero false).
  pose proof (Prim2SF_valid t) as Hv.
  destruct (Prim2SF t) as [s|[|]| |[|] m e]; cbn [fkey]; intros Hk; try lia.
  - (* zero *)
    destruct s; cbn; lia.
  - (* infinity *)
    cbn. lia.
  - (* finite *)
    cbn [valid_binary] in Hv.
    destruct (mul09_key m e Hv) as [Hle _].
    pose proof (fun H => mul09_key_strict m e Hv H) as Hlt.
    unfold SF64mul. cbn [fkey] in *.
    rewrite fkey_add_zero by lia. split; [lia|]. intros [H6 _]. now apply Hlt.
Qed.


End Binary64.

(** The scores of [node] under repeated [update_trust(node, 0.0)]. *)
Lemma trust_of_iter_step (s : state) (node : addr) (n : nat) :
  trust_of (Nat.iter (S n) (fun s' => update_trust s' node 0%float) s) node
  = (0.9 * trust_of (Nat.iter n (fun s' => update_trust s' node 0%float) s) node
     + 0.1 * 0)%float.
Proof. simpl. apply trust_of_update_trust. Qed.

(** ** The handler keeps the global table ahead of the local ones *)

(** The flows of a table after lines 75-78 or lines 89-92: the old ones and
    the flow at hand. *)
Lemma has_flow_ensure (t : table) (src dst : addr) (e0 : qentry) (src' dst' : addr) :
  has_flow (dupd src (ensure_key dst e0) (ensure_key src [] t)) src' dst'
  = (keqb src' src && keqb dst' dst) || has_flow t src' dst'.
Proof.
  unfold has_flow.
  destruct (keqb_spec src' src) as [->|Hs]; simpl.
  - rewrite dget_or_dupd_ensure_same, dmem_ensure_key. reflexivity.
  - now rewrite dget_or_dupd_ensure_other.
Qed.

Lemma has_flow_store_q (t : table) (src dst : addr) (act : action) (v : float)
  (src' dst' : addr) :
  has_flow (store_q t src dst act v) src' dst' = has_flow t src' dst'.
Proof.
  unfold has_flow, store_q, dget_or. rewrite dget_dupd.
  destruct (keqb_spec src' src) as [->|Hs]; simpl; auto.
  destruct (dget src t) as [rw|]; simpl; auto. apply dmem_dupd.
Qed.

(** The entries of the global table after lines 75-78: the old ones and
    [{FLOOD: rnd}]. *)
Lemma init_flow_entries (g : table) (src dst : addr) (rnd : float)
  (src' dst' : addr) (e : qentry) :
  dget dst' (dget_or src' [] (init_flow g src dst rnd)) = Some e ->
  dget dst' (dget_or src' [] g) = Some e \/ e = [(OFPP_FLOOD, rnd)].
Proof.
  unfold init_flow.
  destruct (keqb_spec src' src) as [->|Hs].
  - rewrite dget_or_dupd_ensure_same, dget_ensure_key.
    destruct (keqb_spec dst' dst) as [->|Hd]; auto.
    unfold dget_or at 1.
    destruct (dget dst (dget_or src [] g)) as [e'|] eqn:E; intros [= <-]; auto.
  - rewrite dget_or_dupd_ensure_other by assumption. auto.
Qed.

(** The state [federated_decision] leaves behind, returned or raised. *)
Lemma federated_decision_state (s : state) (src dst : addr) (rnd : float) :
  state_of (federated_decision s src dst rnd)
  = with_store s (write (global_q_values s)
                    (init_flow (global_table s) src dst rnd) (store s)).
Proof. unfold federated_decision. now destruct (py_max_key _). Qed.

Lemma federated_decision_local (s : state) (src dst : addr) (rnd : float) (dp : dpid) :
  wf s ->
  local_table (state_of (federated_decision s src dst rnd)) dp = local_table s dp.
Proof.
  intros Hwf. rewrite federated_decision_state. unfold local_table. simpl.
  destruct (dget dp (q_values s)) as [r|] eqn:E; auto.
  apply deref_write_other. now apply (wf_local_not_global dp Hwf).
Qed.

(** The table of the datapath after an update, returned or raised. *)
Lemma update_local_q_table_local (s : state) (dp : dpid) (src dst : addr)
  (act : action) (reward : float) :
  wf s ->
  let t := ensure_flow (local_table s dp) src dst in
  local_table (state_of (update_local_q_table s dp src dst act reward)) dp = t
  \/ exists v,
       local_table (state_of (update_local_q_table s dp src dst act reward)) dp
       = store_q t src dst act v.
Proof.
  intros Hwf. unfold update_local_q_table.
  destruct (ensure_datapath s dp) as [r s1] eqn:E.
  destruct (ensure_datapath_spec _ Hwf E)
    as (Hq & Hr & _ & Ht & _ & _ & _ & _ & _).
  rewrite Ht.
  destruct (py_max_default _) as [[next_max|e]|]; simpl;
    unfold local_table; simpl; rewrite Hq, ?write_write, deref_write_same by assumption;
    eauto.
Qed.

(** The entry of a flow in the global table after one datapath's table has
    been merged into it. *)
Lemma entry_fold_merge_src (lt g : table) (src dst : addr) :
  table_ok lt ->
  dget dst (dget_or src [] (fold_left merge_src lt g))
  = match dget dst (dget_or src [] lt) with
    | Some e => Some (fold_left merge_action e (dget_or dst [] (dget_or src [] g)))
    | None => dget dst (dget_or src [] g)
    end.
Proof.
  intros [Hk Hv]. unfold dget_or at 1.
  rewrite (@dget_fold_nested _ _ _ _ [] (fold_left merge_dst) merge_src)
    by (auto; intros g0 k x; reflexivity).
  assert (Hrow : dget_or src [] lt
                 = match dget src lt with Some rw => rw | None => [] end)
    by reflexivity.
  rewrite Hrow. clear Hrow.
  destruct (dget src lt) as [lrow|] eqn:E; [|reflexivity].
  apply (@dget_fold_nested _ _ _ _ [] (fold_left merge_action) merge_dst).
  - intros g0 k x; reflexivity.
  - apply dget_In in E. rewrite Forall_forall in Hv. apply (Hv _ E).
Qed.

Lemma fold_merge_action_nonempty (e g : qentry) :
  g <> [] -> fold_left merge_action e g <> [].
Proof.
  revert g. induction e as [|[a q] e IH]; intros g Hg; simpl; auto.
  apply IH. destruct (dget a g); apply dset_nonempty.
Qed.

Lemma has_flow_dget (t : table) (src dst : addr) :
  has_flow t src dst = true <-> exists e, dget dst (dget_or src [] t) = Some e.
Proof.
  unfold has_flow, dmem. destruct (dget dst (dget_or src [] t)) as [e|].
  - split; eauto.
  - split; [discriminate | intros [e He]; discriminate].
Qed.

Lemma merge_keeps_entries (lt g : table) :
  table_ok lt -> entries_ok g ->
  (forall src dst, has_flow lt src dst = true -> has_flow g src dst = true) ->
  entries_ok (fold_left merge_src lt g)
  /\ (forall src dst, has_flow g src dst = true ->
                      has_flow (fold_left merge_src lt g) src dst = true).
Proof.
  intros Hok Hent Hsub. split.
  - intros src dst. rewrite entry_fold_merge_src by assumption.
    destruct (dget dst (dget_or src [] lt)) as [e|] eqn:E; [|apply Hent].
    assert (Hg : has_flow g src dst = true) by (apply Hsub, has_flow_dget; eauto).
    apply has_flow_dget in Hg. destruct Hg as [eg Heg].
    unfold dget_or at 1. rewrite Heg. intros [= Hnil].
    apply (@fold_merge_action_nonempty e eg); auto.
    intros ->. now apply (Hent src dst).
  - intros src dst Hg. apply has_flow_dget.
    rewrite entry_fold_merge_src by assumption.
    destruct (dget dst (dget_or src [] lt)); eauto. now apply has_flow_dget.
Qed.

Lemma aggregate_fold_decided (g : ref) (l : dict dpid ref) (st : list table) :
  (g < List.length st)%nat -> ~ In g (dvalues l) -> Forall table_ok st ->
  entries_ok (deref st g) ->
  (forall r src dst, In r (dvalues l) -> has_flow (deref st r) src dst = true ->
                     has_flow (deref st g) src dst = true) ->
  entries_ok (deref (fold_left (aggregate_dp g) l st) g)
  /\ (forall src dst, has_flow (deref st g) src dst = true ->
        has_flow (deref (fold_left (aggregate_dp g) l st) g) src dst = true).
Proof.
  revert st. induction l as [|[dp r] l IH]; intros st Hlen Hg Hok Hent Hsub; [auto|].
  cbn [fold_left]. unfold dvalues in Hg. simpl in Hg.
  destruct (@merge_keeps_entries (deref st r) (deref st g)) as [Hent' Hsub'];
    auto using table_ok_deref.
  { intros src dst. apply Hsub. unfold dvalues. simpl. now left. }
  assert (Hd : deref (aggregate_dp g st (dp, r)) g
               = fold_left merge_src (deref st r) (deref st g)).
  { unfold aggregate_dp. simpl. now apply deref_write_same. }
  destruct (IH (aggregate_dp g st (dp, r))) as [H1 H2].
  - unfold aggregate_dp. now rewrite length_write.
  - unfold dvalues. tauto.
  - unfold aggregate_dp. apply Forall_write; auto.
    now apply table_ok_fold_merge_src, table_ok_deref.
  - now rewrite Hd.
  - intros r' src dst Hin Hf. rewrite Hd. apply Hsub'.
    unfold aggregate_dp in Hf. rewrite deref_write_other in Hf.
    + apply (Hsub r'); auto. unfold dvalues. simpl. now right.
    + intros ->. unfold dvalues in *. tauto.
  - split; auto. intros src dst Hf. apply H2. rewrite Hd. now apply Hsub'.
Qed.

Lemma decided_init : decided init.
Proof.
  split; [apply wf_init | |].
  - intros src dst. vm_compute. discriminate.
  - intros dp src dst. vm_compute. discriminate.
Qed.

Lemma decided_federated_decision (s : state) (src dst : addr) (rnd : float) :
  decided s ->
  decided (state_of (federated_decision s src dst rnd))
  /\ has_flow (global_table (state_of (federated_decision s src dst rnd))) src dst = true.
Proof.
  intros [Hwf Hent Hsub].
  assert (Hflow : forall src' dst',
             has_flow (global_table (state_of (federated_decision s src dst rnd))) src' dst'
             = (keqb src' src && keqb dst' dst) || has_flow (global_table s) src' dst').
  { intros src' dst'. rewrite federated_decision_global by assumption.
    apply has_flow_ensure. }
  split; [split|].
  - now apply wf_federated_decision.
  - intros src' dst' He. rewrite federated_decision_global in He by assumption.
    apply init_flow_entries in He. destruct He as [He|He]; [|discriminate].
    now apply (Hent src' dst').
  - intros dp src' dst'. rewrite federated_decision_local, Hflow by assumption.
    intros Hl. rewrite (Hsub _ _ _ Hl). apply orb_true_r.
  - rewrite Hflow, !keqb_refl. reflexivity.
Qed.

Lemma decided_update_local_q_table (s : state) (dp : dpid) (src dst : addr)
  (act : action) (reward : float) :
  decided s -> has_flow (global_table s) src dst = true ->
  decided (state_of (update_local_q_table s dp src dst act reward)).
Proof.
  intros [Hwf Hent Hsub] Hflow.
  destruct (update_local_q_table_frame dp src dst act reward Hwf) as [Hg Hl].
  split.
  - now apply wf_update_local_q_table.
  - rewrite Hg. exact Hent.
  - intros dp' src' dst'. rewrite Hg.
    destruct (Z.eq_dec dp' dp) as [->|Hne]; [|rewrite (Hl _ Hne); apply Hsub].
    assert (Ht : has_flow (ensure_flow (local_table s dp) src dst) src' dst' = true ->
                 has_flow (global_table s) src' dst' = true).
    { unfold ensure_flow. rewrite has_flow_ensure.
      destruct (keqb_spec src' src) as [->|Hs]; cbn [andb orb]; [|apply Hsub].
      destruct (keqb_spec dst' dst) as [->|Hd]; cbn [andb orb]; [auto | apply Hsub]. }
    destruct (update_local_q_table_local dp src dst act reward Hwf) as [->|[v ->]];
      rewrite ?has_flow_store_q; exact Ht.
Qed.

Lemma decided_update_trust (s : state) (node : addr) (rate : float) :
  decided s -> decided (update_trust s node rate).
Proof.
  intros [Hwf Hent Hsub]. split; auto using wf_update_trust.
Qed.

Lemma decided_aggregate_global_q_values (s : state) :
  decided s -> decided (aggregate_global_q_values s).
Proof.
  intros [Hwf Hent Hsub].
  assert (Hloc : forall dp, local_table (aggregate_global_q_values s) dp = local_table s dp).
  { intros dp. unfold local_table, aggregate_global_q_values. simpl.
    destruct (dget dp (q_values s)) as [r|] eqn:E; auto.
    apply deref_aggregate_fold_other. now apply (wf_local_not_global dp Hwf). }
  destruct (@aggregate_fold_decided (global_q_values s) (q_values s) (store s))
    as [H1 H2].
  - apply (wf_global Hwf).
  - now apply wf_global_not_local.
  - apply (wf_tables Hwf).
  - exact Hent.
  - intros r src dst Hin. unfold dvalues in Hin. apply in_map_iff in Hin.
    destruct Hin as [[dp r'] [Hr Hin]]. simpl in Hr. subst r'.
    apply In_dget in Hin; [|apply (wf_datapaths Hwf)].
    specialize (Hsub dp src dst). unfold local_table in Hsub. now rewrite Hin in Hsub.
  - split.
    + now apply wf_aggregate_global_q_values.
    + exact H1.
    + intros dp src dst. rewrite Hloc. intros Hf. apply H2. now apply (Hsub dp).
Qed.

Lemma decided_redistribute_global_model (s : state) :
  decided s -> decided (redistribute_global_model s).
Proof.
  intros [Hwf Hent Hsub]. unfold redistribute_global_model. split.
  - now apply wf_redistribute_fold.
  - rewrite redistribute_fold_global by assumption. exact Hent.
  - intros dp src dst. rewrite redistribute_fold_global by assumption.
    destruct (in_dec Z.eq_dec dp (dkeys (q_values s))) as [Hin|Hnotin].
    + now rewrite redistribute_fold_local by assumption.
    + rewrite redistribute_fold_local_other by assumption. apply Hsub.
Qed.

Lemma decided_packet_in_handler (s : state) (dp : dpid) (src dst : addr)
  (rnd : float) (aggregate : bool) :
  decided s -> decided (state_of (packet_in_handler s dp src dst rnd aggregate)).
Proof.
  intros Hs. unfold packet_in_handler.
  destruct (decided_federated_decision src dst rnd Hs) as [H1 Hflow].
  destruct (federated_decision s src dst rnd) as [act s1|e s1]; simpl in *; auto.
  pose proof (decided_update_local_q_table dp src dst act 1%float H1 Hflow) as H2.
  destruct (update_local_q_table s1 dp src dst act 1%float) as [[] s2|e s2];
    simpl in *; auto.
  apply (decided_update_trust src 0.9%float) in H2.
  destruct aggregate; auto.
  now apply decided_redistribute_global_model, decided_aggregate_global_q_values.
Qed.

Lemma decided_served (s : state) : served s -> decided s.
Proof.
  induction 1; auto using decided_init, decided_packet_in_handler.
Qed.

(** ** The order of binary64 numbers *)

Lemma SFcompare_Lt_trans (x y z : spec_float) :
  SFcompare x y = Some Lt -> SFcompare y z = Some Lt -> SFcompare x z = Some Lt.
Proof.
  destruct x as [sx|sx| |sx mx ex], y as [sy|sy| |sy my ey], z as [sz|sz| |sz mz ez];
    simpl; try discriminate;
    try destruct sx; try destruct sy; try destruct sz; simpl; try congruence;
    change (Pos.compare_cont Eq mx my) with (Pos.compare mx my);
    change (Pos.compare_cont Eq my mz) with (Pos.compare my mz);
    change (Pos.compare_cont Eq mx mz) with (Pos.compare mx mz);
    destruct (Z.compare_spec ex ey), (Z.compare_spec ey ez), (Z.compare_spec ex ez);
    try congruence; try lia;
    destruct (Pos.compare_spec mx my), (Pos.compare_spec my mz), (Pos.compare_spec mx mz);
    simpl; try congruence; lia.
Qed.

(** [y <= x] and [x < z] give [y < z]. *)
Lemma SFcompare_Ge_Lt_trans (x y z : spec_float) :
  SFcompare x y = Some Eq \/ SFcompare x y = Some Gt ->
  SFcompare x z = Some Lt -> SFcompare y z = Some Lt.
Proof.
  destruct x as [sx|sx| |sx mx ex], y as [sy|sy| |sy my ey], z as [sz|sz| |sz mz ez];
    simpl; intros [H|H]; try discriminate;
    try destruct sx; try destruct sy; try destruct sz; simpl in *; try congruence;
    revert H;
    change (Pos.compare_cont Eq mx my) with (Pos.compare mx my);
    change (Pos.compare_cont Eq my mz) with (Pos.compare my mz);
    change (Pos.compare_cont Eq mx mz) with (Pos.compare mx mz);
    destruct (Z.compare_spec ex ey), (Z.compare_spec ey ez), (Z.compare_spec ex ez);
    try congruence; try lia;
    destruct (Pos.compare_spec mx my), (Pos.compare_spec my mz), (Pos.compare_spec mx mz);
    simpl; try congruence; lia.
Qed.

Lemma ltb_trans (x y z : float) :
  (x <? y)%float = true -> (y <? z)%float = true -> (x <? z)%float = true.
Proof.
  rewrite !ltb_spec. unfold SFltb.
  destruct (SFcompare (Prim2SF x) (Prim2SF y)) as [[| |]|] eqn:E1; try discriminate.
  destruct (SFcompare (Prim2SF y) (Prim2SF z)) as [[| |]|] eqn:E2; try discriminate.
  now rewrite (SFcompare_Lt_trans _ _ _ E1 E2).
Qed.

Lemma ltb_asym (x y : float) :
  (x <? y)%float = true -> (y <? x)%float = false.
Proof.
  rewrite !ltb_spec. unfold SFltb.
  destruct (SFcompare (Prim2SF x) (Prim2SF y)) as [[| |]|] eqn:E1; try discriminate.
  now rewrite (SFcompare_Lt_Gt _ _ E1).
Qed.

Lemma SFcompare_None (x y : spec_float) :
  SFcompare x y = None -> x = S754_nan \/ y = S754_nan.
Proof.
  destruct x as [sx|sx| |sx mx ex], y as [sy|sy| |sy my ey]; simpl; auto; discriminate.
Qed.

Lemma eqb_refl_not_nan (x : float) :
  (x =? x)%float = true -> Prim2SF x <> S754_nan.
Proof.
  rewrite eqb_spec. unfold SFeqb. intros H E. rewrite E in H. discriminate.
Qed.

(** Among numbers, [y <= x] (that is, not [x < y]) and [x < z] give [y < z]. *)
Lemma ltb_neg_trans (x y z : float) :
  (y =? y)%float = true ->
  (x <? y)%float = false -> (x <? z)%float = true -> (y <? z)%float = true.
Proof.
  intros Hy. apply eqb_refl_not_nan in Hy.
  rewrite !ltb_spec. unfold SFltb.
  destruct (SFcompare (Prim2SF x) (Prim2SF z)) as [[| |]|] eqn:E2; try discriminate.
  destruct (SFcompare (Prim2SF x) (Prim2SF y)) as [[| |]|] eqn:E1; try discriminate.
  - intros _ _. rewrite (@SFcompare_Ge_Lt_trans _ _ _ (or_introl E1) E2). reflexivity.
  - intros _ _. rewrite (@SFcompare_Ge_Lt_trans _ _ _ (or_intror E1) E2). reflexivity.
  - intros _ _. apply SFcompare_None in E1. destruct E1 as [E1|E1]; [|contradiction].
    rewrite E1 in E2. discriminate.
Qed.

(** ** The maximum of line 81 *)

Lemma max_by_value_split (rest : qentry) (best : action) (bv : float) :
  exists pre v post,
    (best, bv) :: rest = pre ++ (max_by_value best bv rest, v) :: post
    /\ (v = bv \/ (bv <? v)%float = true)
    /\ Forall (fun av : action * float => (v <? snd av)%float = false) (pre ++ post)
    /\ (Forall (fun av : action * float => (snd av =? snd av)%float = true) rest ->
        Forall (fun av : action * float => (snd av <? v)%float = true) pre).
Proof.
  revert best bv. induction rest as [|[a1 v1] rest IH]; intros best bv.
  - exists [], bv, []. simpl. repeat split; auto; constructor.
  - cbn [max_by_value]. destruct (bv <? v1)%float eqn:E.
    + destruct (IH a1 v1) as (pre & v & post & Hl & Hv & Hmax & Hfirst).
      assert (Hbv : (bv <? v)%float = true).
      { destruct Hv as [->|Hv]; [exact E | exact (ltb_trans E Hv)]. }
      exists ((best, bv) :: pre), v, post. repeat split.
      * simpl. now rewrite Hl.
      * now right.
      * simpl. constructor; [now apply ltb_asym | exact Hmax].
      * intros Hnum. inversion Hnum; subst. constructor; auto.
    + destruct (IH best bv) as (pre & v & post & Hl & Hv & Hmax & Hfirst).
      destruct pre as [|p pre].
      * simpl in Hl. injection Hl as Hbest Hbv Hrest. subst post.
        exists [], v, ((a1, v1) :: rest). repeat split.
        -- simpl. now rewrite <- Hbest, <- Hbv.
        -- auto.
        -- simpl. constructor; [simpl; now rewrite <- Hbv | exact Hmax].
        -- constructor.
      * simpl in Hl. injection Hl as Hp Hrest. subst p.
        exists ((best, bv) :: (a1, v1) :: pre), v, post. repeat split.
        -- simpl. do 2 f_equal. exact Hrest.
        -- exact Hv.
        -- simpl in *. inversion Hmax; subst. constructor; auto. constructor; auto.
           simpl. destruct (v <? v1)%float eqn:E1; auto.
           destruct Hv as [->|Hv]; [congruence|].
           rewrite (ltb_trans Hv E1) in E. discriminate.
        -- intros Hnum. inversion Hnum as [|? ? Hn1 Hnrest]; subst.
           specialize (Hfirst Hnrest). inversion Hfirst as [|? ? Hb Hpre]; subst.
           constructor; auto. constructor; auto.
           simpl in *. exact (ltb_neg_trans Hn1 E Hb).
Qed.

(** ** Stores that leave a dictionary as it is *)

Section DictIdentities.
Context {K V : Type} `{Key K}.

Lemma dset_same (k : K) (v : V) (d : dict K V) : dget k d = Some v -> dset k v d = d.
Proof.
  induction d as [|[k0 v0] d IH]; simpl; [discriminate|].
  destruct (keqb_spec k k0) as [->|Hne].
  - now intros [= ->].
  - intros E. now rewrite IH.
Qed.

Lemma ensure_key_mem (k : K) (dflt : V) (d : dict K V) :
  dmem k d = true -> ensure_key k dflt d = d.
Proof. unfold ensure_key. now intros ->. Qed.

Lemma dict_all_dget_or (P : V -> Prop) (k : K) (dflt : V) (d : dict K V) :
  dict_all P d -> P dflt -> P (dget_or k dflt d).
Proof.
  intros [_ Hall] Hd. unfold dget_or. destruct (dget k d) as [v|] eqn:E; auto.
  apply dget_In in E. rewrite Forall_forall in Hall. apply (Hall _ E).
Qed.

End DictIdentities.

Lemma table_ok_entry (t : table) (src dst : addr) :
  table_ok t -> dict_ok (dget_or dst [] (dget_or src [] t)).
Proof.
  intros Ht.
  apply (@dict_all_dget_or _ _ _ (fun e : qentry => dict_ok e)); [|constructor].
  apply (@dict_all_dget_or _ _ _ row_ok); [exact Ht | apply dict_all_nil].
Qed.

Lemma write_deref (r : ref) (st : list table) : write r (deref st r) st = st.
Proof.
  unfold deref. revert r. induction st as [|t st IH]; intros [|r]; simpl; auto.
  now rewrite IH.
Qed.

Lemma with_store_same (s : state) : with_store s (store s) = s.
Proof. now destruct s. Qed.

Lemma init_flow_known (g : table) (src dst : addr) (rnd : float) :
  has_flow g src dst = true -> init_flow g src dst rnd = g.
Proof.
  unfold has_flow, init_flow, dget_or. intros Hf.
  destruct (dget src g) as [rw|] eqn:E; [|discriminate].
  rewrite ensure_key_mem by (unfold dmem; now rewrite E).
  unfold dupd. rewrite E, ensure_key_mem by assumption.
  now apply dset_same.
Qed.

Lemma federated_decision_frame (s : state) (src dst : addr) (rnd : float) :
  q_values (state_of (federated_decision s src dst rnd)) = q_values s
  /\ global_q_values (state_of (federated_decision s src dst rnd)) = global_q_values s
  /\ trust_values (state_of (federated_decision s src dst rnd)) = trust_values s.
Proof. rewrite federated_decision_state. auto. Qed.

(** ** The update, key by key *)

Lemma lookup3_ensure_flow (t : table) (src dst src' dst' : addr) (a : action) :
  lookup3 (ensure_flow t src dst) src' dst' a = lookup3 t src' dst' a.
Proof.
  unfold lookup3, ensure_flow.
  destruct (string_dec src' src) as [->|Hs].
  - rewrite dget_or_dupd_ensure_same.
    destruct (string_dec dst' dst) as [->|Hd].
    + now rewrite dget_or_ensure_key.
    + unfold dget_or at 1 3. now rewrite dget_ensure_key, (keqb_neq Hd).
  - now rewrite dget_or_dupd_ensure_other.
Qed.

Lemma lookup3_store_q_other (t : table) (src dst : addr) (act : action) (v : float)
  (src' dst' : addr) (a : action) :
  (src', dst', a) <> (src, dst, act) ->
  lookup3 (store_q t src dst act v) src' dst' a = lookup3 t src' dst' a.
Proof.
  intros Hne. unfold lookup3, store_q. unfold dget_or at 2 4. rewrite dget_dupd.
  destruct (keqb_spec src' src) as [->|Hs]; [|reflexivity].
  destruct (dget src t) as [rw|]; [|reflexivity]. cbn [option_map].
  unfold dget_or. rewrite dget_dupd.
  destruct (keqb_spec dst' dst) as [->|Hd]; [|reflexivity].
  destruct (dget dst rw) as [e|]; [|reflexivity]. cbn [option_map].
  apply dget_dset_other. congruence.
Qed.

Lemma update_local_q_table_trust (s : state) (dp : dpid) (src dst : addr)
  (act : action) (reward : float) :
  trust_values (state_of (update_local_q_table s dp src dst act reward)) = trust_values s.
Proof.
  destruct (update_local_q_table_state s dp src dst act reward) as [t' ->]. simpl.
  unfold ensure_datapath. now destruct (dget dp (q_values s)).
Qed.

(** The two ways an update can go: line 95 finds no next state and the new
    value is stored, or it finds one and line 96 raises with the flow's
    entry made and nothing stored. *)
Lemma update_local_q_table_cases (s : state) (dp : dpid) (src dst : addr)
  (act : action) (reward : float) :
  wf s ->
  let t := ensure_flow (local_table s dp) src dst in
  (dst <> src /\ dget_or dst [] (local_table s dp) = []
   /\ exists s',
        update_local_q_table s dp src dst act reward = Return tt s'
        /\ dmem dp (q_values s') = true
        /\ local_table s' dp
           = store_q t src dst act
               (q_update (dget_or act 0%float (dget_or dst [] (dget_or src [] t)))
                  reward 0%float))
  \/ ((dst = src \/ dvalues (dget_or dst [] (local_table s dp)) <> [])
      /\ exists s',
           update_local_q_table s dp src dst act reward = Raise TypeError s'
           /\ dmem dp (q_values s') = true
           /\ local_table s' dp = t).
Proof.
  intros Hwf t. unfold update_local_q_table.
  destruct (ensure_datapath s dp) as [r s1] eqn:E.
  destruct (ensure_datapath_spec _ Hwf E)
    as (Hq & Hr & _ & Ht & _ & _ & _ & _ & _).
  rewrite Ht. fold t.
  assert (Hloc : forall t' : table,
             dmem dp (q_values (with_store s1 (write r t' (store s1)))) = true
             /\ local_table (with_store s1 (write r t' (store s1))) dp = t').
  { intros t'. unfold local_table, dmem. simpl. rewrite Hq.
    split; [reflexivity | now apply deref_write_same]. }
  assert (Hrow : dst <> src -> dget_or dst [] t = dget_or dst [] (local_table s dp)).
  { intros Hne. unfold t. now apply ensure_flow_other_row. }
  destruct (dvalues (dget_or dst [] t)) as [|e [|e' es]] eqn:Ev; cbn [py_max_default].
  - left. assert (Hne : dst <> src).
    { intros ->. revert Ev. apply ensure_flow_row_nonempty. }
    split; [exact Hne | split].
    + rewrite <- (Hrow Hne). unfold dvalues in Ev. now apply map_eq_nil in Ev.
    + eexists. split; [reflexivity|]. simpl. rewrite write_write. apply Hloc.
  - right. split.
    + destruct (string_dec dst src) as [->|Hne]; [now left | right].
      rewrite <- (Hrow Hne), Ev. discriminate.
    + eexists. split; [reflexivity | apply Hloc].
  - right. split.
    + destruct (string_dec dst src) as [->|Hne]; [now left | right].
      rewrite <- (Hrow Hne), Ev. discriminate.
    + eexists. split; [reflexivity | apply Hloc].
Qed.

(** ** Keys of the aggregated table *)

Lemma fold_merge1_Some (l : list float) (x : float) :
  fold_left merge1 l (Some x) <> None.
Proof.
  revert x. induction l as [|v l IH]; intros x; simpl; [discriminate | apply IH].
Qed.

Lemma fold_merge1_None (l : list float) (g : option float) :
  fold_left merge1 l g = None <-> l = [] /\ g = None.
Proof.
  split.
  - destruct l as [|v l]; simpl; [auto|].
    intros F. now apply fold_merge1_Some in F.
  - now intros [-> ->].
Qed.

Lemma reported_nil (st : list table) (src dst : addr) (a : action) (l : dict dpid ref) :
  reported st src dst a l = []
  <-> forall dp r, In (dp, r) l -> lookup3 (deref st r) src dst a = None.
Proof.
  unfold reported. induction l as [|[dp0 r0] l IH]; simpl.
  - split; [intros _ dp r [] | reflexivity].
  - destruct (lookup3 (deref st r0) src dst a) as [v|] eqn:E; simpl.
    + split; [discriminate|]. intros F. specialize (F dp0 r0 (or_introl eq_refl)).
      congruence.
    + rewrite IH. split.
      * intros F dp r [[= <- <-]|Hin]; eauto.
      * intros F dp r Hin. eauto.
Qed.

(** No datapath reports a value for a key exactly when no local table holds
    one. *)
Lemma local_values_nil (s : state) (src dst : addr) (a : action) :
  wf s ->
  local_values s src dst a = []
  <-> forall dp, lookup3 (local_table s dp) src dst a = None.
Proof.
  intros Hwf. unfold local_values. rewrite reported_nil. unfold local_table. split.
  - intros F dp. destruct (dget dp (q_values s)) as [r|] eqn:E; [|reflexivity].
    apply (F dp r). now apply dget_In.
  - intros F dp r Hin. specialize (F dp).
    apply In_dget in Hin; [|apply (wf_datapaths Hwf)]. now rewrite Hin in F.
Qed.

(** ** What redistribution leaves behind *)

Lemma redistribute_fold_trust (dps : list dpid) (s : state) :
  trust_values (fold_left redistribute_dp dps s) = trust_values s.
Proof.
  revert s. induction dps as [|dp dps IH]; intros s; simpl; auto.
  now rewrite IH.
Qed.

Lemma local_table_unknown (s : state) (dp : dpid) :
  dmem dp (q_values s) = false -> local_table s dp = [].
Proof.
  unfold dmem, local_table. now destruct (dget dp (q_values s)).
Qed.

(** What [redistribute_global_model] leaves behind. *)
Lemma redistribute_global_model_spec (s : state) :
  wf s ->
  dkeys (q_values (redistribute_global_model s)) = dkeys (q_values s)
  /\ (forall dp, dmem dp (q_values s) = true ->
        local_table (redistribute_global_model s) dp = global_table s)
  /\ (forall dp, dmem dp (q_values s) = false ->
        local_table (redistribute_global_model s) dp = [])
  /\ global_table (redistribute_global_model s) = global_table s
  /\ trust_values (redistribute_global_model s) = trust_values s.
Proof.
  intros Hwf. unfold redistribute_global_model. split; [|split; [|split; [|split]]].
  - apply redistribute_fold_keys, incl_refl.
  - intros dp Hmem. apply redistribute_fold_local; auto. now apply dmem_In.
  - intros dp Hmem. rewrite redistribute_fold_local_other; auto.
    + now apply local_table_unknown.
    + now apply dmem_false_notin.
  - now apply redistribute_fold_global.
  - apply redistribute_fold_trust.
Qed.

(** ** Only the flood action is ever learned *)

Lemma flood_only_nil : flood_only [].
Proof. intros src dst a H. now elim H. Qed.

Lemma flood_only_deref (st : list table) (r : ref) :
  Forall flood_only st -> flood_only (deref st r).
Proof.
  intros Hst. unfold deref. destruct (nth_in_or_default r st []) as [Hin | ->].
  - rewrite Forall_forall in Hst. auto.
  - apply flood_only_nil.
Qed.

Lemma flood_only_init_flow (g : table) (src dst : addr) (rnd : float) :
  flood_only g -> flood_only (init_flow g src dst rnd).
Proof.
  intros Hg src' dst' a Ha.
  destruct (lookup3 (init_flow g src dst rnd) src' dst' a) as [v|] eqn:E; [|now elim Ha].
  apply lookup3_init_flow in E. destruct E as [E|(_ & _ & E & _)]; [|exact E].
  apply (Hg src' dst'). congruence.
Qed.

Lemma flood_only_ensure_flow (t : table) (src dst : addr) :
  flood_only t -> flood_only (ensure_flow t src dst).
Proof.
  intros Ht src' dst' a. rewrite lookup3_ensure_flow. apply Ht.
Qed.

Lemma flood_only_store_q (t : table) (src dst : addr) (v : float) :
  flood_only t -> flood_only (store_q t src dst OFPP_FLOOD v).
Proof.
  intros Ht src' dst' a.
  destruct (Z.eq_dec a OFPP_FLOOD) as [->|Ha]; [reflexivity|].
  rewrite lookup3_store_q_other by congruence. apply Ht.
Qed.

Lemma flood_only_fold_merge_src (lt g : table) :
  table_ok lt -> flood_only lt -> flood_only g -> flood_only (fold_left merge_src lt g).
Proof.
  intros Hok Hl Hg src dst a. rewrite lookup3_fold_merge_src by assumption.
  destruct (lookup3 lt src dst a) eqn:E; [|apply Hg].
  intros _. apply (Hl src dst). congruence.
Qed.

Lemma flood_only_aggregate_fold (g : ref) (l : dict dpid ref) (st : list table) :
  Forall table_ok st -> Forall flood_only st ->
  Forall flood_only (fold_left (aggregate_dp g) l st).
Proof.
  revert st. induction l as [|dr l IH]; intros st Hok Hst; simpl; auto.
  apply IH; unfold aggregate_dp; apply Forall_write; auto.
  - now apply table_ok_fold_merge_src, table_ok_deref.
  - apply flood_only_fold_merge_src; auto using table_ok_deref, flood_only_deref.
Qed.

Lemma flood_only_redistribute_fold (dps : list dpid) (s : state) :
  Forall flood_only (store s) ->
  Forall flood_only (store (fold_left redistribute_dp dps s)).
Proof.
  revert s. induction dps as [|dp dps IH]; intros s Hs; simpl; auto.
  apply IH. unfold redistribute_dp. simpl. apply Forall_app. split; auto.
  constructor; [now apply flood_only_deref | constructor].
Qed.

Lemma flood_only_update_local_q_table (s : state) (dp : dpid) (src dst : addr)
  (reward : float) :
  Forall flood_only (store s) ->
  Forall flood_only
    (store (state_of (update_local_q_table s dp src dst OFPP_FLOOD reward))).
Proof.
  intros Hs. unfold update_local_q_table.
  assert (Hs1 : Forall flood_only (store (snd (ensure_datapath s dp)))).
  { unfold ensure_datapath. destruct (dget dp (q_values s)); simpl; auto.
    apply Forall_app. split; auto. constructor; [apply flood_only_nil | constructor]. }
  destruct (ensure_datapath s dp) as [r s1]. simpl in Hs1.
  assert (Ht : flood_only (ensure_flow (deref (store s1) r) src dst))
    by now apply flood_only_ensure_flow, flood_only_deref.
  destruct (py_max_default _) as [[next_max|e]|]; simpl;
    repeat apply Forall_write; auto.
  now apply flood_only_store_q.
Qed.

(** The key [max] returns is a key of the dictionary. *)
Lemma py_max_key_In (e : qentry) (a : action) :
  py_max_key e = Some a -> exists v, In (a, v) e.
Proof.
  destruct e as [|[a0 v0] rest]; [discriminate|]. cbn [py_max_key]. intros [= <-].
  destruct (max_by_value_split rest a0 v0) as (pre & v & post & Hl & _).
  exists v. rewrite Hl. apply in_elt.
Qed.

Lemma federated_decision_flood (s : state) (src dst : addr) (rnd : float)
  (a : action) (s' : state) :
  wf s -> flood_only (global_table s) ->
  federated_decision s src dst rnd = Return a s' -> a = OFPP_FLOOD.
Proof.
  intros Hwf Hflood. unfold federated_decision.
  destruct (py_max_key _) as [best|] eqn:E; [|discriminate].
  intros [= <- _]. destruct (0.5 <=? trust_of s src)%float; [|reflexivity].
  apply py_max_key_In in E. destruct E as [v Hin].
  apply In_dget in Hin.
  - apply (@flood_only_init_flow (global_table s) src dst rnd Hflood src dst).
    unfold lookup3. congruence.
  - apply table_ok_entry, table_ok_init_flow. unfold global_table.
    apply table_ok_deref, (wf_tables Hwf).
Qed.

Lemma flood_only_packet_in_handler (s : state) (dp : dpid) (src dst : addr)
  (rnd : float) (aggregate : bool) :
  wf s -> Forall flood_only (store s) ->
  Forall flood_only (store (state_of (packet_in_handler s dp src dst rnd aggregate))).
Proof.
  intros Hwf Hs. unfold packet_in_handler.
  pose proof (wf_federated_decision src dst rnd Hwf) as Hwf1.
  pose proof (federated_decision_state s src dst rnd) as Hst.
  assert (Hs1 : Forall flood_only (store (state_of (federated_decision s src dst rnd)))).
  { rewrite Hst. simpl. apply Forall_write; auto.
    apply flood_only_init_flow. unfold global_table. now apply flood_only_deref. }
  destruct (federated_decision s src dst rnd) as [act s1|e s1] eqn:Ed; simpl in *; auto.
  assert (Hact : act = OFPP_FLOOD).
  { apply (@federated_decision_flood s src dst rnd act s1 Hwf); auto.
    unfold global_table. now apply flood_only_deref. }
  subst act.
  pose proof (wf_update_local_q_table dp src dst OFPP_FLOOD 1%float Hwf1) as Hwf2.
  pose proof (@flood_only_update_local_q_table s1 dp src dst 1%float Hs1) as Hs2.
  destruct (update_local_q_table s1 dp src dst OFPP_FLOOD 1%float) as [[] s2|e s2];
    simpl in *; auto.
  destruct aggregate; auto.
  unfold redistribute_global_model. apply flood_only_redistribute_fold.
  unfold aggregate_global_q_values. simpl.
  apply flood_only_aggregate_fold; auto. apply (wf_tables Hwf2).
Qed.

Lemma flood_only_served (s : state) : served s -> Forall flood_only (store s).
Proof.
  induction 1 as [|s dp src dst rnd aggregate Hs IH].
  - repeat constructor. apply flood_only_nil.
  - apply flood_only_packet_in_handler; auto. apply (decided_wf (decided_served Hs)).
Qed.

(** In a state between two packets the decision is the flood action. *)
Lemma served_decision (s : state) (src dst : addr) (rnd : float) :
  served s ->
  exists s', federated_decision s src dst rnd = Return OFPP_FLOOD s'.
Proof.
  intros Hs. pose proof (decided_served Hs) as Hd.
  pose proof (decided_entries Hd src dst) as Hent.
  destruct (federated_decision s src dst rnd) as [act s'|e s'] eqn:E.
  - exists s'. f_equal.
    apply (@federated_decision_flood s src dst rnd act s' (decided_wf Hd)); auto.
    unfold global_table. apply flood_only_deref. now apply flood_only_served.
  - exfalso. revert E. unfold federated_decision. rewrite init_flow_entry.
    destruct (dget dst (dget_or src [] (global_table s))) as [[|[a v] e']|];
      cbn [py_max_key]; try discriminate. now elim Hent.
Qed.

(** ** The trust scores the handler produces *)

Lemma handler_trust_S (n : nat) :
  handler_trust (S n) = (0.9 * handler_trust n + 0.1 * 0.9)%float.
Proof. reflexivity. Qed.

(** After 311 packets the score has arrived at [0.9000000000000004], which
    line 126 maps to itself. *)
Lemma handler_trust_stalls (n : nat) :
  (311 <= n)%nat -> handler_trust n = handler_trust 311.
Proof.
  induction 1 as [|n Hn IH]; [reflexivity|].
  rewrite handler_trust_S, IH. vm_compute. reflexivity.
Qed.

Lemma handler_trust_range (n : nat) :
  (0.9 <=? handler_trust n)%float = true
  /\ (handler_trust n <=? 1)%float = true
  /\ (0.5 <=? handler_trust n)%float = true.
Proof.
  assert (Hall : forallb (fun k => (0.9 <=? handler_trust k)%float
                                   && (handler_trust k <=? 1)%float
                                   && (0.5 <=? handler_trust k)%float)
                   (seq 0 312) = true) by (vm_compute; reflexivity).
  rewrite forallb_forall in Hall.
  assert (Hk : exists k, (k < 312)%nat /\ handler_trust n = handler_trust k).
  { destruct (Nat.le_gt_cases 311 n) as [Hge|Hlt].
    - exists 311%nat. split; [lia | now apply handler_trust_stalls].
    - exists n. split; [lia | reflexivity]. }
  destruct Hk as (k & Hk & ->).
  assert (Hin : In k (seq 0 312)) by (apply in_seq; lia).
  apply Hall in Hin. clear Hall. rename Hin into Hall.
  apply andb_prop in Hall. destruct Hall as [Hall H3].
  apply andb_prop in Hall. destruct Hall as [H1 H2]. auto.
Qed.

Lemma trust_of_ext (s s' : state) (node : addr) :
  trust_values s' = trust_values s -> trust_of s' node = trust_of s node.
Proof. unfold trust_of. now intros ->. Qed.

Lemma trust_of_update_trust_other (s : state) (node b : addr) (rate : float) :
  b <> node -> trust_of (update_trust s node rate) b = trust_of s b.
Proof.
  intros Hne. unfold trust_of, dget_or. simpl. now rewrite dget_dset_other.
Qed.

(** What the handler does to the trust table: nothing when it raises, one
    update of the source's score with [0.9] when it returns. *)
Lemma packet_in_handler_trust (s : state) (dp : dpid) (src dst : addr)
  (rnd : float) (aggregate : bool) (node : addr) :
  trust_of (state_of (packet_in_handler s dp src dst rnd aggregate)) node
  = match packet_in_handler s dp src dst rnd aggregate with
    | Return _ _ =>
        if String.eqb node src then (0.9 * trust_of s src + 0.1 * 0.9)%float
        else trust_of s node
    | Raise _ _ => trust_of s node
    end.
Proof.
  unfold packet_in_handler.
  pose proof (federated_decision_frame s src dst rnd) as (_ & _ & Ht1).
  destruct (federated_decision s src dst rnd) as [act s1|e s1]; simpl in *;
    [|now apply trust_of_ext].
  pose proof (update_local_q_table_trust s1 dp src dst act 1%float) as Ht2.
  destruct (update_local_q_table s1 dp src dst act 1%float) as [[] s2|e s2];
    simpl in *; [|apply trust_of_ext; congruence].
  assert (Ht3 : trust_of (update_trust s2 src 0.9%float) node
                = if String.eqb node src then (0.9 * trust_of s src + 0.1 * 0.9)%float
                  else trust_of s node).
  { destruct (String.eqb_spec node src) as [->|Hne].
    - rewrite trust_of_update_trust. f_equal. f_equal.
      apply trust_of_ext. congruence.
    - rewrite trust_of_update_trust_other by assumption.
      apply trust_of_ext. congruence. }
  etransitivity; [|exact Ht3]. apply trust_of_ext.
  destruct aggregate; [|reflexivity].
  unfold redistribute_global_model. now rewrite redistribute_fold_trust.
Qed.

Lemma served_trust (s : state) (node : addr) :
  served s -> exists n, trust_of s node = handler_trust n.
Proof.
  induction 1 as [|s dp src dst rnd aggregate Hs IH] in node |- *.
  - now exists 0%nat.
  - rewrite packet_in_handler_trust.
    destruct (packet_in_handler s dp src dst rnd aggregate); [|apply IH].
    destruct (String.eqb node src); [|apply IH].
    destruct (IH src) as [n ->]. now exists (S n).
Qed.

(** ** The handler, with its messages *)

(** The tables after the whole handler are those of its table part. *)
Lemma packet_in_handler_msg_state (s : state) (msg : OFPPacketIn) (rnd u : float) :
  snd (packet_in_handler_msg s msg rnd u)
  = match msg_eth msg with
    | None => Return tt s
    | Some (src, dst) =>
        packet_in_handler s (msg_datapath msg) src dst rnd
          (should_aggregate_global_model u)
    end.
Proof.
  unfold packet_in_handler_msg, packet_in_handler.
  destruct (msg_eth msg) as [[src dst]|]; [|reflexivity].
  now destruct (federated_decision s src dst rnd).
Qed.

Lemma served_dispatch (s : state) (ev : event) :
  served s -> served (snd (dispatch s ev)).
Proof.
  intros Hs. destruct ev as [dp|msg rnd u]; simpl; auto.
  pose proof (packet_in_handler_msg_state s msg rnd u) as Hst.
  destruct (packet_in_handler_msg s msg rnd u) as [out o]. simpl in *. subst o.
  destruct (msg_eth msg) as [[src dst]|]; simpl; auto.
  now apply served_packet.
Qed.

Lemma dispatch_hub_reply (s : state) (ev : event) :
  served s -> fst (dispatch s ev) = hub_reply ev.
Proof.
  intros Hs. destruct ev as [dp|msg rnd u]; [reflexivity|].
  unfold dispatch, hub_reply, packet_in_handler_msg.
  destruct (msg_eth msg) as [[src dst]|]; [|reflexivity].
  destruct (served_decision src dst rnd Hs) as [s1 ->]. simpl.
  destruct (Z.eqb_spec (msg_buffer_id msg) OFP_NO_BUFFER) as [->|Hne]; reflexivity.
Qed.

Lemma run_served (evs : list event) (s : state) :
  served s ->
  fst (run s evs) = flat_map hub_reply evs /\ served (snd (run s evs)).
Proof.
  revert s. induction evs as [|ev evs IH]; intros s Hs; simpl; auto.
  pose proof (dispatch_hub_reply ev Hs) as Hout.
  pose proof (served_dispatch ev Hs) as Hs1.
  destruct (dispatch s ev) as [out s1]. simpl in *.
  destruct (IH s1 Hs1) as [Hout' Hs2].
  destruct (run s1 evs) as [out' s2]. simpl in *.
  split; [congruence | exact Hs2].
Qed.

(** ** Keys of the global table *)

(** Lines 75-78 leave every value of the global table in place. *)
Lemma lookup3_init_flow_keep (g : table) (src dst : addr) (rnd : float)
  (src' dst' : addr) (a : action) (v : float) :
  lookup3 g src' dst' a = Some v ->
  lookup3 (init_flow g src dst rnd) src' dst' a = Some v.
Proof.
  intros Hv. destruct (has_flow g src dst) eqn:Hf.
  - now rewrite init_flow_known.
  - assert (Hnone : dget dst (dget_or src [] g) = None).
    { unfold has_flow, dmem in Hf. now destruct (dget dst (dget_or src [] g)). }
    revert Hv. unfold lookup3, init_flow.
    destruct (string_dec src' src) as [->|Hs].
    + rewrite dget_or_dupd_ensure_same.
      destruct (string_dec dst' dst) as [->|Hd].
      * unfold dget_or at 1. rewrite Hnone. discriminate.
      * unfold dget_or at 1 3. now rewrite dget_ensure_key, (keqb_neq Hd).
    + now rewrite dget_or_dupd_ensure_other.
Qed.

(** ** The order of the datapaths *)

Lemma update_local_q_table_keys (s : state) (dp : dpid) (src dst : addr)
  (act : action) (reward : float) :
  dkeys (q_values (state_of (update_local_q_table s dp src dst act reward)))
  = if dmem dp (q_values s) then dkeys (q_values s) else dkeys (q_values s) ++ [dp].
Proof.
  destruct (update_local_q_table_state s dp src dst act reward) as [t' ->]. simpl.
  unfold ensure_datapath, dmem.
  destruct (dget dp (q_values s)) eqn:E; simpl; [reflexivity|].
  rewrite dkeys_dset_new by (unfold dmem; now rewrite E).
  unfold dkeys. now rewrite map_app.
Qed.

(** ** Linear arithmetic next to large powers of two

    The exact values of binary64 numbers are compared with powers of two
    such as [2^1074] and [2^2100].  The arithmetic below needs few facts
    about them, which are stated where they are needed: [zlia] and [znia]
    first try with these powers kept abstract. *)
Ltac hide_pows :=
  repeat match goal with
         | |- context [(2 ^ Zpos ?p)%Z] =>
             lazymatch eval vm_compute in (Pos.leb 64 p) with true => idtac end;
             let A := fresh "A" in
             let EA := fresh "EA" in
             remember (2 ^ Zpos p)%Z as A eqn:EA in *; clear EA
         | H : context [(2 ^ Zpos ?p)%Z] |- _ =>
             lazymatch eval vm_compute in (Pos.leb 64 p) with true => idtac end;
             let A := fresh "A" in
             let EA := fresh "EA" in
             remember (2 ^ Zpos p)%Z as A eqn:EA in *; clear EA
         end.

Ltac zlia := first [solve [hide_pows; lia] | lia].
Ltac znia := first [solve [hide_pows; nia] | nia].

(** ** Rounding to nearest: what [binary_round_aux] returns *)

Section Rounding.
Local Open Scope Z_scope.
Local Unset Implicit Arguments.

Lemma iter_pos_nat {A : Type} (f : A -> A) (p : positive) (x : A) :
  iter_pos f p x = Nat.iter (Pos.to_nat p) f x.
Proof.
  revert x. induction p as [p IH|p IH|]; intros x; cbn [iter_pos].
  - rewrite !IH, Pos2Nat.inj_xI, <- Nat.iter_add, <- Nat.iter_succ_r.
    f_equal. zlia.
  - rewrite !IH, Pos2Nat.inj_xO, <- Nat.iter_add. f_equal. zlia.
  - reflexivity.
Qed.

Lemma shr_1_spec (mrs : shr_record) :
  0 <= shr_m mrs ->
  shr_m (shr_1 mrs) = shr_m mrs / 2
  /\ shr_r (shr_1 mrs) = Z.odd (shr_m mrs)
  /\ shr_s (shr_1 mrs) = shr_r mrs || shr_s mrs.
Proof.
  intros Hm. split; [now apply shr_1_m|].
  destruct mrs as [m r s]. cbn [shr_m] in Hm.
  destruct m as [|[p|p|]|p]; cbn; auto; zlia.
Qed.

Lemma mod_pow2_succ (m k : Z) :
  0 <= k ->
  (m mod 2 ^ (k + 1) =? 0) = negb (Z.odd (m / 2 ^ k)) && (m mod 2 ^ k =? 0).
Proof.
  intros Hk. assert (Hp : 0 < 2 ^ k) by (apply Z.pow_pos_nonneg; zlia).
  rewrite Z.pow_add_r, Z.pow_1_r by zlia.
  rewrite Z.rem_mul_r by zlia.
  pose proof (Z.mod_pos_bound m (2 ^ k) Hp) as Hb.
  rewrite (Zmod_odd (m / 2 ^ k)).
  destruct (Z.odd (m / 2 ^ k)); cbn [negb andb].
  - apply Z.eqb_neq. zlia.
  - rewrite Z.mul_0_r, Z.add_0_r. reflexivity.
Qed.

(** The record after [k + 1] shifts: the quotient, the last bit shifted
    out, and whether anything below it was set. *)
Lemma iter_shr_spec (k : nat) (mrs : shr_record) :
  0 <= shr_m mrs ->
  shr_m (Nat.iter (S k) shr_1 mrs) = shr_m mrs / 2 ^ Z.of_nat (S k)
  /\ shr_r (Nat.iter (S k) shr_1 mrs) = Z.odd (shr_m mrs / 2 ^ Z.of_nat k)
  /\ shr_s (Nat.iter (S k) shr_1 mrs)
     = shr_r mrs || shr_s mrs || negb (shr_m mrs mod 2 ^ Z.of_nat k =? 0).
Proof.
  intros Hm. induction k as [|k (IHm & IHr & IHs)].
  - cbn [Nat.iter]. destruct (shr_1_spec mrs Hm) as (H1 & H2 & H3).
    change (2 ^ Z.of_nat 1) with 2. change (2 ^ Z.of_nat 0) with 1.
    rewrite Z.div_1_r, Z.mod_1_r. cbn [Z.eqb negb]. rewrite orb_false_r. auto.
  - remember (Nat.iter (S k) shr_1 mrs) as R.
    change (Nat.iter (S (S k)) shr_1 mrs) with (shr_1 (Nat.iter (S k) shr_1 mrs)).
    rewrite <- HeqR.
    assert (HR : 0 <= shr_m R) by (rewrite IHm; apply Z.div_pos; zlia).
    destruct (shr_1_spec R HR) as (H1 & H2 & H3).
    rewrite H1, H2, H3, IHm, IHr, IHs.
    replace (Z.of_nat (S (S k))) with (Z.of_nat (S k) + 1) by zlia.
    replace (Z.of_nat (S k)) with (Z.of_nat k + 1) by zlia.
    repeat split.
    + rewrite (Z.pow_add_r 2 (Z.of_nat k + 1) 1), Z.pow_1_r by zlia.
      rewrite Z.div_div by zlia. reflexivity.
    + rewrite (mod_pow2_succ (shr_m mrs) (Z.of_nat k)) by zlia.
      destruct (Z.odd (shr_m mrs / 2 ^ Z.of_nat k)), (shr_r mrs), (shr_s mrs),
        (shr_m mrs mod 2 ^ Z.of_nat k =? 0); reflexivity.
Qed.


Lemma round_nearest_even_down (q : Z) (mrs : shr_record) :
  shr_r mrs = false -> round_nearest_even q (loc_of_shr_record mrs) = q.
Proof. destruct mrs as [m [|] [|]]; cbn; intros H; try discriminate; reflexivity. Qed.

(** The first shift of [binary_round_aux] on an exact input. *)
Lemma shr_fexp_exact (P E : Z) :
  0 <= P -> E <= Z.max (Zdigits2 P + E - 53) (-1074) ->
  exists mrs,
    shr_fexp prec emax P E loc_Exact = (mrs, Z.max (Zdigits2 P + E - 53) (-1074))
    /\ shr_m mrs = P / 2 ^ (Z.max (Zdigits2 P + E - 53) (-1074) - E)
    /\ (2 * (P mod 2 ^ (Z.max (Zdigits2 P + E - 53) (-1074) - E))
        < 2 ^ (Z.max (Zdigits2 P + E - 53) (-1074) - E) -> shr_r mrs = false).
Proof.
  intros HP HE. unfold shr_fexp, shr, fexp, emin, prec, emax.
  change (3 - 1024 - 53) with (-1074).
  set (E' := Z.max (Zdigits2 P + E - 53) (-1074)) in *.
  destruct (E' - E) as [|p|p] eqn:En; try zlia.
  - exists (shr_record_of_loc P loc_Exact). split; [f_equal; zlia|].
    cbn. rewrite Z.div_1_r. auto.
  - rewrite iter_pos_nat.
    destruct (Pos2Nat.is_succ p) as [k Hk]. rewrite Hk.
    destruct (iter_shr_spec k (shr_record_of_loc P loc_Exact) HP) as (Hm & Hr & _).
    assert (Hkp : Z.of_nat (S k) = Zpos p) by zlia.
    eexists. split; [f_equal; zlia|]. split.
    + rewrite Hm, Hkp. reflexivity.
    + rewrite Hr. cbn [shr_m shr_record_of_loc]. intros Hhalf.
      rewrite <- Hkp in Hhalf.
      replace (Z.of_nat (S k)) with (Z.of_nat k + 1) in Hhalf by zlia.
      assert (Hp : 0 < 2 ^ Z.of_nat k) by (apply Z.pow_pos_nonneg; zlia).
      rewrite Z.pow_add_r, Z.pow_1_r, Z.rem_mul_r in Hhalf by zlia.
      pose proof (Z.mod_pos_bound P (2 ^ Z.of_nat k) Hp) as Hb.
      rewrite (Zmod_odd (P / 2 ^ Z.of_nat k)) in Hhalf.
      destruct (Z.odd (P / 2 ^ Z.of_nat k)); [zlia | reflexivity].
Qed.

Lemma Zdigits2_le (M k : Z) : 0 <= k -> 0 <= M < 2 ^ k -> Zdigits2 M <= k.
Proof.
  intros Hk [H0 HM]. destruct M as [|m|m]; cbn [Zdigits2]; try zlia.
  rewrite digits2_size. now apply size_le_of_lt.
Qed.

Lemma Zdigits2_ge (M k : Z) : 2 ^ k <= M -> k + 1 <= Zdigits2 M.
Proof.
  intros HM. assert (0 < 2 ^ k \/ 2 ^ k = 0) as [Hp|Hz].
  { destruct (Z_lt_le_dec k 0); [right; now apply Z.pow_neg_r | left; apply Z.pow_pos_nonneg; zlia]. }
  - destruct M as [|m|m]; cbn [Zdigits2]; try zlia.
    rewrite digits2_size. now apply size_ge_of_le.
  - assert (k < 0) by (destruct (Z_lt_le_dec k 0); auto;
                       assert (0 < 2 ^ k) by (apply Z.pow_pos_nonneg; zlia); zlia).
    destruct M as [|m|m]; cbn [Zdigits2]; zlia.
Qed.

Lemma Zdigits2_bounds (P : Z) : 0 < P -> 2 ^ (Zdigits2 P - 1) <= P < 2 ^ Zdigits2 P.
Proof.
  destruct P as [|p|p]; try zlia. intros _. cbn [Zdigits2]. rewrite digits2_size.
  pose proof (size_upper p) as Hu. pose proof (size_lower p) as Hl.
  split; [|assumption].
  assert (Hs : 1 <= Zpos (Pos.size p)) by zlia.
  replace (Zpos (Pos.size p)) with (Zpos (Pos.size p) - 1 + 1) in Hl by zlia.
  rewrite Z.pow_add_r, Z.pow_1_r in Hl by zlia. zlia.
Qed.


Lemma pow2_pos (k : Z) : 0 <= k -> 0 < 2 ^ k.
Proof. intros. apply Z.pow_pos_nonneg; zlia. Qed.

(** [binary_round_aux] on an exact, aligned input [P * 2^E] returns a
    rounding of it. *)
Lemma binary_round_aux_rounds (P E : Z) :
  0 <= P -> E <= Z.max (Zdigits2 P + E - 53) (-1074) ->
  rounds P E (fval (binary_round_aux prec emax false P E loc_Exact)).
Proof.
  intros HP HE. unfold rounds, binary_round_aux.
  destruct (shr_fexp_exact P E HP HE) as (mrs & Hs & Hm & Hr).
  set (E' := Z.max (Zdigits2 P + E - 53) (-1074)) in *.
  rewrite Hs.
  set (n := E' - E) in *. set (q := P / 2 ^ n) in *.
  set (M := round_nearest_even (shr_m mrs) (loc_of_shr_record mrs)).
  assert (Hn : 0 <= n) by (unfold n; zlia).
  assert (Hpn : 0 < 2 ^ n) by now apply pow2_pos.
  assert (HM : q <= M <= q + 1)
    by (unfold M; rewrite Hm; apply round_nearest_even_bounds).
  assert (HE' : -1074 <= E') by (unfold E'; zlia).
  assert (Hq : 0 <= q < 2 ^ 53).
  { split; [apply Z.div_pos; zlia|].
    apply Z.div_lt_upper_bound; [assumption|].
    destruct (Z.eq_dec P 0) as [->|HP0]; [pose proof (pow2_pos 53); zlia|].
    destruct (Zdigits2_bounds P ltac:(zlia)) as [_ Hu].
    assert (Hd : Zdigits2 P <= n + 53) by (unfold n, E'; zlia).
    assert (2 ^ Zdigits2 P <= 2 ^ (n + 53)) by (apply Z.pow_le_mono_r; zlia).
    rewrite Z.pow_add_r in * by zlia. zlia. }
  assert (Hq52 : -1074 < E' -> 2 ^ 52 <= q).
  { intros Hnorm.
    assert (HP0 : 0 < P).
    { destruct (Z.eq_dec P 0) as [->|]; [|zlia]. cbn [Zdigits2] in E'. unfold E' in *. zlia. }
    destruct (Zdigits2_bounds P HP0) as [Hl _].
    assert (Hd : Zdigits2 P - 1 = n + 52) by (unfold n, E' in *; zlia).
    rewrite Hd, Z.pow_add_r in Hl by zlia.
    apply Z.div_le_lower_bound; zlia. }
  exists M. split; [exact HM | split].
  { intros Hhalf. unfold M. rewrite Hm. apply round_nearest_even_down. auto. }
  set (U := 2 ^ (E' + 1074)).
  assert (HU : 0 < U) by (apply pow2_pos; zlia).
  assert (HUle : E' <= 971 -> U <= 2 ^ 2045) by (intros; apply Z.pow_le_mono_r; zlia).
  assert (HUge : 971 < E' -> 2 ^ 2046 <= U) by (intros; apply Z.pow_le_mono_r; zlia).
  assert (H2098 : 2 ^ 2098 = 2 ^ 53 * 2 ^ 2045) by reflexivity.
  assert (H2098' : 2 ^ 2098 = 2 ^ 52 * 2 ^ 2046) by reflexivity.
  assert (HM0 : 0 <= M) by zlia.
  destruct (shr_fexp_spec M E' loc_Exact HM0) as [Hle Hgt].
  destruct (Z_lt_le_dec M (2 ^ 53)) as [Hlt|Hge].
  - (* no carry *)
    assert (Hd : Zdigits2 M <= 53) by (apply Zdigits2_le; zlia).
    rewrite Hle by zlia. rewrite shr_m_of_loc.
    destruct M as [|m|m] eqn:EM; try zlia.
    + cbn [fval]. rewrite Z.mul_0_l.
      replace (0 <? 2 ^ 2098) with true; [reflexivity|].
      symmetry. apply Z.ltb_lt. now apply pow2_pos.
    + unfold emax, prec. change (1024 - 53) with 971.
      destruct (Z.leb_spec E' 971) as [Hok|Hover]; cbn [fval]; fold U.
      * replace (Zpos m * U <? 2 ^ 2098) with true; [reflexivity|].
        symmetry. apply Z.ltb_lt. rewrite H2098.
        apply Z.lt_le_trans with (2 ^ 53 * U).
        -- apply Z.mul_lt_mono_pos_r; zlia.
        -- apply Z.mul_le_mono_nonneg_l; [zlia | auto].
      * replace (Zpos m * U <? 2 ^ 2098) with false; [reflexivity|].
        symmetry. apply Z.ltb_ge. rewrite H2098'.
        apply Z.le_trans with (2 ^ 52 * U).
        -- apply Z.mul_le_mono_nonneg_l; [zlia | auto with zarith].
        -- apply Z.mul_le_mono_nonneg_r; [zlia|]. specialize (Hq52 ltac:(zlia)). zlia.
  - (* the mantissa has reached 2^53 *)
    assert (HMeq : M = 2 ^ 53) by zlia.
    assert (Hd : Zdigits2 M = 54).
    { apply Z.le_antisymm.
      - apply Zdigits2_le; [zlia|]. rewrite HMeq. split; [zlia|]. reflexivity.
      - apply (Zdigits2_ge M 53). zlia. }
    destruct Hgt as (mrs2 & Hs2 & Hm2); [zlia|].
    rewrite Hs2, Hm2, Hd.
    replace (Z.max (54 + E' - 53) (-1074) - E') with 1 by zlia.
    rewrite HMeq. change (2 ^ 53 / 2 ^ 1) with (Zpos (2 ^ 52)).
    unfold emax, prec. change (1024 - 53) with 971.
    replace (E' + (Z.max (54 + E' - 53) (-1074) - E')) with (E' + 1) by zlia.
    destruct (Z.leb_spec (E' + 1) 971) as [Hok|Hover]; cbn [fval]; fold U.
    + replace (E' + 1 + 1074) with (1 + (E' + 1074)) by zlia.
      rewrite Z.pow_add_r by zlia. fold U.
      change (Zpos (2 ^ 52) * (2 ^ 1 * U)) with (Zpos (2 ^ 52) * (2 * U)).
      replace (Zpos (2 ^ 52) * (2 * U)) with (2 ^ 53 * U)
        by (change (2 ^ 53) with (Zpos (2 ^ 52) * 2); ring).
      replace (2 ^ 53 * U <? 2 ^ 2098) with true; [reflexivity|].
      symmetry. apply Z.ltb_lt. rewrite H2098.
      apply Z.mul_lt_mono_pos_l; [zlia|].
      assert (U <= 2 ^ 2044) by (apply Z.pow_le_mono_r; zlia).
      assert (2 ^ 2044 < 2 ^ 2045) by reflexivity. zlia.
    + replace (2 ^ 53 * U <? 2 ^ 2098) with false; [reflexivity|].
      symmetry. apply Z.ltb_ge. rewrite H2098.
      apply Z.mul_le_mono_nonneg_l; [zlia|].
      apply Z.pow_le_mono_r; zlia.
Qed.

End Rounding.

(** ** The order of binary64 numbers, on their exact values *)

Section Sandwich.
Local Open Scope Z_scope.
Local Unset Implicit Arguments.

Lemma fval_finite_lt (m1 : positive) (e1 : Z) (m2 : positive) (e2 : Z) :
  bounded prec emax m1 e1 = true -> bounded prec emax m2 e2 = true -> e1 < e2 ->
  Zpos m1 * 2 ^ (e1 + 1074) < Zpos m2 * 2 ^ (e2 + 1074).
Proof.
  intros H1 H2 Hlt.
  destruct (bounded_inv _ _ H1) as (He1 & Hm1 & _).
  destruct (bounded_inv _ _ H2) as (He2 & _ & Hn2 & _).
  specialize (Hn2 ltac:(zlia)).
  assert (HU : 0 < 2 ^ (e1 + 1074)) by (apply pow2_pos; zlia).
  assert (HV : 2 * 2 ^ (e1 + 1074) <= 2 ^ (e2 + 1074)).
  { replace (2 * 2 ^ (e1 + 1074)) with (2 ^ (e1 + 1 + 1074)).
    - apply Z.pow_le_mono_r; zlia.
    - replace (e1 + 1 + 1074) with (1 + (e1 + 1074)) by zlia.
      rewrite Z.pow_add_r by zlia. reflexivity. }
  apply Z.lt_le_trans with (2 ^ 53 * 2 ^ (e1 + 1074)).
  - apply Z.mul_lt_mono_pos_r; zlia.
  - apply Z.le_trans with (2 ^ 52 * 2 ^ (e2 + 1074)).
    + change (2 ^ 53) with (2 ^ 52 * 2). rewrite <- Z.mul_assoc.
      apply Z.mul_le_mono_nonneg_l; zlia.
    + apply Z.mul_le_mono_nonneg_r; zlia.
Qed.

Lemma fval_finite_bound (m : positive) (e : Z) :
  bounded prec emax m e = true ->
  0 < Zpos m * 2 ^ (e + 1074) < 2 ^ 2098.
Proof.
  intros H. destruct (bounded_inv _ _ H) as (He & Hm & _).
  assert (HU : 0 < 2 ^ (e + 1074)) by (apply pow2_pos; zlia).
  split; [zlia|].
  assert (H2098 : 2 ^ 2098 = 2 ^ 53 * 2 ^ 2045) by reflexivity.
  rewrite H2098.
  apply Z.lt_le_trans with (2 ^ 53 * 2 ^ (e + 1074)).
  - apply Z.mul_lt_mono_pos_r; zlia.
  - apply Z.mul_le_mono_nonneg_l; [zlia|]. apply Z.pow_le_mono_r; zlia.
Qed.

(** On the valid numbers that are not below zero, the order of binary64 is
    the order of the values. *)
Lemma SFcompare_fval (x y : spec_float) :
  valid_binary x = true -> valid_binary y = true ->
  0 <= fval x -> 0 <= fval y ->
  SFcompare x y = Some (fval x ?= fval y).
Proof.
  assert (H2100 : 2 ^ 2098 < 2 ^ 2100) by reflexivity.
  destruct x as [sx|[|]| |[|] mx ex], y as [sy|[|]| |[|] my ey];
    cbn [fval valid_binary SFcompare]; intros Hx Hy Hkx Hky; try zlia;
    try reflexivity.
  - f_equal. symmetry. apply Z.compare_lt_iff.
    pose proof (fval_finite_bound _ _ Hy). zlia.
  - f_equal. symmetry. apply Z.compare_gt_iff.
    pose proof (fval_finite_bound _ _ Hy). zlia.
  - f_equal. symmetry. apply Z.compare_gt_iff.
    pose proof (fval_finite_bound _ _ Hx). zlia.
  - f_equal. symmetry. apply Z.compare_lt_iff.
    pose proof (fval_finite_bound _ _ Hx). zlia.
  - f_equal.
    change (Pos.compare_cont Eq mx my) with (Pos.compare mx my).
    destruct (Z.compare_spec ex ey) as [->|Hlt|Hgt].
    + destruct (bounded_inv _ _ Hy) as (Hey & _).
      assert (HU : 0 < 2 ^ (ey + 1074)) by (apply pow2_pos; zlia).
      destruct (Pos.compare_spec mx my) as [->|Hl|Hg]; symmetry.
      * apply Z.compare_refl.
      * apply Z.compare_lt_iff. apply Z.mul_lt_mono_pos_r; zlia.
      * apply Z.compare_gt_iff. apply Z.mul_lt_mono_pos_r; zlia.
    + symmetry. apply Z.compare_lt_iff. now apply fval_finite_lt.
    + symmetry. apply Z.compare_gt_iff. now apply fval_finite_lt.
Qed.

Lemma leb_tval (t u : float) :
  0 <= tval t -> 0 <= tval u -> (t <=? u)%float = (tval t <=? tval u).
Proof.
  intros Ht Hu. rewrite leb_spec. unfold SFleb, tval in *.
  rewrite SFcompare_fval by (auto using Prim2SF_valid).
  unfold Z.leb. now destruct (fval (Prim2SF t) ?= fval (Prim2SF u)).
Qed.

Lemma nonneg_tval (t : float) : (0 <=? t)%float = true <-> 0 <= tval t.
Proof.
  rewrite leb_spec. unfold tval.
  change (Prim2SF 0) with (S754_zero false).
  pose proof (Prim2SF_valid t) as Hv.
  destruct (Prim2SF t) as [s|[|]| |[|] m e]; cbn [fval SFleb SFcompare]; split; intros H;
    try reflexivity; try discriminate; try zlia.
Qed.

Lemma representable_fval (x : spec_float) :
  valid_binary x = true -> 0 <= fval x < 2 ^ 2100 -> representable (fval x).
Proof.
  destruct x as [s|[|]| |[|] m e]; cbn [fval valid_binary]; intros Hv H; try zlia.
  - now left.
  - right. destruct (bounded_inv _ _ Hv) as (He & Hm & _).
    exists (Zpos m), e. repeat split; zlia.
Qed.

Lemma representable_bound (C : Z) : representable C -> 0 <= C < 2 ^ 2098.
Proof.
  intros [->|(m & e & Hm & He & ->)].
  - pose proof (pow2_pos 2098). zlia.
  - assert (HU : 0 < 2 ^ (e + 1074)) by (apply pow2_pos; zlia).
    split; [znia|].
    assert (H2098 : 2 ^ 2098 = 2 ^ 53 * 2 ^ 2045) by reflexivity.
    rewrite H2098.
    apply Z.lt_le_trans with (2 ^ 53 * 2 ^ (e + 1074)).
    + apply Z.mul_lt_mono_pos_r; zlia.
    + apply Z.mul_le_mono_nonneg_l; [zlia|]. apply Z.pow_le_mono_r; zlia.
Qed.

(** The quotient of an aligned input has at most 53 digits, and exactly 53
    above the subnormal range. *)
Lemma aligned_quotient (P E : Z) :
  0 <= P -> E <= Z.max (Zdigits2 P + E - 53) (-1074) ->
  0 <= P / 2 ^ (Z.max (Zdigits2 P + E - 53) (-1074) - E) < 2 ^ 53
  /\ (-1074 < Z.max (Zdigits2 P + E - 53) (-1074) ->
      2 ^ 52 <= P / 2 ^ (Z.max (Zdigits2 P + E - 53) (-1074) - E)).
Proof.
  intros HP HE.
  set (E' := Z.max (Zdigits2 P + E - 53) (-1074)) in *.
  set (n := E' - E) in *.
  assert (Hn : 0 <= n) by (unfold n; zlia).
  assert (Hpn : 0 < 2 ^ n) by now apply pow2_pos.
  split; [split|].
  - apply Z.div_pos; zlia.
  - apply Z.div_lt_upper_bound; [assumption|].
    destruct (Z.eq_dec P 0) as [->|HP0]; [pose proof (pow2_pos 53); zlia|].
    destruct (Zdigits2_bounds P ltac:(zlia)) as [_ Hu].
    assert (Hd : Zdigits2 P <= n + 53) by (unfold n, E'; zlia).
    assert (2 ^ Zdigits2 P <= 2 ^ (n + 53)) by (apply Z.pow_le_mono_r; zlia).
    rewrite Z.pow_add_r in * by zlia. zlia.
  - intros Hnorm.
    assert (HP0 : 0 < P).
    { destruct (Z.eq_dec P 0) as [->|]; [|zlia]. cbn [Zdigits2] in E'. unfold E' in *. zlia. }
    destruct (Zdigits2_bounds P HP0) as [Hl _].
    assert (Hd : Zdigits2 P - 1 = n + 52) by (unfold n, E' in *; zlia).
    rewrite Hd, Z.pow_add_r in Hl by zlia.
    apply Z.div_le_lower_bound; zlia.
Qed.

End Sandwich.

(** ** Rounding does not cross a binary64 number *)

Section SandwichLemmas.
Local Open Scope Z_scope.
Local Unset Implicit Arguments.

(** Exact value below a representable number: in units of the rounding
    step. *)
Lemma scaled_le (P E E' C : Z) :
  -2148 <= E -> E <= E' -> -1074 <= E' ->
  (P * 2 ^ (E + 2148) <= C * 2 ^ 1074 <-> P * 2 ^ (E' + 1074) <= C * 2 ^ (E' - E)).
Proof.
  intros HE HEE HE'.
  assert (H1 : 0 < 2 ^ 1074) by now apply pow2_pos.
  assert (H2 : 0 < 2 ^ (E' - E)) by (apply pow2_pos; zlia).
  assert (Ha : 2 ^ (E + 2148) * 2 ^ (E' - E) = 2 ^ (E' + 1074) * 2 ^ 1074).
  { rewrite <- !Z.pow_add_r by zlia. f_equal. zlia. }
  split; intros H.
  - apply (Z.mul_le_mono_pos_r _ _ (2 ^ 1074)); [assumption|].
    replace (P * 2 ^ (E' + 1074) * 2 ^ 1074) with (P * 2 ^ (E + 2148) * 2 ^ (E' - E))
      by (rewrite <- !Z.mul_assoc, Ha; reflexivity).
    replace (C * 2 ^ (E' - E) * 2 ^ 1074) with (C * 2 ^ 1074 * 2 ^ (E' - E)) by ring.
    apply Z.mul_le_mono_nonneg_r; zlia.
  - apply (Z.mul_le_mono_pos_r _ _ (2 ^ (E' - E))); [assumption|].
    replace (P * 2 ^ (E + 2148) * 2 ^ (E' - E)) with (P * 2 ^ (E' + 1074) * 2 ^ 1074)
      by (rewrite <- !Z.mul_assoc, Ha; reflexivity).
    replace (C * 2 ^ 1074 * 2 ^ (E' - E)) with (C * 2 ^ (E' - E) * 2 ^ 1074) by ring.
    apply Z.mul_le_mono_nonneg_r; zlia.
Qed.

Lemma scaled_ge (P E E' C : Z) :
  -2148 <= E -> E <= E' -> -1074 <= E' ->
  (C * 2 ^ 1074 <= P * 2 ^ (E + 2148) <-> C * 2 ^ (E' - E) <= P * 2 ^ (E' + 1074)).
Proof.
  intros HE HEE HE'.
  assert (H1 : 0 < 2 ^ 1074) by now apply pow2_pos.
  assert (H2 : 0 < 2 ^ (E' - E)) by (apply pow2_pos; zlia).
  assert (Ha : 2 ^ (E + 2148) * 2 ^ (E' - E) = 2 ^ (E' + 1074) * 2 ^ 1074).
  { rewrite <- !Z.pow_add_r by zlia. f_equal. zlia. }
  split; intros H.
  - apply (Z.mul_le_mono_pos_r _ _ (2 ^ 1074)); [assumption|].
    replace (P * 2 ^ (E' + 1074) * 2 ^ 1074) with (P * 2 ^ (E + 2148) * 2 ^ (E' - E))
      by (rewrite <- !Z.mul_assoc, Ha; reflexivity).
    replace (C * 2 ^ (E' - E) * 2 ^ 1074) with (C * 2 ^ 1074 * 2 ^ (E' - E)) by ring.
    apply Z.mul_le_mono_nonneg_r; zlia.
  - apply (Z.mul_le_mono_pos_r _ _ (2 ^ (E' - E))); [assumption|].
    replace (P * 2 ^ (E + 2148) * 2 ^ (E' - E)) with (P * 2 ^ (E' + 1074) * 2 ^ 1074)
      by (rewrite <- !Z.mul_assoc, Ha; reflexivity).
    replace (C * 2 ^ 1074 * 2 ^ (E' - E)) with (C * 2 ^ (E' - E) * 2 ^ 1074) by ring.
    apply Z.mul_le_mono_nonneg_r; zlia.
Qed.

(** A representable number in units of a rounding step [2^E'] that is not
    coarser than its own: a whole number of units. *)
Lemma representable_units (m e E' : Z) :
  -1074 <= E' <= e ->
  m * 2 ^ (e + 1074) = (m * 2 ^ (e - E')) * 2 ^ (E' + 1074).
Proof.
  intros H. rewrite <- Z.mul_assoc, <- Z.pow_add_r by zlia. do 2 f_equal. zlia.
Qed.

(** A representable number with a finer step is below [2^52] units. *)
Lemma representable_below (m e E' : Z) :
  0 < m < 2 ^ 53 -> -1074 <= e -> e < E' ->
  m * 2 ^ (e + 1074) < 2 ^ 52 * 2 ^ (E' + 1074).
Proof.
  intros Hm He Hlt.
  assert (HU : 0 < 2 ^ (e + 1074)) by (apply pow2_pos; zlia).
  apply Z.lt_le_trans with (2 ^ 53 * 2 ^ (e + 1074)).
  - apply Z.mul_lt_mono_pos_r; zlia.
  - change (2 ^ 53) with (2 ^ 52 * 2). rewrite <- Z.mul_assoc.
    apply Z.mul_le_mono_nonneg_l; [zlia|].
    replace (2 * 2 ^ (e + 1074)) with (2 ^ (e + 1 + 1074)).
    + apply Z.pow_le_mono_r; zlia.
    + replace (e + 1 + 1074) with (1 + (e + 1074)) by zlia.
      rewrite Z.pow_add_r by zlia. reflexivity.
Qed.

(** Rounding does not cross a representable number from below... *)
Lemma rounds_upper (P E v C : Z) :
  0 <= P -> -2148 <= E -> E <= Z.max (Zdigits2 P + E - 53) (-1074) ->
  rounds P E v -> representable C ->
  P * 2 ^ (E + 2148) <= C * 2 ^ 1074 -> v <= C.
Proof.
  intros HP HE Hal (M & HM & Hdown & ->) HC Hle.
  set (E' := Z.max (Zdigits2 P + E - 53) (-1074)) in *.
  assert (HE' : -1074 <= E') by (unfold E'; zlia).
  apply (scaled_le P E E' C HE Hal HE') in Hle.
  destruct (aligned_quotient P E HP Hal) as [Hq Hq52]. fold E' in Hq, Hq52.
  set (n := E' - E) in *. set (q := P / 2 ^ n) in *. set (U := 2 ^ (E' + 1074)) in *.
  assert (Hn : 0 <= n) by (unfold n; zlia).
  assert (Hpn : 0 < 2 ^ n) by now apply pow2_pos.
  assert (HU : 0 < U) by (apply pow2_pos; zlia).
  pose proof (representable_bound C HC) as HCb.
  pose proof (Z_div_mod_eq_full P (2 ^ n)) as Hdiv. fold q in Hdiv.
  pose proof (Z.mod_pos_bound P (2 ^ n) Hpn) as Hmod.
  assert (HMU : M * U <= C).
  { destruct HC as [->|(m & e & Hm & He & ->)].
    - assert (P = 0) by znia. subst P.
      assert (M = q) by (apply Hdown; rewrite Z.mod_0_l; zlia).
      assert (q = 0) by (unfold q; apply Z.div_0_l; zlia). znia.
    - destruct (Z_lt_le_dec e E') as [Hfine|Hcoarse].
      + exfalso.
        pose proof (representable_below m e E' Hm ltac:(zlia) Hfine) as Hb52. fold U in Hb52.
        specialize (Hq52 ltac:(zlia)).
        assert (2 ^ 52 * U * 2 ^ n <= P * U).
        { replace (2 ^ 52 * U * 2 ^ n) with ((2 ^ 52 * 2 ^ n) * U) by ring.
          apply Z.mul_le_mono_nonneg_r; [zlia|]. znia. }
        assert (m * 2 ^ (e + 1074) * 2 ^ n < 2 ^ 52 * U * 2 ^ n)
          by (apply Z.mul_lt_mono_pos_r; zlia).
        zlia.
      + rewrite (representable_units m e E') in * by zlia. fold U in Hle |- *.
        set (k := m * 2 ^ (e - E')) in *.
        assert (Hk : P <= k * 2 ^ n).
        { apply (Z.mul_le_mono_pos_r _ _ U); [assumption|].
          replace (k * 2 ^ n * U) with (k * U * 2 ^ n) by ring. exact Hle. }
        apply Z.mul_le_mono_nonneg_r; [zlia|].
        destruct (Z_lt_le_dec q k) as [Hqk|Hkq]; [zlia|].
        assert (M = q); [|znia].
        apply Hdown. znia. }
  destruct (Z.ltb_spec (M * U) (2 ^ 2098)); zlia.
Qed.

(** ... nor from above. *)
Lemma rounds_lower (P E v C : Z) :
  0 <= P -> -2148 <= E -> E <= Z.max (Zdigits2 P + E - 53) (-1074) ->
  rounds P E v -> representable C ->
  C * 2 ^ 1074 <= P * 2 ^ (E + 2148) -> C <= v.
Proof.
  intros HP HE Hal (M & HM & Hdown & ->) HC Hle.
  set (E' := Z.max (Zdigits2 P + E - 53) (-1074)) in *.
  assert (HE' : -1074 <= E') by (unfold E'; zlia).
  apply (scaled_ge P E E' C HE Hal HE') in Hle.
  destruct (aligned_quotient P E HP Hal) as [Hq Hq52]. fold E' in Hq, Hq52.
  set (n := E' - E) in *. set (q := P / 2 ^ n) in *. set (U := 2 ^ (E' + 1074)) in *.
  assert (Hn : 0 <= n) by (unfold n; zlia).
  assert (Hpn : 0 < 2 ^ n) by now apply pow2_pos.
  assert (HU : 0 < U) by (apply pow2_pos; zlia).
  pose proof (representable_bound C HC) as HCb.
  assert (H2100 : 2 ^ 2098 < 2 ^ 2100) by reflexivity.
  assert (HMU : C <= M * U).
  { destruct HC as [->|(m & e & Hm & He & ->)]; [znia|].
    destruct (Z_lt_le_dec e E') as [Hfine|Hcoarse].
    - pose proof (representable_below m e E' Hm ltac:(zlia) Hfine) as Hb52. fold U in Hb52.
      specialize (Hq52 ltac:(zlia)).
      assert (2 ^ 52 * U <= M * U) by (apply Z.mul_le_mono_nonneg_r; zlia). zlia.
    - rewrite (representable_units m e E') in * by zlia. fold U in Hle |- *.
      set (k := m * 2 ^ (e - E')) in *.
      assert (Hk : k * 2 ^ n <= P).
      { apply (Z.mul_le_mono_pos_r _ _ U); [assumption|].
        replace (k * 2 ^ n * U) with (k * U * 2 ^ n) by ring. exact Hle. }
      apply Z.mul_le_mono_nonneg_r; [zlia|].
      assert (k <= q) by (apply Z.div_le_lower_bound; zlia). zlia. }
  destruct (Z.ltb_spec (M * U) (2 ^ 2098)); zlia.
Qed.

(** A rounding is never below zero. *)
Lemma rounds_nonneg (P E v : Z) :
  0 <= P -> E <= Z.max (Zdigits2 P + E - 53) (-1074) -> rounds P E v -> 0 <= v.
Proof.
  intros HP Hal (M & HM & _ & ->).
  destruct (aligned_quotient P E HP Hal) as [Hq _].
  assert (0 < 2 ^ (Z.max (Zdigits2 P + E - 53) (-1074) + 1074)) by (apply pow2_pos; zlia).
  assert (0 < 2 ^ 2100) by now apply pow2_pos.
  destruct (Z.ltb_spec (M * 2 ^ (Z.max (Zdigits2 P + E - 53) (-1074) + 1074)) (2 ^ 2098));
    [znia | zlia].
Qed.

End SandwichLemmas.

(** ** Products, sums and differences are roundings of the exact ones *)

Section Operations.
Local Open Scope Z_scope.
Local Unset Implicit Arguments.

Lemma Zdigits2_shift (S k : Z) :
  0 < S -> 0 <= k -> Zdigits2 (S * 2 ^ k) = Zdigits2 S + k.
Proof.
  intros HS Hk. destruct (Zdigits2_bounds S HS) as [Hl Hu].
  assert (Hp : 0 < 2 ^ k) by now apply pow2_pos.
  assert (Hd : 1 <= Zdigits2 S).
  { destruct S as [|s|s]; try zlia. cbn [Zdigits2]. zlia. }
  apply Z.le_antisymm.
  - apply Zdigits2_le; [zlia|]. split; [znia|].
    rewrite Z.pow_add_r by zlia. apply Z.mul_lt_mono_pos_r; zlia.
  - replace (Zdigits2 S + k) with ((Zdigits2 S - 1 + k) + 1) by zlia.
    apply Zdigits2_ge. rewrite Z.pow_add_r by zlia.
    apply Z.mul_le_mono_nonneg_r; zlia.
Qed.

Lemma shl_align_spec (mx : positive) (ex ex' : Z) :
  snd (shl_align mx ex ex') = Z.min ex ex'
  /\ Zpos (fst (shl_align mx ex ex')) = Zpos mx * 2 ^ (ex - Z.min ex ex').
Proof.
  unfold shl_align. destruct (ex' - ex) as [|d|d] eqn:Ed; cbn [fst snd].
  - split; [zlia|]. replace (ex - Z.min ex ex') with 0 by zlia. zlia.
  - split; [zlia|]. replace (ex - Z.min ex ex') with 0 by zlia. zlia.
  - split; [zlia|]. replace (ex - Z.min ex ex') with (Zpos d) by zlia.
    change (Pos.iter xO mx d) with (shift_pos d mx).
    rewrite shift_pos_correct. change (Z.pow_pos 2 d) with (2 ^ Zpos d). ring.
Qed.

(** The product of two valid positive numbers is a rounding of the exact
    product. *)
Lemma SFmul_rounds (mx : positive) (ex : Z) (my : positive) (ey : Z) :
  bounded prec emax mx ex = true -> bounded prec emax my ey = true ->
  -2148 <= ex + ey
  /\ ex + ey <= Z.max (Zdigits2 (Zpos (mx * my)) + (ex + ey) - 53) (-1074)
  /\ rounds (Zpos (mx * my)) (ex + ey)
       (fval (SFmul prec emax (S754_finite false mx ex) (S754_finite false my ey))).
Proof.
  intros Hx Hy.
  destruct (bounded_inv _ _ Hx) as (Hex & Hmx & Hnx & _).
  destruct (bounded_inv _ _ Hy) as (Hey & Hmy & Hny & _).
  assert (Hal : ex + ey <= Z.max (Zdigits2 (Zpos (mx * my)) + (ex + ey) - 53) (-1074)).
  { destruct (Z_le_gt_dec (ex + ey) (-1074)) as [|Hbig]; [zlia|].
    assert (HP : 2 ^ 52 <= Zpos (mx * my)).
    { rewrite Pos2Z.inj_mul.
      destruct (Z.eq_dec ex (-1074)) as [->|Hx1].
      - specialize (Hny ltac:(zlia)). znia.
      - specialize (Hnx Hx1). znia. }
    pose proof (Zdigits2_ge _ 52 HP). zlia. }
  split; [zlia | split; [exact Hal|]].
  cbn [SFmul xorb]. apply binary_round_aux_rounds; [zlia | exact Hal].
Qed.

(** [binary_round] aligns its input and rounds it. *)
Lemma binary_round_rounds (S : positive) (ez : Z) :
  -1074 <= ez ->
  exists P E,
    0 <= P /\ -1074 <= E
    /\ E <= Z.max (Zdigits2 P + E - 53) (-1074)
    /\ P * 2 ^ (E + 1074) = Zpos S * 2 ^ (ez + 1074)
    /\ rounds P E (fval (binary_round prec emax false S ez)).
Proof.
  intros Hez. unfold binary_round.
  set (fe := fexp prec emax (Zpos (digits2_pos S) + ez)).
  destruct (shl_align_spec S ez fe) as [Hez' Hmz].
  destruct (shl_align S ez fe) as [mz ez'] eqn:Esh. cbn [fst snd] in Hez', Hmz.
  assert (Hfe : fe = Z.max (Zdigits2 (Zpos S) + ez - 53) (-1074)) by reflexivity.
  assert (Hdig : Zdigits2 (Zpos mz) + ez' = Zdigits2 (Zpos S) + ez).
  { rewrite Hmz, Zdigits2_shift by zlia. zlia. }
  assert (Hal : ez' <= Z.max (Zdigits2 (Zpos mz) + ez' - 53) (-1074)).
  { rewrite Hdig. zlia. }
  exists (Zpos mz), ez'. split; [zlia | split; [zlia | split; [exact Hal | split]]].
  - rewrite Hmz, <- Z.mul_assoc, <- Z.pow_add_r by zlia.
    do 2 f_equal. zlia.
  - apply binary_round_aux_rounds; [zlia | exact Hal].
Qed.

(** The two mantissas of a sum or a difference, brought to the smaller
    exponent. *)
Lemma aligned_values (mx : positive) (ex : Z) (my : positive) (ey : Z) :
  -1074 <= ex -> -1074 <= ey ->
  Zpos (fst (shl_align mx ex (Z.min ex ey))) * 2 ^ (Z.min ex ey + 1074)
  = Zpos mx * 2 ^ (ex + 1074)
  /\ Zpos (fst (shl_align my ey (Z.min ex ey))) * 2 ^ (Z.min ex ey + 1074)
     = Zpos my * 2 ^ (ey + 1074).
Proof.
  intros Hex Hey.
  destruct (shl_align_spec mx ex (Z.min ex ey)) as [_ Hax].
  destruct (shl_align_spec my ey (Z.min ex ey)) as [_ Hay].
  rewrite Hax, Hay, <- !Z.mul_assoc, <- !Z.pow_add_r by zlia.
  split; do 2 f_equal; zlia.
Qed.

(** The sum of two valid positive numbers is a rounding of the exact sum. *)
Lemma SFadd_rounds (mx : positive) (ex : Z) (my : positive) (ey : Z) :
  bounded prec emax mx ex = true -> bounded prec emax my ey = true ->
  exists P E,
    0 <= P /\ -1074 <= E
    /\ E <= Z.max (Zdigits2 P + E - 53) (-1074)
    /\ P * 2 ^ (E + 1074) = Zpos mx * 2 ^ (ex + 1074) + Zpos my * 2 ^ (ey + 1074)
    /\ rounds P E (fval (SFadd prec emax (S754_finite false mx ex) (S754_finite false my ey))).
Proof.
  intros Hx Hy.
  destruct (bounded_inv _ _ Hx) as (Hex & _).
  destruct (bounded_inv _ _ Hy) as (Hey & _).
  cbn [SFadd cond_Zopp].
  destruct (aligned_values mx ex my ey) as [Hax Hay]; try zlia.
  set (ez := Z.min ex ey) in *.
  set (mx' := fst (shl_align mx ex ez)) in *.
  set (my' := fst (shl_align my ey ez)) in *.
  change (Zpos mx' + Zpos my') with (Zpos (mx' + my')).
  cbn [binary_normalize].
  destruct (binary_round_rounds (mx' + my') ez ltac:(zlia))
    as (P & E & HP & HE & Hal & Hval & Hr).
  exists P, E. repeat split; try assumption.
  rewrite Hval, Pos2Z.inj_add, Z.mul_add_distr_r. zlia.
Qed.

(** The difference of two valid positive numbers, the first not the
    smaller: zero, or a rounding of the exact difference. *)
Lemma SFsub_rounds (mx : positive) (ex : Z) (my : positive) (ey : Z) :
  bounded prec emax mx ex = true -> bounded prec emax my ey = true ->
  Zpos my * 2 ^ (ey + 1074) <= Zpos mx * 2 ^ (ex + 1074) ->
  (Zpos mx * 2 ^ (ex + 1074) = Zpos my * 2 ^ (ey + 1074)
   /\ fval (SFsub prec emax (S754_finite false mx ex) (S754_finite false my ey)) = 0)
  \/ exists P E,
       0 <= P /\ -1074 <= E
       /\ E <= Z.max (Zdigits2 P + E - 53) (-1074)
       /\ P * 2 ^ (E + 1074) = Zpos mx * 2 ^ (ex + 1074) - Zpos my * 2 ^ (ey + 1074)
       /\ rounds P E
            (fval (SFsub prec emax (S754_finite false mx ex) (S754_finite false my ey))).
Proof.
  intros Hx Hy Hle.
  destruct (bounded_inv _ _ Hx) as (Hex & _).
  destruct (bounded_inv _ _ Hy) as (Hey & _).
  cbn [SFsub cond_Zopp].
  destruct (aligned_values mx ex my ey) as [Hax Hay]; try zlia.
  set (ez := Z.min ex ey) in *.
  set (mx' := fst (shl_align mx ex ez)) in *.
  set (my' := fst (shl_align my ey ez)) in *.
  assert (HU : 0 < 2 ^ (ez + 1074)) by (apply pow2_pos; zlia).
  assert (Hdiff : (Zpos mx' - Zpos my') * 2 ^ (ez + 1074)
                  = Zpos mx * 2 ^ (ex + 1074) - Zpos my * 2 ^ (ey + 1074))
    by (rewrite Z.mul_sub_distr_r; zlia).
  destruct (Zpos mx' - Zpos my') as [|S|S] eqn:ES; cbn [binary_normalize].
  - left. split; [zlia | reflexivity].
  - right. destruct (binary_round_rounds S ez ltac:(zlia))
      as (P & E & HP & HE & Hal & Hval & Hr).
    exists P, E. repeat split; try assumption. zlia.
  - exfalso. znia.
Qed.

End Operations.

(** ** Bounds on products and sums; the moving average of line 126 *)

Section FloatBounds.
Local Open Scope Z_scope.
Local Unset Implicit Arguments.

Lemma nonneg_finite_cases (t : float) :
  nonneg_finite t ->
  (exists s, Prim2SF t = S754_zero s)
  \/ exists m e, Prim2SF t = S754_finite false m e /\ bounded prec emax m e = true.
Proof.
  unfold nonneg_finite, tval. pose proof (Prim2SF_valid t) as Hv.
  destruct (Prim2SF t) as [s|[|]| |[|] m e]; cbn [fval valid_binary] in *; intros H; try zlia.
  - left. eauto.
  - right. eauto.
Qed.

Lemma nonneg_finite_representable (c : float) :
  nonneg_finite c -> representable (tval c).
Proof. intros H. apply representable_fval; [apply Prim2SF_valid | exact H]. Qed.

Lemma pow2_sum (a b : Z) : 0 <= a -> 0 <= b -> 2 ^ a * 2 ^ b = 2 ^ (a + b).
Proof. intros. now rewrite Z.pow_add_r. Qed.

(** The exact product of two numbers, in units of [2^-2148]. *)
Lemma mul_rounds (x y : float) :
  nonneg_finite x -> nonneg_finite y ->
  tval x = 0 /\ tval (x * y) = 0
  \/ tval y = 0 /\ tval (x * y) = 0
  \/ exists P E,
       0 <= P /\ -2148 <= E /\ E <= Z.max (Zdigits2 P + E - 53) (-1074)
       /\ P * 2 ^ (E + 2148) = tval x * tval y
       /\ rounds P E (tval (x * y)).
Proof.
  intros Hx Hy. unfold tval. rewrite mul_spec. unfold SF64mul.
  destruct (nonneg_finite_cases x Hx) as [[sx Ex]|(mx & ex & Ex & Bx)];
    destruct (nonneg_finite_cases y Hy) as [[sy Ey]|(my & ey & Ey & By)];
    rewrite Ex, Ey; cbn [SFmul fval]; auto.
  right. right.
  destruct (SFmul_rounds mx ex my ey Bx By) as (HE & Hal & Hr). cbn [SFmul xorb] in Hr.
  destruct (bounded_inv _ _ Bx) as (Hex & _). destruct (bounded_inv _ _ By) as (Hey & _).
  exists (Zpos (mx * my)), (ex + ey). repeat split; try assumption; try zlia.
  rewrite Pos2Z.inj_mul.
  replace (ex + ey + 2148) with ((ex + 1074) + (ey + 1074)) by zlia.
  rewrite (Z.pow_add_r 2 (ex + 1074) (ey + 1074)) by zlia. ring.
Qed.

(** A product does not exceed a binary64 number that the exact product does
    not exceed, and is not below one that the exact product is not below. *)
Lemma mul_le (x y : float) (C : Z) :
  nonneg_finite x -> nonneg_finite y -> representable C ->
  tval x * tval y <= C * 2 ^ 1074 ->
  0 <= tval (x * y) <= C.
Proof.
  intros Hx Hy HC Hle. pose proof (representable_bound C HC) as HCb.
  destruct (mul_rounds x y Hx Hy)
    as [[_ ->]|[[_ ->]|(P & E & HP & HE & Hal & Hval & Hr)]]; try zlia.
  split.
  - eapply rounds_nonneg; [exact HP | exact Hal | exact Hr].
  - eapply rounds_upper; [exact HP | exact HE | exact Hal | exact Hr | exact HC |].
    now rewrite Hval.
Qed.

Lemma mul_ge (x y : float) (C : Z) :
  nonneg_finite x -> nonneg_finite y -> representable C ->
  C * 2 ^ 1074 <= tval x * tval y ->
  C <= tval (x * y).
Proof.
  intros Hx Hy HC Hle. pose proof (representable_bound C HC) as HCb.
  assert (H1074 : 0 < 2 ^ 1074) by now apply pow2_pos.
  destruct (mul_rounds x y Hx Hy)
    as [[E0 ->]|[[E0 ->]|(P & E & HP & HE & Hal & Hval & Hr)]].
  - rewrite E0 in Hle. znia.
  - rewrite E0 in Hle. znia.
  - eapply rounds_lower; [exact HP | exact HE | exact Hal | exact Hr | exact HC |].
    now rewrite Hval.
Qed.

(** The exact sum of two numbers, in units of [2^-1074]. *)
Lemma add_rounds (x y : float) :
  nonneg_finite x -> nonneg_finite y ->
  tval x = 0 /\ tval (x + y) = tval y
  \/ tval y = 0 /\ tval (x + y) = tval x
  \/ exists P E,
       0 <= P /\ -1074 <= E /\ E <= Z.max (Zdigits2 P + E - 53) (-1074)
       /\ P * 2 ^ (E + 1074) = tval x + tval y
       /\ rounds P E (tval (x + y)).
Proof.
  intros Hx Hy. unfold tval. rewrite add_spec. unfold SF64add.
  destruct (nonneg_finite_cases x Hx) as [[sx Ex]|(mx & ex & Ex & Bx)];
    destruct (nonneg_finite_cases y Hy) as [[sy Ey]|(my & ey & Ey & By)];
    rewrite Ex, Ey; cbn [fval].
  - left. destruct sx, sy; cbn; auto.
  - left. cbn [SFadd fval]. auto.
  - right. left. cbn [SFadd fval]. auto.
  - right. right. apply (SFadd_rounds mx ex my ey Bx By).
Qed.

Lemma scaled_sum (P E S : Z) :
  -1074 <= E -> P * 2 ^ (E + 1074) = S -> P * 2 ^ (E + 2148) = S * 2 ^ 1074.
Proof.
  intros HE <-. replace (E + 2148) with ((E + 1074) + 1074) by zlia.
  rewrite (Z.pow_add_r 2 (E + 1074) 1074) by zlia. ring.
Qed.

(** A sum does not exceed a binary64 number that the exact sum does not
    exceed, and is not below one that the exact sum is not below. *)
Lemma add_le (x y : float) (C : Z) :
  nonneg_finite x -> nonneg_finite y -> representable C ->
  tval x + tval y <= C ->
  0 <= tval (x + y) <= C.
Proof.
  intros Hx Hy HC Hle.
  assert (H1074 : 0 < 2 ^ 1074) by now apply pow2_pos.
  destruct (add_rounds x y Hx Hy)
    as [[E0 ->]|[[E0 ->]|(P & E & HP & HE & Hal & Hval & Hr)]].
  - destruct Hy. zlia.
  - destruct Hx. zlia.
  - split.
    + eapply rounds_nonneg; [exact HP | exact Hal | exact Hr].
    + eapply rounds_upper; [exact HP | | exact Hal | exact Hr | exact HC |]; [zlia|].
      rewrite (scaled_sum P E _ HE Hval).
      apply Z.mul_le_mono_nonneg_r; zlia.
Qed.

Lemma add_ge (x y : float) (C : Z) :
  nonneg_finite x -> nonneg_finite y -> representable C ->
  C <= tval x + tval y ->
  C <= tval (x + y).
Proof.
  intros Hx Hy HC Hle.
  assert (H1074 : 0 < 2 ^ 1074) by now apply pow2_pos.
  destruct (add_rounds x y Hx Hy)
    as [[E0 ->]|[[E0 ->]|(P & E & HP & HE & Hal & Hval & Hr)]]; try zlia.
  eapply rounds_lower; [exact HP | | exact Hal | exact Hr | exact HC |]; [zlia|].
  rewrite (scaled_sum P E _ HE Hval).
  apply Z.mul_le_mono_nonneg_r; zlia.
Qed.

(** The binary64 numbers from [1] up to, but without, [1 + 2^-53]: only
    [1]. *)
Lemma representable_near_one (C : Z) :
  representable C -> 2 ^ 1074 <= C < 2 ^ 1074 + 2 ^ 1021 -> C = 2 ^ 1074.
Proof.
  intros [->|(m & e & Hm & He & ->)] HC; [pose proof (pow2_pos 1074); zlia|].
  destruct (Z_lt_le_dec e (-52)) as [Hfine|Hcoarse].
  - exfalso. pose proof (representable_below m e (-52) Hm ltac:(zlia) Hfine) as Hlt.
    change (2 ^ 52 * 2 ^ (-52 + 1074)) with (2 ^ 1074) in Hlt. zlia.
  - rewrite (representable_units m e (-52)) in * by zlia.
    change (2 ^ (-52 + 1074)) with (2 * 2 ^ 1021) in *.
    set (k := m * 2 ^ (e - -52)) in *.
    change (2 ^ 1074) with (2 ^ 52 * (2 * 2 ^ 1021)) in *.
    assert (Hp : 0 < 2 ^ 1021) by (apply pow2_pos; zlia).
    remember (2 ^ 1021) as A eqn:EA. clear EA.
    assert (Hk : k = 2 ^ 52) by znia. rewrite Hk. reflexivity.
Qed.

(** Rounding to nearest: an exact value from [1] up to, but without,
    [1 + 2^-53] rounds to [1]. *)
Lemma rounds_near_one (P E v : Z) :
  0 <= P -> -1074 <= E -> E <= Z.max (Zdigits2 P + E - 53) (-1074) ->
  rounds P E v ->
  2 ^ 1074 <= P * 2 ^ (E + 1074) < 2 ^ 1074 + 2 ^ 1021 ->
  v = 2 ^ 1074.
Proof.
  intros HP HE Hal (M & HM & Hdown & ->) [Hlo Hhi].
  set (W := 2 ^ (E + 1074)) in *.
  assert (HW : 0 < W) by (apply pow2_pos; zlia).
  assert (H1074 : 0 < 2 ^ 1074) by now apply pow2_pos.
  assert (HP0 : 0 < P) by znia.
  assert (H1021 : 2 ^ 1021 < 2 ^ 1074) by reflexivity.
  assert (HE0 : E <= 0).
  { destruct (Z_le_gt_dec E 0) as [|Hbig]; [assumption|]. exfalso.
    assert (2 ^ 1075 <= W) by (apply Z.pow_le_mono_r; zlia).
    assert (H1075 : 2 ^ 1075 = 2 * 2 ^ 1074) by reflexivity. znia. }
  assert (Hdig : Zdigits2 P + E = 1).
  { assert (HWE : W * 2 ^ (- E) = 2 ^ 1074) by (unfold W; rewrite pow2_sum by zlia; f_equal; zlia).
    assert (HpE : 0 < 2 ^ (- E)) by (apply pow2_pos; zlia).
    assert (Hge : 2 ^ (- E) <= P).
    { apply (Z.mul_le_mono_pos_r _ _ W); [assumption|]. rewrite (Z.mul_comm (2 ^ (- E))), HWE. zlia. }
    assert (Hlt : P < 2 ^ (- E + 1)).
    { apply (Z.mul_lt_mono_pos_r W); [assumption|].
      rewrite Z.pow_add_r, Z.pow_1_r by zlia.
      replace (2 ^ (- E) * 2 * W) with (2 * (W * 2 ^ (- E))) by ring. rewrite HWE. zlia. }
    pose proof (Zdigits2_ge P (- E) Hge).
    pose proof (Zdigits2_le P (- E + 1) ltac:(zlia) ltac:(zlia)). zlia. }
  rewrite Hdig in *. change (Z.max (1 - 53) (-1074)) with (-52) in *.
  change (2 ^ (-52 + 1074)) with (2 ^ 1022) in *.
  set (n := -52 - E) in *.
  assert (Hn : 0 <= n) by (unfold n; zlia).
  assert (Hpn : 0 < 2 ^ n) by now apply pow2_pos.
  assert (HWn : W * 2 ^ n = 2 ^ 1022) by (unfold W, n; rewrite pow2_sum by zlia; f_equal; zlia).
  assert (H1 : 2 ^ 1074 = 2 ^ 52 * 2 ^ 1022) by reflexivity.
  assert (H2 : 2 ^ 1022 = 2 * 2 ^ 1021) by reflexivity.
  assert (Hp1021 : 0 < 2 ^ 1021) by now apply pow2_pos.
  assert (HPlo : 2 ^ 52 * 2 ^ n <= P).
  { apply (Z.mul_le_mono_pos_r _ _ W); [assumption|].
    replace (2 ^ 52 * 2 ^ n * W) with (2 ^ 52 * (W * 2 ^ n)) by ring.
    rewrite HWn, <- H1. exact Hlo. }
  assert (HPhi : 2 * P < (2 * 2 ^ 52 + 1) * 2 ^ n).
  { apply (Z.mul_lt_mono_pos_r W); [assumption|].
    replace ((2 * 2 ^ 52 + 1) * 2 ^ n * W) with ((2 * 2 ^ 52 + 1) * (W * 2 ^ n)) by ring.
    rewrite HWn. zlia. }
  assert (Hq : P / 2 ^ n = 2 ^ 52).
  { symmetry. apply Z.div_unique with (r := P - 2 ^ 52 * 2 ^ n); zlia. }
  assert (Hr : P mod 2 ^ n = P - 2 ^ 52 * 2 ^ n).
  { symmetry. apply Z.mod_unique with (q := 2 ^ 52); zlia. }
  rewrite Hq in *. assert (HMq : M = 2 ^ 52) by (apply Hdown; rewrite Hr; zlia).
  rewrite HMq. reflexivity.
Qed.

Lemma add_near_one (x y : float) :
  nonneg_finite x -> nonneg_finite y ->
  2 ^ 1074 <= tval x + tval y < 2 ^ 1074 + 2 ^ 1021 ->
  tval (x + y) = 2 ^ 1074.
Proof.
  intros Hx Hy Hsum.
  pose proof (nonneg_finite_representable x Hx) as Rx.
  pose proof (nonneg_finite_representable y Hy) as Ry.
  destruct (add_rounds x y Hx Hy)
    as [[E0 ->]|[[E0 ->]|(P & E & HP & HE & Hal & Hval & Hr)]].
  - apply representable_near_one; [exact Ry | zlia].
  - apply representable_near_one; [exact Rx | zlia].
  - eapply rounds_near_one; [exact HP | exact HE | exact Hal | exact Hr |].
    now rewrite Hval.
Qed.

(** Line 126 keeps a score within [0, 1] when the success rate is within
    [0, 1]. *)
Lemma trust_step_range (t r : float) :
  (0 <=? t)%float = true -> (t <=? 1)%float = true ->
  (0 <=? r)%float = true -> (r <=? 1)%float = true ->
  (0 <=? 0.9 * t + 0.1 * r)%float = true /\ (0.9 * t + 0.1 * r <=? 1)%float = true.
Proof.
  intros Ht0 Ht1 Hr0 Hr1.
  apply nonneg_tval in Ht0, Hr0.
  rewrite leb_tval in Ht1, Hr1 by (auto; vm_compute; discriminate).
  apply Z.leb_le in Ht1, Hr1.
  change (tval 1) with (2 ^ 1074) in *.
  assert (H2100 : 2 ^ 1074 < 2 ^ 2100) by reflexivity.
  assert (F9 : nonneg_finite 0.9%float) by (split; vm_compute; [discriminate | reflexivity]).
  assert (F1 : nonneg_finite 0.1%float) by (split; vm_compute; [discriminate | reflexivity]).
  assert (Fone : nonneg_finite 1%float) by (split; vm_compute; [discriminate | reflexivity]).
  assert (Ft : nonneg_finite t) by (split; zlia).
  assert (Fr : nonneg_finite r) by (split; zlia).
  assert (H9 : 0 < tval 0.9) by (vm_compute; reflexivity).
  assert (H1 : 0 < tval 0.1) by (vm_compute; reflexivity).
  destruct (mul_le 0.9%float t (tval 0.9) F9 Ft (nonneg_finite_representable _ F9))
    as [Ha0 Ha1].
  { apply Z.mul_le_mono_nonneg_l; zlia. }
  destruct (mul_le 0.1%float r (tval 0.1) F1 Fr (nonneg_finite_representable _ F1))
    as [Hb0 Hb1].
  { apply Z.mul_le_mono_nonneg_l; zlia. }
  assert (H9lt : tval 0.9 < 2 ^ 2100) by (vm_compute; reflexivity).
  assert (H1lt : tval 0.1 < 2 ^ 2100) by (vm_compute; reflexivity).
  assert (Fa : nonneg_finite (0.9 * t)%float) by (split; zlia).
  assert (Fb : nonneg_finite (0.1 * r)%float) by (split; zlia).
  assert (Hslack : tval 0.9 + tval 0.1 < 2 ^ 1074 + 2 ^ 1021) by (vm_compute; reflexivity).
  assert (Hs : 0 <= tval (0.9 * t + 0.1 * r)%float <= 2 ^ 1074).
  { destruct (Z_le_gt_dec (tval (0.9 * t)%float + tval (0.1 * r)%float) (2 ^ 1074)) as [Hle|Hgt].
    - apply (add_le _ _ (2 ^ 1074) Fa Fb (nonneg_finite_representable _ Fone)). exact Hle.
    - rewrite (add_near_one _ _ Fa Fb) by zlia. zlia. }
  split.
  - apply nonneg_tval. zlia.
  - rewrite leb_tval by (try zlia; vm_compute; discriminate).
    apply Z.leb_le. change (tval 1) with (2 ^ 1074). zlia.
Qed.

End FloatBounds.

(** ** Halving; the mean of line 115 *)

Section Halving.
Local Open Scope Z_scope.
Local Unset Implicit Arguments.

Lemma loc_of_shr_record_of_loc (m : Z) (l : location) :
  loc_of_shr_record (shr_record_of_loc m l) = l.
Proof. destruct l as [|[| |]]; reflexivity. Qed.

(** [binary_round_aux] at the step [2^-1074], where nothing is shifted
    out. *)
Lemma binary_round_aux_subnormal (P : Z) (l : location) :
  0 <= P < 2 ^ 53 ->
  fval (binary_round_aux prec emax false P (-1074) l) = round_nearest_even P l.
Proof.
  intros HP. unfold binary_round_aux.
  assert (HdP : Zdigits2 P <= 53) by (apply Zdigits2_le; zlia).
  destruct (shr_fexp_spec P (-1074) l ltac:(zlia)) as [Hle _].
  rewrite Hle by zlia. rewrite shr_m_of_loc, loc_of_shr_record_of_loc.
  pose proof (round_nearest_even_bounds P l) as HM.
  set (M := round_nearest_even P l) in *.
  destruct (shr_fexp_spec M (-1074) loc_Exact ltac:(zlia)) as [Hle2 Hgt2].
  destruct (Z_lt_le_dec M (2 ^ 53)) as [Hlt|Hge].
  - assert (Hd : Zdigits2 M <= 53) by (apply Zdigits2_le; zlia).
    rewrite Hle2 by zlia. rewrite shr_m_of_loc.
    destruct M as [|m|m]; try zlia; [reflexivity|].
    change (-1074 <=? emax - prec) with true.
    cbn [fval]. change (2 ^ (-1074 + 1074)) with 1. zlia.
  - assert (HMeq : M = 2 ^ 53) by zlia.
    assert (Hd : Zdigits2 M = 54) by (rewrite HMeq; reflexivity).
    destruct Hgt2 as (mrs2 & Hs2 & Hm2); [zlia|].
    rewrite Hs2, Hm2, Hd, HMeq. reflexivity.
Qed.

Lemma div_eucl_div_mod (a b : Z) : Z.div_eucl a b = (a / b, a mod b).
Proof. unfold Z.div, Z.modulo. now destruct (Z.div_eucl a b). Qed.

(** The quotient, exponent and location that [SFdiv] computes for a
    division by [2.0]. *)
Lemma SFdiv_core_two (mx : positive) (ex : Z) :
  bounded prec emax mx ex = true ->
  SFdiv_core_binary prec emax (Zpos mx) ex (2 ^ 52) (-51)
  = if -1072 <=? ex then (2 * Zpos mx, ex - 2, loc_Exact)
    else if ex =? -1073 then (Zpos mx, -1074, loc_Exact)
    else (Zpos mx / 2, -1074,
          if Z.even (Zpos mx) then loc_Exact else loc_Inexact Eq).
Proof.
  intros Hb. destruct (bounded_inv _ _ Hb) as (He & Hm & Hnorm & Hcan).
  unfold SFdiv_core_binary, fexp, emin, prec, emax.
  change (3 - 1024 - 53) with (-1074).
  change (Zdigits2 (2 ^ 52)) with 53. cbn [Zdigits2]. rewrite digits2_size.
  set (d := Zpos (Pos.size mx)) in *.
  rewrite div_eucl_div_mod.
  destruct (Z.leb_spec (-1072) ex) as [Hbig|Hsmall].
  - assert (Hd : d = 53) by zlia.
    replace (Z.min (Z.max (d + ex - (53 + -51) - 53) (-1074)) (ex - -51)) with (ex - 2) by zlia.
    replace (ex - -51 - (ex - 2)) with 53 by zlia.
    rewrite Z.shiftl_mul_pow2 by zlia.
    change (2 ^ 53) with (2 * 2 ^ 52). rewrite Z.mul_assoc.
    rewrite Z.div_mul, Z.mod_mul by zlia. rewrite (Z.mul_comm (Zpos mx) 2). reflexivity.
  - destruct (Z.eqb_spec ex (-1073)) as [->|Hne].
    + assert (Hd : d = 53) by zlia. rewrite Hd.
      change (Z.min (Z.max (53 + -1073 - (53 + -51) - 53) (-1074)) (-1073 - -51)) with (-1074).
      change (-1073 - -51 - -1074) with 52.
      rewrite Z.shiftl_mul_pow2 by zlia.
      rewrite Z.div_mul, Z.mod_mul by zlia. reflexivity.
    + assert (Hex : ex = -1074) by zlia. subst ex.
      assert (Hd : d <= 53) by zlia.
      replace (Z.min (Z.max (d + -1074 - (53 + -51) - 53) (-1074)) (-1074 - -51))
        with (-1074) by zlia.
      change (-1074 - -51 - -1074) with 51.
      rewrite Z.shiftl_mul_pow2 by zlia.
      change (2 ^ 52) with (2 * 2 ^ 51).
      rewrite Z.div_mul_cancel_r, Z.mul_mod_distr_r by zlia.
      rewrite Zmod_even. unfold new_location.
      change (Z.even (2 * 2 ^ 51)) with true. unfold new_location_even.
      destruct (Z.even (Zpos mx)); reflexivity.
Qed.

(** Halving: the result is half the number, up to the one unit of [2^-1074]
    that a tie at the bottom of the range is rounded by. *)
Lemma div2_range (x : float) :
  nonneg_finite x ->
  tval x - 1 <= 2 * tval (x / 2) <= tval x + 1.
Proof.
  intros Hx. unfold tval. rewrite div_spec. unfold SF64div.
  change (Prim2SF 2) with (S754_finite false (2 ^ 52) (-51)).
  destruct (nonneg_finite_cases x Hx) as [[sx Ex]|(mx & ex & Ex & Bx)];
    rewrite Ex; cbn [SFdiv fval xorb]; [zlia|].
  destruct (bounded_inv _ _ Bx) as (He & Hm & Hnorm & Hcan).
  change (Zpos (2 ^ 52)) with (2 ^ 52). rewrite (SFdiv_core_two mx ex Bx).
  destruct (Z.leb_spec (-1072) ex) as [Hbig|Hsmall].
  - (* the exponent goes down by one *)
    assert (HP : 2 ^ 53 <= 2 * Zpos mx < 2 ^ 54)
      by (specialize (Hnorm ltac:(zlia)); change (2 ^ 53) with (2 * 2 ^ 52);
          change (2 ^ 54) with (2 * 2 ^ 53); zlia).
    assert (Hd : Zdigits2 (2 * Zpos mx) = 54).
    { apply Z.le_antisymm; [apply Zdigits2_le; zlia | apply (Zdigits2_ge _ 53); zlia]. }
    assert (Hal : ex - 2 <= Z.max (Zdigits2 (2 * Zpos mx) + (ex - 2) - 53) (-1074))
      by (rewrite Hd; zlia).
    destruct (binary_round_aux_rounds (2 * Zpos mx) (ex - 2) ltac:(zlia) Hal)
      as (M & HM & Hdown & ->).
    rewrite Hd in *.
    replace (Z.max (54 + (ex - 2) - 53) (-1074)) with (ex - 1) in * by zlia.
    replace (ex - 1 - (ex - 2)) with 1 in * by zlia.
    change (2 ^ 1) with 2 in *.
    rewrite (Z.mul_comm 2 (Zpos mx)), Z.div_mul, Z.mod_mul in * by zlia.
    rewrite (Hdown ltac:(zlia)).
    set (U := 2 ^ (ex - 1 + 1074)).
    assert (HU : 0 < U) by (apply pow2_pos; zlia).
    assert (HV : 2 ^ (ex + 1074) = 2 * U).
    { unfold U. replace (ex + 1074) with (1 + (ex - 1 + 1074)) by zlia.
      rewrite (Z.pow_add_r 2 1 (ex - 1 + 1074)) by zlia. reflexivity. }
    assert (Hlt : Zpos mx * U < 2 ^ 2098).
    { assert (H2098 : 2 ^ 2098 = 2 ^ 53 * 2 ^ 2045) by reflexivity. rewrite H2098.
      apply Z.lt_le_trans with (2 ^ 53 * U).
      - apply Z.mul_lt_mono_pos_r; zlia.
      - apply Z.mul_le_mono_nonneg_l; [zlia|]. apply Z.pow_le_mono_r; zlia. }
    apply Z.ltb_lt in Hlt. rewrite Hlt, HV. zlia.
  - destruct (Z.eqb_spec ex (-1073)) as [->|Hne].
    + rewrite binary_round_aux_subnormal by zlia. cbn [round_nearest_even].
      change (2 ^ (-1073 + 1074)) with 2. zlia.
    + assert (Hex : ex = -1074) by zlia. subst ex.
      change (2 ^ (-1074 + 1074)) with 1.
      assert (Hq : 0 <= Zpos mx / 2 < 2 ^ 53).
      { split; [apply Z.div_pos; zlia|]. apply Z.div_lt_upper_bound; zlia. }
      rewrite binary_round_aux_subnormal by exact Hq.
      pose proof (Z_div_mod_eq_full (Zpos mx) 2) as Hdm.
      rewrite Zmod_even in Hdm.
      destruct (Z.even (Zpos mx)); cbn [round_nearest_even].
      * zlia.
      * destruct (Z.even (Zpos mx / 2)); zlia.
Qed.

(** The mean of two numbers lies within every range of binary64 bounds that
    holds both, as long as twice the upper bound is a binary64 number. *)
Lemma mean_range (x y : float) (lo hi : Z) :
  representable lo -> representable hi -> 0 <= lo -> hi < 2 ^ 2097 ->
  lo <= tval x <= hi -> lo <= tval y <= hi ->
  lo <= tval ((x + y) / 2) <= hi.
Proof.
  intros Rlo Rhi Hlo Hbig Hx Hy.
  assert (Hdouble : forall C, representable C -> C < 2 ^ 2097 -> representable (2 * C)).
  { intros C [->|(m & e & Hm & He & ->)] HC; [now left | right].
    destruct (Z_lt_le_dec e 971) as [Hlt|Hge].
    - exists m, (e + 1). repeat split; try zlia.
      replace (e + 1 + 1074) with (1 + (e + 1074)) by zlia.
      rewrite (Z.pow_add_r 2 1 (e + 1074)) by zlia. change (2 ^ 1) with 2. ring.
    - assert (e = 971) by zlia. subst e. change (2 ^ (971 + 1074)) with (2 ^ 2045) in *.
      assert (H2097 : 2 ^ 2097 = 2 ^ 52 * 2 ^ 2045) by reflexivity.
      assert (Hp : 0 < 2 ^ 2045) by now apply pow2_pos.
      rewrite H2097 in HC. apply Z.mul_lt_mono_pos_r in HC; [|assumption].
      exists (2 * m), 971. change (2 ^ 53) with (2 * 2 ^ 52).
      repeat split; zlia. }
  assert (H2097 : 2 ^ 2097 < 2 ^ 2100) by reflexivity.
  assert (Fx : nonneg_finite x) by (split; zlia).
  assert (Fy : nonneg_finite y) by (split; zlia).
  assert (H2098 : 2 * 2 ^ 2097 = 2 ^ 2098) by reflexivity.
  assert (H2100 : 2 ^ 2098 < 2 ^ 2100) by reflexivity.
  destruct (add_le x y (2 * hi) Fx Fy (Hdouble _ Rhi Hbig)) as [Hs0 Hs1]; [zlia|].
  pose proof (add_ge x y (2 * lo) Fx Fy (Hdouble _ Rlo ltac:(zlia)) ltac:(zlia)) as Hs2.
  assert (Fs : nonneg_finite (x + y)%float) by (split; zlia).
  pose proof (div2_range (x + y)%float Fs). zlia.
Qed.

End Halving.

(** ** Bounds on differences *)

Section Subtraction.
Local Open Scope Z_scope.
Local Unset Implicit Arguments.

(** The exact difference of two numbers, the first not the smaller. *)
Lemma sub_rounds (x y : float) :
  nonneg_finite x -> nonneg_finite y -> tval y <= tval x ->
  tval y = 0 /\ tval (x - y) = tval x
  \/ tval x = tval y /\ tval (x - y) = 0
  \/ exists P E,
       0 <= P /\ -1074 <= E /\ E <= Z.max (Zdigits2 P + E - 53) (-1074)
       /\ P * 2 ^ (E + 1074) = tval x - tval y
       /\ rounds P E (tval (x - y)).
Proof.
  intros Hx Hy Hle. unfold tval in *. rewrite sub_spec. unfold SF64sub.
  destruct (nonneg_finite_cases x Hx) as [[sx Ex]|(mx & ex & Ex & Bx)];
    destruct (nonneg_finite_cases y Hy) as [[sy Ey]|(my & ey & Ey & By)];
    rewrite Ex, Ey in *; cbn [fval] in *.
  - left. destruct sx, sy; cbn; auto.
  - exfalso. destruct (bounded_inv _ _ By) as (Hey & _).
    assert (0 < 2 ^ (ey + 1074)) by (apply pow2_pos; zlia). znia.
  - left. cbn [SFsub fval]. auto.
  - destruct (SFsub_rounds mx ex my ey Bx By Hle) as [[He Hz]|HR].
    + right. left. auto.
    + right. right. exact HR.
Qed.

(** A difference does not exceed a binary64 number that the exact difference
    does not exceed, and is not below one that the exact difference is not
    below. *)
Lemma sub_le (x y : float) (C : Z) :
  nonneg_finite x -> nonneg_finite y -> tval y <= tval x -> representable C ->
  tval x - tval y <= C ->
  0 <= tval (x - y) <= C.
Proof.
  intros Hx Hy Hyx HC Hle.
  assert (H1074 : 0 < 2 ^ 1074) by now apply pow2_pos.
  destruct (sub_rounds x y Hx Hy Hyx)
    as [[E0 ->]|[[E0 ->]|(P & E & HP & HE & Hal & Hval & Hr)]].
  - destruct Hx. zlia.
  - zlia.
  - split.
    + eapply rounds_nonneg; [exact HP | exact Hal | exact Hr].
    + eapply rounds_upper; [exact HP | | exact Hal | exact Hr | exact HC |]; [zlia|].
      rewrite (scaled_sum P E _ HE Hval).
      apply Z.mul_le_mono_nonneg_r; zlia.
Qed.

Lemma sub_ge (x y : float) (C : Z) :
  nonneg_finite x -> nonneg_finite y -> tval y <= tval x -> representable C ->
  C <= tval x - tval y ->
  C <= tval (x - y).
Proof.
  intros Hx Hy Hyx HC Hle.
  assert (H1074 : 0 < 2 ^ 1074) by now apply pow2_pos.
  destruct (sub_rounds x y Hx Hy Hyx)
    as [[E0 ->]|[[E0 ->]|(P & E & HP & HE & Hal & Hval & Hr)]]; try zlia.
  eapply rounds_lower; [exact HP | | exact Hal | exact Hr | exact HC |]; [zlia|].
  rewrite (scaled_sum P E _ HE Hval).
  apply Z.mul_le_mono_nonneg_r; zlia.
Qed.

(** What is missing from a number of at least a half up to [1] is a
    binary64 number. *)
Lemma representable_complement (V : Z) :
  representable V -> 2 ^ 1073 <= V <= 2 ^ 1074 -> representable (2 ^ 1074 - V).
Proof.
  intros [->|(m & e & Hm & He & ->)] HV; [exfalso; pose proof (pow2_pos 1073); zlia|].
  destruct (Z.eq_dec (m * 2 ^ (e + 1074)) (2 ^ 1074)) as [Heq|Hne]; [left; zlia | right].
  assert (He53 : -53 <= e).
  { destruct (Z_lt_le_dec e (-53)) as [Hlt|]; [exfalso | assumption].
    pose proof (representable_below m e (-53) Hm ltac:(zlia) Hlt) as Hb.
    change (2 ^ 52 * 2 ^ (-53 + 1074)) with (2 ^ 1073) in Hb. zlia. }
  assert (He0 : e <= 0).
  { destruct (Z_le_gt_dec e 0) as [|Hbig]; [assumption | exfalso].
    assert (2 ^ 1075 <= 2 ^ (e + 1074)) by (apply Z.pow_le_mono_r; zlia).
    assert (H1075 : 2 ^ 1075 = 2 * 2 ^ 1074) by reflexivity.
    assert (0 < 2 ^ 1074) by now apply pow2_pos. znia. }
  assert (HU : 0 < 2 ^ (e + 1074)) by (apply pow2_pos; zlia).
  assert (Hone : 2 ^ 1074 = 2 ^ (- e) * 2 ^ (e + 1074))
    by (rewrite pow2_sum by zlia; f_equal; zlia).
  assert (Hpe : 2 ^ (- e) <= 2 ^ 53) by (apply Z.pow_le_mono_r; zlia).
  exists (2 ^ (- e) - m), e. rewrite Z.mul_sub_distr_r, <- Hone.
  repeat split; try zlia; znia.
Qed.

End Subtraction.

(** ** The update of line 96 on values within [0, 1] *)

Section QUpdate.
Local Open Scope Z_scope.
Local Unset Implicit Arguments.

(** Line 96 with the reward [1] of line 68 and [next_max = 0]: a value
    within [0, 1] does not go down and stays within [0, 1]. *)
Lemma q_update_range (v : float) :
  (0 <=? v)%float = true -> (v <=? 1)%float = true ->
  (v <=? q_update v 1 0)%float = true /\ (q_update v 1 0 <=? 1)%float = true.
Proof.
  intros Hv0 Hv1. unfold q_update, learning_rate, discount_factor.
  change (1 + 0.95 * 0)%float with 1%float.
  apply nonneg_tval in Hv0.
  rewrite leb_tval in Hv1 by (auto; vm_compute; discriminate).
  apply Z.leb_le in Hv1. change (tval 1) with (2 ^ 1074) in *.
  assert (H2100 : 2 ^ 1074 < 2 ^ 2100) by reflexivity.
  assert (Fone : nonneg_finite 1%float) by (split; vm_compute; [discriminate | reflexivity]).
  assert (F6 : nonneg_finite 0.6%float) by (split; vm_compute; [discriminate | reflexivity]).
  assert (Fv : nonneg_finite v) by (split; zlia).
  pose proof (nonneg_finite_representable v Fv) as Rv.
  pose proof (nonneg_finite_representable _ Fone) as Rone.
  change (tval 1) with (2 ^ 1074) in Rone.
  assert (H34 : representable (3 * 2 ^ 1072)).
  { right. exists 3, (-2). repeat split; try zlia; reflexivity. }
  assert (H12 : representable (2 ^ 1073)).
  { right. exists 1, (-1). repeat split; try zlia; reflexivity. }
  assert (E1074 : 2 ^ 1074 = 4 * 2 ^ 1072) by reflexivity.
  assert (E1073 : 2 ^ 1073 = 2 * 2 ^ 1072) by reflexivity.
  assert (Hp1072 : 0 < 2 ^ 1072) by now apply pow2_pos.
  assert (H6a : 0 < tval 0.6) by (vm_compute; reflexivity).
  assert (H6b : tval 0.6 * 3 <= 2 * 2 ^ 1074) by (vm_compute; discriminate).
  assert (H6c : tval 0.6 <= 3 * 2 ^ 1072) by (vm_compute; discriminate).
  assert (Hone : tval 1 = 2 ^ 1074) by reflexivity.
  (* the product [0.6 * (1 - v)] is at most what is missing up to [1] *)
  assert (Hp : 0 <= tval (0.6 * (1 - v))%float /\ tval v + tval (0.6 * (1 - v))%float <= 2 ^ 1074).
  { destruct (Z_le_gt_dec (2 ^ 1073) (tval v)) as [Hhalf|Hsmall].
    - pose proof (representable_complement (tval v) Rv ltac:(zlia)) as Rd.
      destruct (sub_le 1%float v (2 ^ 1074 - tval v) Fone Fv ltac:(rewrite Hone; zlia) Rd
                  ltac:(rewrite Hone; zlia)) as [Hd0 Hd1].
      assert (Fd : nonneg_finite (1 - v)%float) by (split; zlia).
      destruct (mul_le 0.6%float (1 - v)%float (2 ^ 1074 - tval v) F6 Fd Rd) as [Hm0 Hm1].
      { rewrite E1074 in *.
        remember (2 ^ 1072) as A eqn:EA. clear EA.
        remember (tval 0.6) as S eqn:ES. clear ES.
        remember (tval (1 - v)%float) as D eqn:ED. clear ED.
        remember (tval v) as V eqn:EV. clear EV. znia. }
      zlia.
    - destruct (sub_le 1%float v (2 ^ 1074) Fone Fv ltac:(rewrite Hone; zlia) Rone
                  ltac:(rewrite Hone; zlia)) as [Hd0 Hd1].
      assert (Fd : nonneg_finite (1 - v)%float) by (split; zlia).
      destruct (Z_le_gt_dec (2 ^ 1072) (tval v)) as [Hquarter|Htiny].
      + destruct (sub_le 1%float v (3 * 2 ^ 1072) Fone Fv ltac:(rewrite Hone; zlia) H34
                    ltac:(rewrite Hone; zlia)) as [_ Hd2].
        destruct (mul_le 0.6%float (1 - v)%float (2 ^ 1073) F6 Fd H12) as [Hm0 Hm1].
        { rewrite E1073, E1074 in *.
          remember (2 ^ 1072) as A eqn:EA. clear EA.
          remember (tval 0.6) as S eqn:ES. clear ES.
          remember (tval (1 - v)%float) as D eqn:ED. clear ED.
          remember (tval v) as V eqn:EV. clear EV. znia. }
        zlia.
      + destruct (mul_le 0.6%float (1 - v)%float (3 * 2 ^ 1072) F6 Fd H34) as [Hm0 Hm1].
        { rewrite E1074 in *.
          remember (2 ^ 1072) as A eqn:EA. clear EA.
          remember (tval 0.6) as S eqn:ES. clear ES.
          remember (tval (1 - v)%float) as D eqn:ED. clear ED.
          remember (tval v) as V eqn:EV. clear EV. znia. }
        zlia. }
  destruct Hp as [Hp0 Hp1].
  assert (Fp : nonneg_finite (0.6 * (1 - v))%float) by (split; zlia).
  destruct (add_le v (0.6 * (1 - v))%float (2 ^ 1074) Fv Fp Rone Hp1) as [Hr0 Hr1].
  pose proof (add_ge v (0.6 * (1 - v))%float (tval v) Fv Fp Rv ltac:(zlia)) as Hr2.
  split.
  - rewrite leb_tval by zlia. now apply Z.leb_le.
  - rewrite leb_tval by (try zlia; vm_compute; discriminate).
    apply Z.leb_le. change (tval 1) with (2 ^ 1074). zlia.
Qed.

End QUpdate.

(** ** Tables whose values lie within a range *)

Section Ranges.
Local Unset Implicit Arguments.

Lemma leb_nonneg (a b : float) :
  (0 <= tval a)%Z -> (a <=? b)%float = true -> (tval a <= tval b)%Z.
Proof.
  intros Ha Hab.
  assert (Hb : (0 <= tval b)%Z).
  { revert Ha Hab. rewrite leb_spec. unfold tval.
    destruct (Prim2SF a) as [sa|[|]| |[|] ma ea], (Prim2SF b) as [sb|[|]| |[|] mb eb];
      cbn [fval SFleb SFcompare]; intros Ha Hab; try zlia; try discriminate;
      try (destruct sa; discriminate).
    all: apply Z.mul_nonneg_nonneg; [zlia | apply Z.pow_nonneg; zlia]. }
  rewrite leb_tval in Hab by assumption. now apply Z.leb_le.
Qed.

Lemma ltb_tval (t u : float) :
  (0 <= tval t)%Z -> (0 <= tval u)%Z -> (t <? u)%float = (tval t <? tval u)%Z.
Proof.
  intros Ht Hu. rewrite ltb_spec. unfold SFltb, tval in *.
  rewrite SFcompare_fval by (auto using Prim2SF_valid).
  unfold Z.ltb. now destruct (fval (Prim2SF t) ?= fval (Prim2SF u))%Z.
Qed.

(** Line 115 keeps the mean within every range of numbers from [0] to below
    [2^1023] that holds the two values. *)
Lemma mean_within (lo hi x y : float) :
  (0 <=? lo)%float = true -> (hi <? 0x1p1023)%float = true ->
  within lo hi x -> within lo hi y -> within lo hi ((x + y) / 2)%float.
Proof.
  intros Hlo Hhi [Hx0 Hx1] [Hy0 Hy1].
  apply nonneg_tval in Hlo.
  pose proof (leb_nonneg _ _ Hlo Hx0) as Lx.
  pose proof (leb_nonneg _ _ Hlo Hy0) as Ly.
  pose proof (leb_nonneg x hi ltac:(zlia) Hx1) as Ux.
  pose proof (leb_nonneg y hi ltac:(zlia) Hy1) as Uy.
  rewrite ltb_tval in Hhi by (try zlia; vm_compute; discriminate).
  apply Z.ltb_lt in Hhi. change (tval 0x1p1023) with (2 ^ 2097)%Z in Hhi.
  assert (H2097 : (2 ^ 2097 < 2 ^ 2100)%Z) by reflexivity.
  assert (Flo : nonneg_finite lo) by (split; zlia).
  assert (Fhi : nonneg_finite hi) by (split; zlia).
  pose proof (mean_range x y (tval lo) (tval hi)
                (nonneg_finite_representable _ Flo) (nonneg_finite_representable _ Fhi)
                Hlo Hhi ltac:(zlia) ltac:(zlia)) as Hm.
  split; rewrite leb_tval by zlia; apply Z.leb_le; zlia.
Qed.

Lemma within_unit_zero : within 0 1 0%float.
Proof. split; reflexivity. Qed.

Lemma table_within_nil (lo hi : float) : table_within lo hi [].
Proof. intros src dst a v H. discriminate H. Qed.

Lemma table_within_deref (lo hi : float) (st : list table) (r : ref) :
  Forall (table_within lo hi) st -> table_within lo hi (deref st r).
Proof.
  intros Hst. unfold deref. destruct (nth_in_or_default r st []) as [Hin | ->].
  - rewrite Forall_forall in Hst. auto.
  - apply table_within_nil.
Qed.

Lemma table_within_local (lo hi : float) (s : state) (dp : dpid) :
  Forall (table_within lo hi) (store s) -> table_within lo hi (local_table s dp).
Proof.
  intros Hs. unfold local_table. destruct (dget dp (q_values s)).
  - now apply table_within_deref.
  - apply table_within_nil.
Qed.

Lemma table_within_init_flow (lo hi : float) (g : table) (src dst : addr) (rnd : float) :
  within lo hi rnd -> table_within lo hi g -> table_within lo hi (init_flow g src dst rnd).
Proof.
  intros Hr Hg src' dst' a v E.
  apply lookup3_init_flow in E. destruct E as [E|(_ & _ & _ & -> & _)]; [|exact Hr].
  apply (Hg src' dst' a v E).
Qed.

Lemma table_within_ensure_flow (lo hi : float) (t : table) (src dst : addr) :
  table_within lo hi t -> table_within lo hi (ensure_flow t src dst).
Proof.
  intros Ht src' dst' a v. rewrite lookup3_ensure_flow. apply Ht.
Qed.

(** A value found after [t[src][dst][act] = v] is [v] or was there. *)
Lemma lookup3_store_q_cases (t : table) (src dst : addr) (act : action) (v : float)
  (src' dst' : addr) (a : action) (v' : float) :
  lookup3 (store_q t src dst act v) src' dst' a = Some v' ->
  v' = v \/ lookup3 t src' dst' a = Some v'.
Proof.
  destruct (string_dec src' src) as [->|Hs];
    [|rewrite lookup3_store_q_other by congruence; auto].
  destruct (string_dec dst' dst) as [->|Hd];
    [|rewrite lookup3_store_q_other by congruence; auto].
  destruct (Z.eq_dec a act) as [->|Ha];
    [|rewrite lookup3_store_q_other by congruence; auto].
  unfold lookup3, store_q. unfold dget_or at 2 4. rewrite dget_dupd, keqb_refl.
  destruct (dget src t) as [rw|]; cbn [option_map]; [|auto].
  unfold dget_or. rewrite dget_dupd, keqb_refl.
  destruct (dget dst rw) as [e|]; cbn [option_map]; [|auto].
  rewrite dget_dset_same. intros [= <-]. auto.
Qed.

Lemma table_within_store_q (lo hi : float) (t : table) (src dst : addr) (act : action)
  (v : float) :
  within lo hi v -> table_within lo hi t -> table_within lo hi (store_q t src dst act v).
Proof.
  intros Hv Ht src' dst' a v' E.
  apply lookup3_store_q_cases in E. destruct E as [->|E]; [exact Hv|].
  apply (Ht src' dst' a v' E).
Qed.

Lemma table_within_fold_merge_src (lo hi : float) (lt g : table) :
  (0 <=? lo)%float = true -> (hi <? 0x1p1023)%float = true ->
  table_ok lt -> table_within lo hi lt -> table_within lo hi g ->
  table_within lo hi (fold_left merge_src lt g).
Proof.
  intros Hlo Hhi Hok Hl Hg src dst a v. rewrite lookup3_fold_merge_src by assumption.
  destruct (lookup3 lt src dst a) as [x|] eqn:E; [|apply Hg].
  unfold merge1. destruct (lookup3 g src dst a) as [y|] eqn:Eg; intros [= <-].
  - apply mean_within; eauto.
  - eauto.
Qed.

Lemma table_within_aggregate_fold (lo hi : float) (g : ref) (l : dict dpid ref)
  (st : list table) :
  (0 <=? lo)%float = true -> (hi <? 0x1p1023)%float = true ->
  Forall table_ok st -> Forall (table_within lo hi) st ->
  Forall (table_within lo hi) (fold_left (aggregate_dp g) l st).
Proof.
  intros Hlo Hhi. revert st. induction l as [|dr l IH]; intros st Hok Hst; simpl; auto.
  apply IH; unfold aggregate_dp; apply Forall_write; auto.
  - now apply table_ok_fold_merge_src, table_ok_deref.
  - apply table_within_fold_merge_src; auto using table_ok_deref, table_within_deref.
Qed.

Lemma table_within_redistribute_fold (lo hi : float) (dps : list dpid) (s : state) :
  Forall (table_within lo hi) (store s) ->
  Forall (table_within lo hi) (store (fold_left redistribute_dp dps s)).
Proof.
  revert s. induction dps as [|dp dps IH]; intros s Hs; simpl; auto.
  apply IH. unfold redistribute_dp. simpl. apply Forall_app. split; auto.
  constructor; [now apply table_within_deref | constructor].
Qed.

Lemma table_within_update_local_q_table (s : state) (dp : dpid) (src dst : addr)
  (act : action) :
  Forall (table_within 0 1) (store s) ->
  Forall (table_within 0 1)
    (store (state_of (update_local_q_table s dp src dst act 1%float))).
Proof.
  intros Hs. unfold update_local_q_table.
  assert (Hs1 : Forall (table_within 0 1) (store (snd (ensure_datapath s dp)))).
  { unfold ensure_datapath. destruct (dget dp (q_values s)); simpl; auto.
    apply Forall_app. split; auto. constructor; [apply table_within_nil | constructor]. }
  destruct (ensure_datapath s dp) as [r s1]. simpl in Hs1.
  set (t := ensure_flow (deref (store s1) r) src dst).
  assert (Ht : table_within 0 1 t)
    by now apply table_within_ensure_flow, table_within_deref.
  destruct (dvalues (dget_or dst [] t)) as [|e [|e' es]]; cbn [py_max_default]; simpl;
    repeat apply Forall_write; auto.
  apply table_within_store_q; [|exact Ht].
  assert (Hold : within 0 1 (dget_or act 0%float (dget_or dst [] (dget_or src [] t)))).
  { unfold dget_or at 1.
    destruct (dget act (dget_or dst [] (dget_or src [] t))) as [v|] eqn:E.
    - apply (Ht src dst act v E).
    - apply within_unit_zero. }
  destruct Hold as [H0 H1]. destruct (q_update_range _ H0 H1) as [Hup Hle].
  split; [|exact Hle].
  apply nonneg_tval. apply nonneg_tval in H0.
  pose proof (leb_nonneg _ _ H0 Hup). zlia.
Qed.

Lemma table_within_packet_in_handler (s : state) (dp : dpid) (src dst : addr)
  (rnd : float) (aggregate : bool) :
  wf s -> within 0 1 rnd -> Forall (table_within 0 1) (store s) ->
  Forall (table_within 0 1)
    (store (state_of (packet_in_handler s dp src dst rnd aggregate))).
Proof.
  intros Hwf Hr Hs. unfold packet_in_handler.
  pose proof (wf_federated_decision src dst rnd Hwf) as Hwf1.
  pose proof (federated_decision_state s src dst rnd) as Hst.
  assert (Hs1 : Forall (table_within 0 1)
                  (store (state_of (federated_decision s src dst rnd)))).
  { rewrite Hst. simpl. apply Forall_write; auto.
    apply table_within_init_flow; [exact Hr|]. unfold global_table.
    now apply table_within_deref. }
  destruct (federated_decision s src dst rnd) as [act s1|e s1] eqn:Ed; simpl in *; auto.
  pose proof (wf_update_local_q_table dp src dst act 1%float Hwf1) as Hwf2.
  pose proof (table_within_update_local_q_table s1 dp src dst act Hs1) as Hs2.
  destruct (update_local_q_table s1 dp src dst act 1%float) as [[] s2|e s2];
    simpl in *; auto.
  destruct aggregate; auto.
  unfold redistribute_global_model. apply table_within_redistribute_fold.
  unfold aggregate_global_q_values. simpl.
  apply table_within_aggregate_fold; auto. apply (wf_tables Hwf2).
Qed.

Lemma table_within_run (evs : list event) (s : state) :
  served s -> Forall unit_draw evs -> Forall (table_within 0 1) (store s) ->
  Forall (table_within 0 1) (store (snd (run s evs))).
Proof.
  revert s. induction evs as [|ev evs IH]; intros s Hsv Hd Hs; simpl; auto.
  inversion Hd as [|ev' evs' Hev Hevs]; subst.
  pose proof (served_dispatch ev Hsv) as Hsv1.
  assert (Hs1 : Forall (table_within 0 1) (store (snd (dispatch s ev)))).
  { destruct ev as [dp|msg rnd u]; simpl; auto.
    pose proof (packet_in_handler_msg_state s msg rnd u) as Hst.
    destruct (packet_in_handler_msg s msg rnd u) as [out o]. simpl in *. subst o.
    destruct (msg_eth msg) as [[src dst]|]; simpl; auto.
    apply table_within_packet_in_handler; auto.
    apply (decided_wf (decided_served Hsv)). }
  destruct (dispatch s ev) as [out s1]. simpl in *.
  specialize (IH s1 Hsv1 Hevs Hs1).
  destruct (run s1 evs) as [out' s2]. simpl in *. exact IH.
Qed.

End Ranges.

Section RangeFacts.
Local Unset Implicit Arguments.

Lemma lookup3_table_values (t : table) (src dst : addr) (a : action) (v : float) :
  lookup3 t src dst a = Some v -> In v (table_values t).
Proof.
  unfold lookup3, dget_or. intros E.
  destruct (dget src t) as [rw|] eqn:Es; [|discriminate].
  destruct (dget dst rw) as [e|] eqn:Ed; [|discriminate].
  apply dget_In in Es, Ed, E. unfold table_values.
  apply in_flat_map. exists (src, rw). split; [exact Es|].
  apply in_flat_map. exists (dst, e). split; [exact Ed|].
  unfold dvalues. cbn [snd]. change v with (snd (a, v)). now apply in_map.
Qed.

Lemma table_within_check (lo hi : float) (t : table) :
  table_within_b lo hi t = true -> table_within lo hi t.
Proof.
  unfold table_within_b. rewrite forallb_forall. intros H src dst a v E.
  apply lookup3_table_values, H, andb_true_iff in E. exact E.
Qed.

Lemma store_within_check (lo hi : float) (st : list table) :
  forallb (table_within_b lo hi) st = true -> Forall (table_within lo hi) st.
Proof.
  rewrite forallb_forall, Forall_forall. intros H t Hin.
  now apply table_within_check, H.
Qed.

Lemma In_local_values (s : state) (src dst : addr) (a : action) (v : float) :
  wf s -> In v (local_values s src dst a) ->
  exists dp, lookup3 (local_table s dp) src dst a = Some v.
Proof.
  intros Hwf. unfold local_values, reported. rewrite in_flat_map.
  intros ([dp r] & Hin & Hv). cbn [snd] in Hv. exists dp. unfold local_table.
  apply In_dget in Hin; [|apply (wf_datapaths Hwf)]. rewrite Hin.
  destruct (lookup3 (deref (store s) r) src dst a) as [x|]; [|now elim Hv].
  destruct Hv as [->|[]]. reflexivity.
Qed.

Lemma fold_merge1_within (lo hi : float) (l : list float) (g : option float) (v : float) :
  (0 <=? lo)%float = true -> (hi <? 0x1p1023)%float = true ->
  Forall (within lo hi) l -> (forall x, g = Some x -> within lo hi x) ->
  fold_left merge1 l g = Some v -> within lo hi v.
Proof.
  intros Hlo Hhi Hl. revert g. induction Hl as [|y l Hy Hl IH]; intros g Hg; simpl.
  - apply Hg.
  - apply IH. unfold merge1. intros x [= <-]. destruct g as [x|]; [|exact Hy].
    apply mean_within; auto.
Qed.

End RangeFacts.

(** * Part III: the properties of the specification *)

(** ** Totality of the core operations *)

(** C1: the update is not total.  After the packet [host1 -> host2] has
    been learned at a switch, [host1] is a source key of its table; the
    update for the reply [host2 -> host1] at the same switch raises
    [TypeError]. *)
Theorem update_raises_on_reply :
  exists s1 s2,
    update_local_q_table init dp1 host1 host2 OFPP_FLOOD 1%float = Return tt s1
    /\ dmem host1 (local_table s1 dp1) = true
    /\ update_local_q_table s1 dp1 host2 host1 OFPP_FLOOD 1%float = Raise TypeError s2.
Proof. do 2 eexists. repeat split; reflexivity. Qed.

(** The same at the level of the handler: the first packet of a host pair
    is served, the handling of the reply raises. *)
Example reply_packet_raises :
  exists s1 s2,
    packet_in_handler init dp1 host1 host2 0.5%float false = Return tt s1
    /\ packet_in_handler s1 dp1 host2 host1 0.25%float false = Raise TypeError s2.
Proof. do 2 eexists. split; reflexivity. Qed.

(** X1: the update raises [TypeError] whenever the next-state lookup of
    line 95 finds something: when the destination equals the source, and
    when the destination is a source key of the datapath's table with a row
    that is not empty; [max] then ranges over dictionaries. *)
Theorem update_raises_when_next_state_exists (s : state) (dp : dpid)
  (src dst : addr) (act : action) (reward : float) :
  wf s -> dst = src \/ dvalues (dget_or dst [] (local_table s dp)) <> [] ->
  exists s', update_local_q_table s dp src dst act reward = Raise TypeError s'.
Proof.
  intros Hwf Hnext. unfold update_local_q_table.
  destruct (ensure_datapath s dp) as [r s1] eqn:E.
  destruct (ensure_datapath_spec _ Hwf E)
    as (Hq & Hr & _ & Ht & _ & _ & _ & _ & _).
  assert (Hvals : dvalues (dget_or dst [] (ensure_flow (deref (store s1) r) src dst)) <> []).
  { destruct (string_dec dst src) as [->|Hne].
    - apply ensure_flow_row_nonempty.
    - rewrite (ensure_flow_other_row _ _ Hne), Ht. tauto. }
  revert Hvals.
  generalize (dvalues (dget_or dst [] (ensure_flow (deref (store s1) r) src dst))).
  intros [|e [|e' es]] Hvals; [now elim Hvals | |]; simpl; eauto.
Qed.

(** On a fresh controller, a flow from [host1] to itself. *)
Lemma update_raises_when_next_state_exists_witness :
  wf init
  /\ (host1 = host1 \/ dvalues (dget_or host1 [] (local_table init dp1)) <> [])
  /\ exists s', update_local_q_table init dp1 host1 host1 port3 1%float
                = Raise TypeError s'.
Proof.
  assert (Hd : host1 = host1 \/ dvalues (dget_or host1 [] (local_table init dp1)) <> [])
    by (left; reflexivity).
  exact (conj wf_init
           (conj Hd (@update_raises_when_next_state_exists init dp1 host1 host1 port3
                       1%float wf_init Hd))).
Defined.

(** ** Provenance of the global table *)

(** C2, as the code has it: a value of the global table is written by the
    aggregation, which copies a local value into an absent key or averages
    the stored value with a local one, or by [federated_decision], which
    gives the flood action of a flow without entry a random value.  The
    update of a local table, the redistribution and the trust update leave
    the global table as it is. *)
Theorem global_values_provenance (s : state) :
  wf s ->
  (forall dp src dst act reward,
      global_table (state_of (update_local_q_table s dp src dst act reward))
      = global_table s)
  /\ global_table (redistribute_global_model s) = global_table s
  /\ (forall node rate, global_table (update_trust s node rate) = global_table s)
  /\ (forall src dst rnd src' dst' a v,
        lookup3 (global_table (state_of (federated_decision s src dst rnd))) src' dst' a
        = Some v ->
        lookup3 (global_table s) src' dst' a = Some v
        \/ (src' = src /\ dst' = dst /\ a = OFPP_FLOOD /\ v = rnd
            /\ dget dst (dget_or src [] (global_table s)) = None))
  /\ (forall src dst a v,
        lookup3 (global_table (aggregate_global_q_values s)) src dst a = Some v ->
        merged s src dst a v).
Proof.
  intros Hwf. repeat split.
  - intros. now apply update_local_q_table_frame.
  - now apply redistribute_fold_global.
  - intros src dst rnd src' dst' a v.
    rewrite federated_decision_global by assumption. apply lookup3_init_flow.
  - intros src dst a v Hv.
    pose proof (@merged_fold s src dst a (local_values s src dst a)
                  (lookup3 (global_table s) src dst a) (incl_refl _)) as Hm.
    assert (Hagg : lookup3 (global_table (aggregate_global_q_values s)) src dst a
                   = fold_left merge1 (local_values s src dst a)
                       (lookup3 (global_table s) src dst a)).
    { unfold global_table, aggregate_global_q_values, local_values. simpl.
      apply lookup3_aggregate_fold;
        [apply (wf_global Hwf) | now apply wf_global_not_local | apply (wf_tables Hwf)]. }
    rewrite <- Hagg, Hv in Hm.
    apply Hm. destruct (lookup3 (global_table s) src dst a) eqn:E; auto.
    now apply merged_kept.
Qed.

(** The two reports: every value the aggregation leaves in the global table
    is accounted for. *)
Lemma global_values_provenance_witness :
  wf two_reports
  /\ (forall src dst a v,
        lookup3 (global_table (aggregate_global_q_values two_reports)) src dst a = Some v ->
        merged two_reports src dst a v).
Proof.
  pose proof (wf_reachable two_reports_reachable) as Hwf.
  split; [exact Hwf | apply (global_values_provenance Hwf)].
Defined.

(** C2 as stated fails: on the first packet of a flow [federated_decision]
    writes a value into the global table that no local table holds (there is
    no local table at all) and that no aggregation produced. *)
Lemma decision_writes_global_table :
  let s1 := state_of (federated_decision init host1 host2 0.5%float) in
  q_values s1 = []
  /\ lookup3 (global_table init) host1 host2 OFPP_FLOOD = None
  /\ lookup3 (global_table s1) host1 host2 OFPP_FLOOD = Some 0.5%float
  /\ ~ merged init host1 host2 OFPP_FLOOD 0.5%float.
Proof.
  cbv zeta. repeat split.
  assert (Hnone : forall v, ~ merged init host1 host2 OFPP_FLOOD v).
  { intros v Hm. induction Hm as [g Hg|v Hnone Hin|g v Hm IH Hin].
    - discriminate Hg.
    - exact Hin.
    - exact Hin. }
  apply Hnone.
Qed.

(** ** The Q-learning update *)

(** C3, as the code has it: the value [update_local_q_table] reads is the
    one the datapath's own table holds for the action, [0] when it holds
    none; with reward [1] and no next-state entry the stored value is
    [v + 0.6 * (1 + 0.95 * 0 - v)] for that [v]. *)
Theorem q_update_from_local_value (s : state) (dp : dpid) (src dst : addr)
  (act : action) :
  wf s -> dst <> src -> dget_or dst [] (local_table s dp) = [] ->
  exists s',
    update_local_q_table s dp src dst act 1%float = Return tt s'
    /\ lookup3 (local_table s' dp) src dst act
       = Some (let v := match lookup3 (local_table s dp) src dst act with
                        | Some v => v
                        | None => 0%float
                        end
               in (v + 0.6 * (1 + 0.95 * 0 - v))%float).
Proof.
  intros Hwf Hne Hnext. unfold update_local_q_table.
  destruct (ensure_datapath s dp) as [r s1] eqn:E.
  destruct (ensure_datapath_spec _ Hwf E)
    as (Hq & Hr & _ & Ht & _ & _ & _ & _ & _).
  rewrite (ensure_flow_other_row _ _ Hne), ensure_flow_entry, Ht, Hnext. simpl.
  eexists. split; [reflexivity|].
  unfold local_table. simpl. rewrite Hq, write_write, deref_write_same by assumption.
  destruct (ensure_flow_mem (local_table s dp) src dst) as [Hs Hd].
  now apply lookup3_store_q.
Qed.

(** A local value that stems from the random one: the first packet of the
    flow, then an aggregation and a redistribution. *)
Lemma q_update_from_local_value_witness :
  let s := redistribute_global_model
             (aggregate_global_q_values
                (state_of (update_local_q_table
                             (state_of (federated_decision init host1 host2 0.5%float))
                             dp1 host1 host2 OFPP_FLOOD 1%float))) in
  wf s
  /\ host2 <> host1
  /\ dget_or host2 [] (local_table s dp1) = []
  /\ lookup3 (local_table s dp1) host1 host2 OFPP_FLOOD = Some 0.55%float
  /\ exists s',
       update_local_q_table s dp1 host1 host2 OFPP_FLOOD 1%float = Return tt s'
       /\ lookup3 (local_table s' dp1) host1 host2 OFPP_FLOOD
          = Some (0.55 + 0.6 * (1 + 0.95 * 0 - 0.55))%float.
Proof.
  set (s := redistribute_global_model _).
  assert (Hwf : wf s).
  { apply wf_redistribute_global_model, wf_aggregate_global_q_values,
      wf_update_local_q_table, wf_federated_decision, wf_init. }
  assert (Hne : host2 <> host1) by discriminate.
  assert (Hnext : dget_or host2 [] (local_table s dp1) = []) by reflexivity.
  split; [exact Hwf | split; [exact Hne | split; [exact Hnext | split; [reflexivity|]]]].
  exact (@q_update_from_local_value s dp1 host1 host2 OFPP_FLOOD Hwf Hne Hnext).
Defined.

(** C3 as stated fails: the random value [federated_decision] gives the
    flood action sits in the global table, the update reads the datapath's
    own table, finds nothing, and stores [0.6] whatever the random value
    was. *)
Lemma q_update_ignores_global_value :
  let s1 := state_of (federated_decision init host1 host2 0.5%float) in
  lookup3 (global_table s1) host1 host2 OFPP_FLOOD = Some 0.5%float
  /\ dget_or host2 [] (local_table s1 dp1) = []
  /\ exists s2,
       update_local_q_table s1 dp1 host1 host2 OFPP_FLOOD 1%float = Return tt s2
       /\ lookup3 (local_table s2 dp1) host1 host2 OFPP_FLOOD = Some 0.6%float
       /\ 0.6%float <> (0.5 + 0.6 * (1 + 0.95 * 0 - 0.5))%float.
Proof.
  split; [reflexivity | split; [reflexivity|]].
  eexists. split; [reflexivity | split; [reflexivity|]].
  apply (@float_neq_by_ltb _ _ 0.7%float); reflexivity.
Qed.

(** ** Sequential pairwise averaging *)

(** C4: aggregation merges the local values of a key into the global table
    one datapath after the other: the first value met while the key is
    absent is copied, every later one replaces the global value by the mean
    of the two. *)
Theorem aggregate_sequential_average (s : state) (src dst : addr) (a : action) :
  wf s ->
  lookup3 (global_table (aggregate_global_q_values s)) src dst a
  = fold_left merge1 (local_values s src dst a) (lookup3 (global_table s) src dst a).
Proof.
  intros Hwf. unfold global_table, aggregate_global_q_values. simpl.
  apply lookup3_aggregate_fold.
  - apply (wf_global Hwf).
  - now apply wf_global_not_local.
  - apply (wf_tables Hwf).
Qed.

(** The scenario of the specification: [dp1] reports [2.0], then [dp2]
    reports [4.0], and the global table has no value yet; afterwards it
    holds [(2.0 + 4.0) / 2 = 3.0]. *)
Lemma aggregate_sequential_average_witness :
  wf two_reports
  /\ local_values two_reports host1 host2 port3 = [2.0%float; 4.0%float]
  /\ lookup3 (global_table two_reports) host1 host2 port3 = None
  /\ lookup3 (global_table (aggregate_global_q_values two_reports)) host1 host2 port3
     = Some 3.0%float.
Proof.
  pose proof (wf_reachable two_reports_reachable) as Hwf.
  split; [exact Hwf | split; [reflexivity | split; [reflexivity|]]].
  rewrite (aggregate_sequential_average host1 host2 port3 Hwf). reflexivity.
Defined.

(** ** Redistribution *)

(** C5: after [aggregate_global_q_values()] and then
    [redistribute_global_model()], every datapath of the local store holds a
    table equal to the global one, in an object of its own: whatever is then
    stored into the table object of one datapath, by [update_local_q_table]
    or by any other mutation, the global table and the tables of the other
    datapaths stay as they were. *)
Theorem redistribute_installs_private_copies (s : state) :
  wf s ->
  let s2 := redistribute_global_model (aggregate_global_q_values s) in
  (forall dp, dmem dp (q_values s2) = true -> local_table s2 dp = global_table s2)
  /\ (forall dp1 r1 t', dget dp1 (q_values s2) = Some r1 ->
        let s3 := with_store s2 (write r1 t' (store s2)) in
        local_table s3 dp1 = t'
        /\ global_table s3 = global_table s2
        /\ forall dp2, dp2 <> dp1 -> local_table s3 dp2 = local_table s2 dp2)
  /\ (forall dp1 src dst act reward,
        let s3 := state_of (update_local_q_table s2 dp1 src dst act reward) in
        global_table s3 = global_table s2
        /\ forall dp2, dp2 <> dp1 -> local_table s3 dp2 = local_table s2 dp2).
Proof.
  intros Hwf.
  pose proof (wf_aggregate_global_q_values Hwf) as Hwf1.
  pose proof (wf_redistribute_global_model Hwf1) as Hwf2.
  cbv zeta. split; [|split].
  - intros dp Hmem. apply dmem_In in Hmem.
    unfold redistribute_global_model in *.
    rewrite redistribute_fold_keys in Hmem by apply incl_refl.
    rewrite redistribute_fold_global by assumption.
    now apply redistribute_fold_local.
  - intros dp1 r1 t' E. split; [|now apply write_local_frame].
    unfold local_table. simpl. rewrite E. apply deref_write_same.
    pose proof (wf_refs Hwf2) as Hrefs. rewrite Forall_forall in Hrefs.
    apply Hrefs. eapply In_dvalues, E.
  - intros dp1 src dst act reward. now apply update_local_q_table_frame.
Qed.

(** The two switches of [two_reports], aggregated and redistributed. *)
Lemma redistribute_installs_private_copies_witness :
  wf two_reports
  /\ let s2 := redistribute_global_model (aggregate_global_q_values two_reports) in
     (forall dp, dmem dp (q_values s2) = true -> local_table s2 dp = global_table s2)
     /\ (forall dp1 r1 t', dget dp1 (q_values s2) = Some r1 ->
           let s3 := with_store s2 (write r1 t' (store s2)) in
           local_table s3 dp1 = t'
           /\ global_table s3 = global_table s2
           /\ forall dp2, dp2 <> dp1 -> local_table s3 dp2 = local_table s2 dp2)
     /\ (forall dp1 src dst act reward,
           let s3 := state_of (update_local_q_table s2 dp1 src dst act reward) in
           global_table s3 = global_table s2
           /\ forall dp2, dp2 <> dp1 -> local_table s3 dp2 = local_table s2 dp2).
Proof.
  pose proof (wf_reachable two_reports_reachable) as Hwf.
  exact (conj Hwf (redistribute_installs_private_copies Hwf)).
Defined.

(** The store does tell a shared table from a copied one: had a datapath
    been given the reference of the global table itself, a write through the
    datapath would show in the global table. *)
Example shared_reference_is_visible :
  let s := {| store := [[]]; q_values := [(dp1, 0%nat)];
              global_q_values := 0%nat; trust_values := [] |} in
  let s' := state_of (update_local_q_table s dp1 host1 host2 port3 1%float) in
  ~ wf s /\ global_table s = [] /\ global_table s' <> global_table s.
Proof.
  cbv zeta. split; [|split; [reflexivity | vm_compute; discriminate]].
  intros Hwf. pose proof (wf_owners Hwf) as Hn. simpl in Hn.
  inversion Hn as [|? ? Hnotin _]; subst. apply Hnotin. now left.
Qed.

(** ** The trust gate *)




(** ** Trust decay *)



(** The last bound cannot be lowered: from the default score [1.0] the
    sequence arrives at [2.5e-323] and every further update returns it. *)
Example trust_decay_stalls :
  trust_of (Nat.iter 7200 (fun s' => update_trust s' host1 0%float) init) host1
  = 2.5e-323%float
  /\ (0.9 * 2.5e-323 + 0.1 * 0)%float = 2.5e-323%float.
Proof. split; vm_compute; reflexivity. Qed.

(** ** Full trust is a fixed point *)

(** C8: from the default score [1.0] of an address that has no entry, one
    [update_trust(addr, 1.0)] leaves the score at exactly [1.0]. *)
Theorem update_trust_fixed_point (s : state) (node : addr) :
  dget node (trust_values s) = None ->
  trust_of (update_trust s node 1.0%float) node = 1.0%float.
Proof.
  intros Hnone. rewrite trust_of_update_trust.
  unfold trust_of, dget_or. rewrite Hnone. reflexivity.
Qed.

(** A host without entry, on a fresh controller. *)
Lemma update_trust_fixed_point_witness :
  dget host1 (trust_values init) = None
  /\ trust_of (update_trust init host1 1.0%float) host1 = 1.0%float.
Proof.
  split; [reflexivity | apply update_trust_fixed_point; reflexivity].
Defined.

(** ** Aggregation leaves the local tables alone *)

(** C9: aggregation reads the local tables and writes the global one: the
    map from datapaths to tables, every datapath's table and the trust
    table are afterwards what they were. *)
Theorem aggregate_preserves_local_tables (s : state) :
  wf s ->
  q_values (aggregate_global_q_values s) = q_values s
  /\ (forall dp, local_table (aggregate_global_q_values s) dp = local_table s dp)
  /\ trust_values (aggregate_global_q_values s) = trust_values s.
Proof.
  intros Hwf. repeat split; auto.
  intros dp. unfold local_table, aggregate_global_q_values. simpl.
  destruct (dget dp (q_values s)) as [r|] eqn:E; auto.
  apply deref_aggregate_fold_other. now apply (wf_local_not_global dp Hwf).
Qed.

(** The two switches of [two_reports]. *)
Lemma aggregate_preserves_local_tables_witness :
  wf two_reports
  /\ q_values (aggregate_global_q_values two_reports) = q_values two_reports
  /\ (forall dp, local_table (aggregate_global_q_values two_reports) dp
                 = local_table two_reports dp)
  /\ trust_values (aggregate_global_q_values two_reports) = trust_values two_reports.
Proof.
  pose proof (wf_reachable two_reports_reachable) as Hwf.
  exact (conj Hwf (aggregate_preserves_local_tables Hwf)).
Defined.

(** ** The trust update touches one entry *)

(** C10: [update_trust(addr, rate)] changes the trust entry of [addr] and
    nothing else: the entry of every other address, the local tables, the
    global table and the whole object store stay as they were. *)
Theorem update_trust_frame (s : state) (node : addr) (rate : float) :
  let s' := update_trust s node rate in
  (forall b : addr, b <> node -> dget b (trust_values s') = dget b (trust_values s))
  /\ q_values s' = q_values s
  /\ global_q_values s' = global_q_values s
  /\ store s' = store s
  /\ (forall dp, local_table s' dp = local_table s dp)
  /\ global_table s' = global_table s.
Proof.
  simpl. repeat split; auto.
  intros b Hb. now apply dget_dset_other.
Qed.

(** ** No table object is shared *)

(** X2: in every state that calls of the five core operations reach from
    the initial one, the global table and the tables of the datapaths are
    pairwise distinct objects of the store. *)
Theorem reachable_tables_are_not_shared (s : state) :
  reachable s ->
  (global_q_values s < List.length (store s))%nat
  /\ (forall dp r, dget dp (q_values s) = Some r ->
        (r < List.length (store s))%nat /\ r <> global_q_values s)
  /\ (forall dp dp' r r', dp <> dp' ->
        dget dp (q_values s) = Some r -> dget dp' (q_values s) = Some r' -> r <> r').
Proof.
  intros Hreach. pose proof (wf_reachable Hreach) as Hwf. split; [|split].
  - apply (wf_global Hwf).
  - intros dp r E. split; [|now apply (wf_local_not_global dp Hwf)].
    pose proof (wf_refs Hwf) as Hrefs. rewrite Forall_forall in Hrefs.
    apply Hrefs. eapply In_dvalues, E.
  - intros dp dp' r r' Hne E E'.
    pose proof (wf_owners Hwf) as Hn. inversion Hn; subst.
    now apply (@dget_distinct _ _ _ dp dp' r r' (q_values s)).
Qed.

(** The two switches of [two_reports]. *)
Lemma reachable_tables_are_not_shared_witness :
  reachable two_reports
  /\ (global_q_values two_reports < List.length (store two_reports))%nat
  /\ (forall dp r, dget dp (q_values two_reports) = Some r ->
        (r < List.length (store two_reports))%nat /\ r <> global_q_values two_reports)
  /\ (forall dp dp' r r', dp <> dp' ->
        dget dp (q_values two_reports) = Some r ->
        dget dp' (q_values two_reports) = Some r' -> r <> r').
Proof.
  exact (conj two_reports_reachable
           (reachable_tables_are_not_shared two_reports_reachable)).
Defined.

(** ** The decision between two packets *)

(** X3: in every state the controller is in between two packets, whatever
    packets [packet_in_handler] has served and whether or not their handling
    raised, [federated_decision] returns an action: the entry it takes its
    maximum over is never empty. *)
Theorem decision_returns_between_packets (s : state) (src dst : addr) (rnd : float) :
  served s ->
  exists act s', federated_decision s src dst rnd = Return act s'.
Proof.
  intros Hs. pose proof (decided_entries (decided_served Hs) src dst) as Hent.
  unfold federated_decision. rewrite init_flow_entry.
  match goal with |- context [py_max_key ?e] => assert (Hne : e <> []) end.
  { destruct (dget dst (dget_or src [] (global_table s))) as [e|] eqn:E.
    - intros ->. now apply Hent.
    - discriminate. }
  destruct (py_max_key_nonempty Hne) as [a ->]. eauto.
Qed.

(** After a first packet that set off an aggregation, the decision for the
    reply. *)
Lemma decision_returns_between_packets_witness :
  served (state_of (packet_in_handler init dp1 host1 host2 0.5%float true))
  /\ exists act s',
       federated_decision
         (state_of (packet_in_handler init dp1 host1 host2 0.5%float true))
         host2 host1 0.25%float
       = Return act s'.
Proof.
  assert (Hs : served (state_of (packet_in_handler init dp1 host1 host2 0.5%float true)))
    by apply served_packet, served_init.
  exact (conj Hs (@decision_returns_between_packets _ host2 host1 0.25%float Hs)).
Defined.

(** ** The decision, flow by flow *)

(** X4: the first decision for a flow the global table has no entry for
    returns the flood action, whatever the trust score of the source: lines
    75-78 make the entry [{FLOOD: rnd}], whose only key the [max] of line 81
    returns, and line 82 has [FLOOD] on both sides.  Nothing else changes:
    the other entries of the global table, the local tables and the trust
    table stay as they were. *)
Theorem first_decision_floods (s : state) (src dst : addr) (rnd : float) :
  wf s -> has_flow (global_table s) src dst = false ->
  exists s',
    federated_decision s src dst rnd = Return OFPP_FLOOD s'
    /\ dget dst (dget_or src [] (global_table s')) = Some [(OFPP_FLOOD, rnd)]
    /\ (forall src' dst', (src', dst') <> (src, dst) ->
          dget dst' (dget_or src' [] (global_table s'))
          = dget dst' (dget_or src' [] (global_table s)))
    /\ q_values s' = q_values s
    /\ (forall dp, local_table s' dp = local_table s dp)
    /\ trust_values s' = trust_values s.
Proof.
  intros Hwf Hnew.
  assert (Hnone : dget dst (dget_or src [] (global_table s)) = None).
  { unfold has_flow, dmem in Hnew.
    now destruct (dget dst (dget_or src [] (global_table s))). }
  pose proof (federated_decision_global src dst rnd Hwf) as Hg.
  pose proof (fun dp => @federated_decision_local s src dst rnd dp Hwf) as Hl.
  pose proof (federated_decision_frame s src dst rnd) as (Hq & _ & Ht).
  revert Hg Hl Hq Ht. unfold federated_decision.
  rewrite init_flow_entry, Hnone. cbn [py_max_key max_by_value state_of].
  intros Hg Hl Hq Ht. eexists. split; [now destruct (0.5 <=? trust_of s src)%float|].
  rewrite Hg. repeat split; auto.
  - unfold init_flow. rewrite dget_or_dupd_ensure_same, dget_ensure_key, keqb_refl.
    unfold dget_or at 1. now rewrite Hnone.
  - intros src' dst' Hne. unfold init_flow.
    destruct (string_dec src' src) as [->|Hs].
    + rewrite dget_or_dupd_ensure_same, dget_ensure_key.
      destruct (keqb_spec dst' dst) as [->|Hd]; [congruence | reflexivity].
    + now rewrite dget_or_dupd_ensure_other.
Qed.

(** On a fresh controller. *)
Lemma first_decision_floods_witness :
  wf init /\ has_flow (global_table init) host1 host2 = false
  /\ exists s',
       federated_decision init host1 host2 0.25%float = Return OFPP_FLOOD s'
       /\ dget host2 (dget_or host1 [] (global_table s')) = Some [(OFPP_FLOOD, 0.25%float)].
Proof.
  assert (Hnew : has_flow (global_table init) host1 host2 = false) by reflexivity.
  destruct (@first_decision_floods init host1 host2 0.25%float wf_init Hnew)
    as (s' & H1 & H2 & _).
  split; [exact wf_init | split; [exact Hnew | exists s'; split; assumption]].
Defined.

(** X5: a decision for a flow the global table has an entry for only reads:
    the controller is afterwards in the state it was in, and the outcome does
    not depend on the random number generator, which line 78 alone would
    call. *)
Theorem decision_on_known_flow_reads_only (s : state) (src dst : addr)
  (rnd rnd' : float) :
  has_flow (global_table s) src dst = true ->
  state_of (federated_decision s src dst rnd) = s
  /\ federated_decision s src dst rnd' = federated_decision s src dst rnd.
Proof.
  intros Hknown. unfold federated_decision.
  rewrite !init_flow_known by assumption.
  unfold global_table. rewrite write_deref, with_store_same.
  split; [|reflexivity].
  now destruct (py_max_key _).
Qed.

(** The flow of the first packet, decided a second time. *)
Lemma decision_on_known_flow_reads_only_witness :
  let s := state_of (federated_decision init host1 host2 0.25%float) in
  has_flow (global_table s) host1 host2 = true
  /\ state_of (federated_decision s host1 host2 0.75%float) = s
  /\ federated_decision s host1 host2 0.5%float
     = federated_decision s host1 host2 0.75%float.
Proof.
  set (s := state_of (federated_decision init host1 host2 0.25%float)).
  assert (Hknown : has_flow (global_table s) host1 host2 = true) by reflexivity.
  exact (conj Hknown
           (@decision_on_known_flow_reads_only s host1 host2 0.75%float 0.5%float Hknown)).
Defined.

(** X6: for a source whose trust score is at least [0.5], the action
    [federated_decision] returns is a key of the flow's entry in the global
    table whose value no other value of the entry exceeds; and when all
    values of the entry are numbers (none is a NaN), it is the first such
    key in insertion order: every value before it is strictly smaller. *)
Theorem decision_takes_first_maximum (s : state) (src dst : addr) (rnd : float)
  (a : action) (s' : state) :
  wf s -> (0.5 <=? trust_of s src)%float = true ->
  federated_decision s src dst rnd = Return a s' ->
  exists pre v post,
    dget_or dst [] (dget_or src [] (global_table s')) = pre ++ (a, v) :: post
    /\ lookup3 (global_table s') src dst a = Some v
    /\ Forall (fun av : action * float => (v <? snd av)%float = false) (pre ++ post)
    /\ (Forall (fun av : action * float => (snd av =? snd av)%float = true)
          (pre ++ (a, v) :: post) ->
        Forall (fun av : action * float => (snd av <? v)%float = true) pre).
Proof.
  intros Hwf Htrust Hdec.
  pose proof (federated_decision_global src dst rnd Hwf) as Hg.
  pose proof (wf_federated_decision src dst rnd Hwf) as Hwf'.
  rewrite Hdec in Hg, Hwf'. simpl in Hg, Hwf'.
  assert (Hok : dict_ok (dget_or dst [] (dget_or src [] (global_table s')))).
  { apply table_ok_entry. unfold global_table. apply table_ok_deref, (wf_tables Hwf'). }
  revert Hdec Hok. unfold federated_decision. rewrite Htrust, Hg.
  destruct (dget_or dst [] (dget_or src [] (init_flow (global_table s) src dst rnd)))
    as [|[a0 v0] rest] eqn:Ee; cbn [py_max_key]; [discriminate|].
  intros [= <- _] Hok.
  destruct (max_by_value_split rest a0 v0) as (pre & v & post & Hl & _ & Hmax & Hfirst).
  exists pre, v, post. split; [exact Hl | split; [|split; [exact Hmax|]]].
  - unfold lookup3. rewrite Ee. apply In_dget; [exact Hok|].
    rewrite Hl. apply in_elt.
  - intros Hnum. apply Hfirst. rewrite <- Hl in Hnum. now inversion Hnum.
Qed.

(** One switch has learned [2.0] for the flood action and then [4.0] for
    port 3 of the same flow, and the values have been aggregated: the
    decision is port 3. *)
Lemma decision_takes_first_maximum_witness :
  let s := aggregate_global_q_values
             (state_of (update_local_q_table
                          (state_of (update_local_q_table init dp1 host1 host2
                                       OFPP_FLOOD (2 / 0.6)%float))
                          dp1 host1 host2 port3 (4 / 0.6)%float)) in
  wf s /\ (0.5 <=? trust_of s host1)%float = true
  /\ federated_decision s host1 host2 0.5%float = Return port3 s
  /\ exists pre v post,
       dget_or host2 [] (dget_or host1 [] (global_table s)) = pre ++ (port3, v) :: post
       /\ lookup3 (global_table s) host1 host2 port3 = Some v
       /\ Forall (fun av : action * float => (v <? snd av)%float = false) (pre ++ post)
       /\ (Forall (fun av : action * float => (snd av =? snd av)%float = true)
             (pre ++ (port3, v) :: post) ->
           Forall (fun av : action * float => (snd av <? v)%float = true) pre).
Proof.
  set (s := aggregate_global_q_values _).
  assert (Hwf : wf s).
  { apply wf_aggregate_global_q_values, wf_update_local_q_table,
      wf_update_local_q_table, wf_init. }
  assert (Ht : (0.5 <=? trust_of s host1)%float = true) by reflexivity.
  assert (Hd : federated_decision s host1 host2 0.5%float = Return port3 s)
    by reflexivity.
  exact (conj Hwf (conj Ht (conj Hd
           (@decision_takes_first_maximum s host1 host2 0.5%float port3 s Hwf Ht Hd)))).
Defined.

(** ** The update, returned or raised *)

(** X7: an update that returns has found no next state (the destination is
    not the source and has no row in the datapath's table), so that the
    discounted term of line 96 is [0.95 * 0]; it stores
    [v + 0.6 * (reward + 0.95 * 0 - v)] for the value [v] the datapath's table
    held for the action ([0] when it held none), and changes no other value:
    not of the same table, not of another datapath's table, not of the global
    table, and no trust score. *)
Theorem update_changes_one_value (s : state) (dp : dpid) (src dst : addr)
  (act : action) (reward : float) (s' : state) :
  wf s -> update_local_q_table s dp src dst act reward = Return tt s' ->
  dst <> src
  /\ dget_or dst [] (local_table s dp) = []
  /\ lookup3 (local_table s' dp) src dst act
     = Some (q_update match lookup3 (local_table s dp) src dst act with
                      | Some v => v
                      | None => 0%float
                      end reward 0%float)
  /\ (forall src' dst' a', (src', dst', a') <> (src, dst, act) ->
        lookup3 (local_table s' dp) src' dst' a' = lookup3 (local_table s dp) src' dst' a')
  /\ (forall dp', dp' <> dp -> local_table s' dp' = local_table s dp')
  /\ global_table s' = global_table s
  /\ trust_values s' = trust_values s.
Proof.
  intros Hwf Hret.
  destruct (update_local_q_table_frame dp src dst act reward Hwf) as [Hg Hl].
  pose proof (update_local_q_table_trust s dp src dst act reward) as Ht.
  rewrite Hret in Hg, Hl, Ht. simpl in Hg, Hl, Ht.
  destruct (update_local_q_table_cases dp src dst act reward Hwf)
    as [(Hne & Hrow & s'' & E & _ & Hloc)|(_ & s'' & E & _)];
    rewrite Hret in E; [|discriminate].
  injection E as <-.
  destruct (ensure_flow_mem (local_table s dp) src dst) as [Hs Hd].
  repeat split; auto.
  - rewrite Hloc, lookup3_store_q by assumption.
    rewrite <- (lookup3_ensure_flow (local_table s dp) src dst src dst act).
    unfold lookup3, dget_or at 1. reflexivity.
  - intros src' dst' a' Hk.
    now rewrite Hloc, lookup3_store_q_other, lookup3_ensure_flow.
Qed.

(** The first update of a fresh controller. *)
Lemma update_changes_one_value_witness :
  let s' := state_of (update_local_q_table init dp1 host1 host2 port3 1%float) in
  wf init
  /\ update_local_q_table init dp1 host1 host2 port3 1%float = Return tt s'
  /\ lookup3 (local_table s' dp1) host1 host2 port3 = Some (q_update 0 1 0)
  /\ forall src' dst' a', (src', dst', a') <> (host1, host2, port3) ->
       lookup3 (local_table s' dp1) src' dst' a' = lookup3 (local_table init dp1) src' dst' a'.
Proof.
  set (s' := state_of _).
  assert (Hret : update_local_q_table init dp1 host1 host2 port3 1%float = Return tt s')
    by reflexivity.
  destruct (@update_changes_one_value init dp1 host1 host2 port3 1%float s' wf_init Hret)
    as (_ & _ & H1 & H2 & _).
  exact (conj wf_init (conj Hret (conj H1 H2))).
Defined.

(** X8: an update raises only [TypeError], and only when line 95 finds a
    next state (the destination is the source, or has a row with at least one
    entry in the datapath's table).  It raises after lines 86-92 have run:
    the datapath is registered and its table has an entry for the flow, but
    no value of any table, and no trust score, has changed. *)
Theorem failed_update_stores_no_value (s : state) (dp : dpid) (src dst : addr)
  (act : action) (reward : float) (e : exn) (s' : state) :
  wf s -> update_local_q_table s dp src dst act reward = Raise e s' ->
  e = TypeError
  /\ (dst = src \/ dvalues (dget_or dst [] (local_table s dp)) <> [])
  /\ dmem dp (q_values s') = true
  /\ has_flow (local_table s' dp) src dst = true
  /\ (forall dp' src' dst' a',
        lookup3 (local_table s' dp') src' dst' a' = lookup3 (local_table s dp') src' dst' a')
  /\ global_table s' = global_table s
  /\ trust_values s' = trust_values s.
Proof.
  intros Hwf Hraise.
  destruct (update_local_q_table_frame dp src dst act reward Hwf) as [Hg Hl].
  pose proof (update_local_q_table_trust s dp src dst act reward) as Ht.
  rewrite Hraise in Hg, Hl, Ht. simpl in Hg, Hl, Ht.
  destruct (update_local_q_table_cases dp src dst act reward Hwf)
    as [(_ & _ & s'' & E & _)|(Hnext & s'' & E & Hmem & Hloc)];
    rewrite Hraise in E; [discriminate|].
  injection E as -> <-.
  repeat split; auto.
  - rewrite Hloc. apply ensure_flow_mem.
  - intros dp' src' dst' a'. destruct (Z.eq_dec dp' dp) as [->|Hne].
    + now rewrite Hloc, lookup3_ensure_flow.
    + now rewrite Hl.
Qed.

(** A flow from a host to itself, on a fresh controller. *)
Lemma failed_update_stores_no_value_witness :
  let s' := state_of (update_local_q_table init dp1 host1 host1 port3 1%float) in
  wf init
  /\ update_local_q_table init dp1 host1 host1 port3 1%float = Raise TypeError s'
  /\ dmem dp1 (q_values s') = true
  /\ has_flow (local_table s' dp1) host1 host1 = true
  /\ forall dp' src' dst' a',
       lookup3 (local_table s' dp') src' dst' a' = lookup3 (local_table init dp') src' dst' a'.
Proof.
  set (s' := state_of _).
  assert (Hraise : update_local_q_table init dp1 host1 host1 port3 1%float
                   = Raise TypeError s') by reflexivity.
  destruct (@failed_update_stores_no_value init dp1 host1 host1 port3 1%float
              TypeError s' wf_init Hraise) as (_ & _ & H1 & H2 & H3 & _).
  exact (conj wf_init (conj Hraise (conj H1 (conj H2 H3)))).
Defined.

(** ** The footprint of the aggregation *)

(** X9: aggregation neither drops nor invents a key of the global table:
    afterwards the global table has a value for [(src, dst, action)] exactly
    when it had one before or some datapath's table has one; and the value
    of a key that no datapath's table holds is the one it was. *)
Theorem aggregate_footprint (s : state) (src dst : addr) (a : action) :
  wf s ->
  (lookup3 (global_table (aggregate_global_q_values s)) src dst a = None
   <-> lookup3 (global_table s) src dst a = None
       /\ forall dp, lookup3 (local_table s dp) src dst a = None)
  /\ ((forall dp, lookup3 (local_table s dp) src dst a = None) ->
      lookup3 (global_table (aggregate_global_q_values s)) src dst a
      = lookup3 (global_table s) src dst a).
Proof.
  intros Hwf.
  assert (Hagg : lookup3 (global_table (aggregate_global_q_values s)) src dst a
                 = fold_left merge1 (local_values s src dst a)
                     (lookup3 (global_table s) src dst a)).
  { unfold global_table, aggregate_global_q_values, local_values. simpl.
    apply lookup3_aggregate_fold;
      [apply (wf_global Hwf) | now apply wf_global_not_local | apply (wf_tables Hwf)]. }
  rewrite Hagg, fold_merge1_None, (local_values_nil src dst a Hwf). split.
  - tauto.
  - intros Hnone. apply (local_values_nil src dst a Hwf) in Hnone. now rewrite Hnone.
Qed.

(** The two reports: the key they share appears in the global table, a key
    of another port does not. *)
Lemma aggregate_footprint_witness :
  wf two_reports
  /\ lookup3 (global_table (aggregate_global_q_values two_reports)) host1 host2 port3
     <> None
  /\ lookup3 (global_table (aggregate_global_q_values two_reports)) host1 host2 OFPP_FLOOD
     = None.
Proof.
  pose proof (wf_reachable two_reports_reachable) as Hwf.
  destruct (@aggregate_footprint two_reports host1 host2 port3 Hwf) as [H1 _].
  destruct (@aggregate_footprint two_reports host1 host2 OFPP_FLOOD Hwf) as [H2 _].
  split; [exact Hwf | split].
  - intros F. apply H1 in F. destruct F as [_ F]. specialize (F dp1). discriminate F.
  - apply H2. split; [reflexivity|]. intros dp.
    destruct (Z.eq_dec dp dp1) as [->|N1]; [reflexivity|].
    destruct (Z.eq_dec dp dp2) as [->|N2]; [reflexivity|].
    unfold local_table, two_reports. simpl.
    destruct (Z.eqb_spec dp dp1); [contradiction|].
    destruct (Z.eqb_spec dp dp2); [contradiction|]. reflexivity.
Defined.

(** ** Redistribution and the federation round *)

(** X10: [redistribute_global_model()] gives the datapaths that have a table
    a table equal to the global one, whatever their own table held: a value a
    switch has learned and the global table lacks is gone.  The datapaths
    keep their order, a datapath without a table gets none, and the global
    table and the trust scores are not touched. *)
Theorem redistribute_overwrites_local_tables (s : state) :
  wf s ->
  let s' := redistribute_global_model s in
  dkeys (q_values s') = dkeys (q_values s)
  /\ (forall dp src dst a, dmem dp (q_values s) = true ->
        lookup3 (local_table s' dp) src dst a = lookup3 (global_table s) src dst a)
  /\ (forall dp, dmem dp (q_values s) = false -> local_table s' dp = [])
  /\ global_table s' = global_table s
  /\ trust_values s' = trust_values s.
Proof.
  intros Hwf. destruct (redistribute_global_model_spec Hwf) as (H1 & H2 & H3 & H4 & H5).
  cbv zeta. repeat split; auto.
  intros dp src dst a Hmem. now rewrite H2.
Qed.

(** The two reports, redistributed before any aggregation: the value [2.0]
    that [dp1] had learned is lost. *)
Lemma redistribute_overwrites_local_tables_witness :
  wf two_reports
  /\ dmem dp1 (q_values two_reports) = true
  /\ lookup3 (local_table two_reports dp1) host1 host2 port3 = Some 2.0%float
  /\ lookup3 (global_table two_reports) host1 host2 port3 = None
  /\ lookup3 (local_table (redistribute_global_model two_reports) dp1) host1 host2 port3
     = None.
Proof.
  pose proof (wf_reachable two_reports_reachable) as Hwf.
  assert (Hmem : dmem dp1 (q_values two_reports) = true) by reflexivity.
  destruct (@redistribute_overwrites_local_tables two_reports Hwf) as (_ & H & _).
  split; [exact Hwf | split; [exact Hmem | split; [reflexivity | split; [reflexivity|]]]].
  now rewrite (H dp1 host1 host2 port3 Hmem).
Defined.

(** X11: a federation round, [aggregate_global_q_values()] followed by
    [redistribute_global_model()] as lines 69-70 have it: afterwards every
    datapath that has a table holds, for every key, the sequential average
    of the values the datapaths held before, started from the old global
    value; all these tables are equal, and the trust scores are as before. *)
Theorem federation_round (s : state) :
  wf s ->
  let s' := redistribute_global_model (aggregate_global_q_values s) in
  dkeys (q_values s') = dkeys (q_values s)
  /\ (forall dp src dst a, dmem dp (q_values s) = true ->
        lookup3 (local_table s' dp) src dst a
        = fold_left merge1 (local_values s src dst a) (lookup3 (global_table s) src dst a))
  /\ (forall dp dp', dmem dp (q_values s) = true -> dmem dp' (q_values s) = true ->
        local_table s' dp = local_table s' dp')
  /\ trust_values s' = trust_values s.
Proof.
  intros Hwf.
  pose proof (wf_aggregate_global_q_values Hwf) as Hwf1.
  destruct (redistribute_global_model_spec Hwf1) as (H1 & H2 & _ & _ & H5).
  cbv zeta. split; [exact H1 | split; [|split; [|exact H5]]].
  - intros dp src dst a Hmem. rewrite (H2 dp Hmem).
    unfold global_table, aggregate_global_q_values, local_values. simpl.
    apply lookup3_aggregate_fold;
      [apply (wf_global Hwf) | now apply wf_global_not_local | apply (wf_tables Hwf)].
  - intros dp dp' Hmem Hmem'. now rewrite (H2 dp Hmem), (H2 dp' Hmem').
Qed.

(** The two reports: after the round both switches hold [3.0]. *)
Lemma federation_round_witness :
  wf two_reports
  /\ lookup3 (local_table (redistribute_global_model
                             (aggregate_global_q_values two_reports)) dp1)
       host1 host2 port3 = Some 3.0%float
  /\ lookup3 (local_table (redistribute_global_model
                             (aggregate_global_q_values two_reports)) dp2)
       host1 host2 port3 = Some 3.0%float.
Proof.
  pose proof (wf_reachable two_reports_reachable) as Hwf.
  destruct (@federation_round two_reports Hwf) as (_ & H & _).
  split; [exact Hwf | split].
  - rewrite (H dp1 host1 host2 port3 eq_refl). reflexivity.
  - rewrite (H dp2 host1 host2 port3 eq_refl). reflexivity.
Defined.

(** ** What the handler makes of the learning *)

(** X12: in every state the controller is in between two packets, no table,
    global or local, holds a value for an action other than the flood
    action: [federated_decision] starts every flow with [{FLOOD: rnd}], the
    handler updates the action the decision returned, and aggregation and
    redistribution only move keys around.  Hence every decision returns the
    flood action, for every flow and whatever has been learned. *)
Theorem handler_learns_flood_only (s : state) :
  served s ->
  flood_only (global_table s)
  /\ (forall dp, flood_only (local_table s dp))
  /\ forall src dst rnd,
       exists s', federated_decision s src dst rnd = Return OFPP_FLOOD s'.
Proof.
  intros Hs. pose proof (flood_only_served Hs) as Hst. split; [|split].
  - unfold global_table. now apply flood_only_deref.
  - intros dp. unfold local_table.
    destruct (dget dp (q_values s)); [now apply flood_only_deref | apply flood_only_nil].
  - intros src dst rnd. now apply served_decision.
Qed.

(** After a first packet that set off a federation round. *)
Lemma handler_learns_flood_only_witness :
  let s := state_of (packet_in_handler init dp1 host1 host2 0.5%float true) in
  served s
  /\ lookup3 (local_table s dp1) host1 host2 OFPP_FLOOD = Some 0.55%float
  /\ flood_only (global_table s)
  /\ (forall dp, flood_only (local_table s dp))
  /\ forall src dst rnd,
       exists s', federated_decision s src dst rnd = Return OFPP_FLOOD s'.
Proof.
  set (s := state_of _).
  assert (Hs : served s) by apply served_packet, served_init.
  exact (conj Hs (conj eq_refl (handler_learns_flood_only Hs))).
Defined.

(** X13: in every state the controller is in between two packets, the trust
    score of every host is one of the numbers that [n] applications of
    [t -> 0.9 * t + 0.1 * 0.9] make of the default [1.0]; these lie between
    [0.9] and [1.0], so that the test [>= 0.5] of line 82 always succeeds and
    the fallback of that line is never taken. *)
Theorem handler_trust_stays_high (s : state) (node : addr) :
  served s ->
  (exists n, trust_of s node = handler_trust n)
  /\ (0.9 <=? trust_of s node)%float = true
  /\ (trust_of s node <=? 1)%float = true
  /\ (0.5 <=? trust_of s node)%float = true.
Proof.
  intros Hs. destruct (served_trust node Hs) as [n Hn].
  split; [now exists n|]. rewrite Hn. apply handler_trust_range.
Qed.

(** After one packet of [host1] its score is [0.99]. *)
Lemma handler_trust_stays_high_witness :
  let s := state_of (packet_in_handler init dp1 host1 host2 0.5%float false) in
  served s
  /\ trust_of s host1 = 0.99%float
  /\ (0.9 <=? trust_of s host1)%float = true
  /\ (trust_of s host1 <=? 1)%float = true
  /\ (0.5 <=? trust_of s host1)%float = true.
Proof.
  set (s := state_of _).
  assert (Hs : served s) by apply served_packet, served_init.
  destruct (@handler_trust_stays_high s host1 Hs) as (_ & H).
  exact (conj Hs (conj eq_refl H)).
Defined.

(** The scores do not go on falling: the 311th and every later one is
    [0.9000000000000004]. *)
Example handler_trust_limit :
  handler_trust 311 = 0.9000000000000004%float
  /\ (0.9 * 0.9000000000000004 + 0.1 * 0.9)%float = 0.9000000000000004%float.
Proof. split; vm_compute; reflexivity. Qed.

(** X14: the messages of a run.  Whatever events a fresh controller is
    given, and whatever the random draws, it answers each event as a hub
    would: a switch that has connected gets the table-miss entry (priority
    0, empty match, output to the controller), a packet with an Ethernet
    header gets one packet-out that floods it, with the data attached
    exactly when the switch had not buffered the packet, and a packet
    without Ethernet header gets nothing.  The packet-out is sent also when
    the update that follows raises. *)
Theorem controller_is_a_hub (evs : list event) :
  fst (run init evs) = flat_map hub_reply evs.
Proof. apply run_served, served_init. Qed.

(** X15: which packets the handler fails on.  In a state between two
    packets, the handling of a packet [src -> dst] that came in at a
    datapath raises [TypeError] exactly when [dst] is [src] or has a row
    with an entry in the datapath's table, which is the case as soon as
    [dst] has itself been the source of a packet learned at this datapath;
    otherwise it returns. *)
Theorem handler_fails_on_known_destination (s : state) (dp : dpid) (src dst : addr)
  (rnd : float) (aggregate : bool) :
  served s ->
  (dst = src \/ dvalues (dget_or dst [] (local_table s dp)) <> [] ->
   exists s', packet_in_handler s dp src dst rnd aggregate = Raise TypeError s')
  /\ (dst <> src -> dget_or dst [] (local_table s dp) = [] ->
      exists s', packet_in_handler s dp src dst rnd aggregate = Return tt s').
Proof.
  intros Hs. pose proof (decided_wf (decided_served Hs)) as Hwf.
  pose proof (wf_federated_decision src dst rnd Hwf) as Hwf1.
  pose proof (@federated_decision_local s src dst rnd dp Hwf) as Hloc.
  unfold packet_in_handler.
  destruct (served_decision src dst rnd Hs) as [s1 E]. rewrite E in *. simpl in *.
  destruct (update_local_q_table_cases dp src dst OFPP_FLOOD 1%float Hwf1)
    as [(Hne & Hrow & s2 & -> & _)|(Hnext & s2 & -> & _)]; rewrite Hloc in *.
  - split; [|eauto]. intros [Heq|Hrow']; [contradiction|].
    rewrite Hrow in Hrow'. now elim Hrow'.
  - split; [eauto|]. intros Hne Hrow. destruct Hnext as [Heq|Hrow']; [contradiction|].
    rewrite Hrow in Hrow'. now elim Hrow'.
Qed.

(** The reply to the first packet. *)
Lemma handler_fails_on_known_destination_witness :
  let s := state_of (packet_in_handler init dp1 host1 host2 0.5%float false) in
  served s
  /\ dvalues (dget_or host1 [] (local_table s dp1)) <> []
  /\ exists s', packet_in_handler s dp1 host2 host1 0.25%float false = Raise TypeError s'.
Proof.
  set (s := state_of _).
  assert (Hs : served s) by apply served_packet, served_init.
  assert (Hrow : dvalues (dget_or host1 [] (local_table s dp1)) <> [])
    by (vm_compute; discriminate).
  destruct (@handler_fails_on_known_destination s dp1 host2 host1 0.25%float false Hs)
    as [H _].
  exact (conj Hs (conj Hrow (H (or_intror Hrow)))).
Defined.

(** ** Nothing is forgotten *)

(** X16: no core operation removes a key from the global table or a host
    from the trust table: a key [(src, dst, action)] that has a value in the
    global table has one after any call of any of the five operations, with
    any arguments, returned or raised. *)
Theorem global_table_never_forgets (s s' : state) :
  wf s -> step s s' ->
  (forall src dst a, lookup3 (global_table s) src dst a <> None ->
                     lookup3 (global_table s') src dst a <> None)
  /\ (forall node, dmem node (trust_values s) = true ->
                   dmem node (trust_values s') = true).
Proof.
  intros Hwf Hstep.
  destruct Hstep as [s src0 dst0 rnd|s dp src0 dst0 act reward|s|s|s node0 rate].
  - split.
    + intros src dst a. rewrite federated_decision_global by assumption.
      destruct (lookup3 (global_table s) src dst a) as [v|] eqn:E; [|tauto].
      intros _. now rewrite (@lookup3_init_flow_keep _ src0 dst0 rnd _ _ _ _ E).
    + destruct (federated_decision_frame s src0 dst0 rnd) as (_ & _ & ->). auto.
  - split.
    + destruct (update_local_q_table_frame dp src0 dst0 act reward Hwf) as [-> _]. auto.
    + now rewrite update_local_q_table_trust.
  - split; [|auto]. intros src dst a Hv.
    assert (Hagg : lookup3 (global_table (aggregate_global_q_values s)) src dst a
                   = fold_left merge1 (local_values s src dst a)
                       (lookup3 (global_table s) src dst a)).
    { unfold global_table, aggregate_global_q_values, local_values. simpl.
      apply lookup3_aggregate_fold;
        [apply (wf_global Hwf) | now apply wf_global_not_local | apply (wf_tables Hwf)]. }
    rewrite Hagg. destruct (lookup3 (global_table s) src dst a); [|tauto].
    apply fold_merge1_Some.
  - destruct (redistribute_global_model_spec Hwf) as (_ & _ & _ & -> & ->). auto.
  - split; [auto|]. intros node. simpl. unfold dmem. rewrite dget_dset.
    now destruct (keqb node node0).
Qed.

(** The flow of a first decision, after an update at a switch. *)
Lemma global_table_never_forgets_witness :
  let s := state_of (federated_decision init host1 host2 0.5%float) in
  let s' := state_of (update_local_q_table s dp1 host1 host2 OFPP_FLOOD 1%float) in
  wf s /\ step s s'
  /\ lookup3 (global_table s) host1 host2 OFPP_FLOOD <> None
  /\ lookup3 (global_table s') host1 host2 OFPP_FLOOD <> None.
Proof.
  set (s := state_of (federated_decision init host1 host2 0.5%float)).
  set (s' := state_of (update_local_q_table s dp1 host1 host2 OFPP_FLOOD 1%float)).
  assert (Hwf : wf s) by apply wf_federated_decision, wf_init.
  assert (Hstep : step s s') by apply step_update.
  assert (Hv : lookup3 (global_table s) host1 host2 OFPP_FLOOD <> None)
    by (vm_compute; discriminate).
  destruct (@global_table_never_forgets s s' Hwf Hstep) as [H _].
  exact (conj Hwf (conj Hstep (conj Hv (H _ _ _ Hv)))).
Defined.

(** ** The order of the datapaths *)

(** X17: the datapaths are kept in the order of their first update, which is
    the order in which the aggregation visits them: an update at a datapath
    without table appends it, and no other call of a core operation adds,
    removes or moves a datapath. *)
Theorem datapaths_keep_first_update_order (s s' : state) :
  wf s -> step s s' ->
  dkeys (q_values s') = dkeys (q_values s)
  \/ exists dp src dst act reward,
       s' = state_of (update_local_q_table s dp src dst act reward)
       /\ dmem dp (q_values s) = false
       /\ dkeys (q_values s') = dkeys (q_values s) ++ [dp].
Proof.
  intros Hwf Hstep.
  destruct Hstep as [s src dst rnd|s dp src dst act reward|s|s|s node rate].
  - left. now destruct (federated_decision_frame s src dst rnd) as (-> & _).
  - pose proof (update_local_q_table_keys s dp src dst act reward) as Hk.
    destruct (dmem dp (q_values s)) eqn:E; [now left | right].
    exists dp, src, dst, act, reward. auto.
  - now left.
  - left. apply (redistribute_global_model_spec Hwf).
  - now left.
Qed.

(** A second switch reports after the first. *)
Lemma datapaths_keep_first_update_order_witness :
  let s := state_of (update_local_q_table init dp1 host1 host2 port3 1%float) in
  let s' := state_of (update_local_q_table s dp2 host1 host2 port3 1%float) in
  wf s /\ step s s' /\ dkeys (q_values s') = [dp1; dp2]
  /\ (dkeys (q_values s') = dkeys (q_values s)
      \/ exists dp src dst act reward,
           s' = state_of (update_local_q_table s dp src dst act reward)
           /\ dmem dp (q_values s) = false
           /\ dkeys (q_values s') = dkeys (q_values s) ++ [dp]).
Proof.
  set (s := state_of (update_local_q_table init dp1 host1 host2 port3 1%float)).
  set (s' := state_of (update_local_q_table s dp2 host1 host2 port3 1%float)).
  assert (Hwf : wf s) by apply wf_update_local_q_table, wf_init.
  assert (Hstep : step s s') by apply step_update.
  exact (conj Hwf (conj Hstep (conj eq_refl
           (@datapaths_keep_first_update_order s s' Hwf Hstep)))).
Defined.

(** ** A packet whose handling fails *)

(** X18: when the handling of a packet raises, in a state between two
    packets, the exception is the [TypeError] of the update (the decision
    has returned, and the packet-out has been sent); the trust score of the
    sender is not updated, no aggregation takes place, and no learned value
    has changed: the global table has at most gained the flow's first entry
    from lines 75-78, and every local table holds the values it held. *)
Theorem failed_handling_learns_nothing (s : state) (dp : dpid) (src dst : addr)
  (rnd : float) (aggregate : bool) (e : exn) (s' : state) :
  served s -> packet_in_handler s dp src dst rnd aggregate = Raise e s' ->
  e = TypeError
  /\ trust_values s' = trust_values s
  /\ global_table s' = init_flow (global_table s) src dst rnd
  /\ (forall dp' src' dst' a,
        lookup3 (local_table s' dp') src' dst' a = lookup3 (local_table s dp') src' dst' a).
Proof.
  intros Hs. pose proof (decided_wf (decided_served Hs)) as Hwf.
  pose proof (wf_federated_decision src dst rnd Hwf) as Hwf1.
  pose proof (federated_decision_global src dst rnd Hwf) as Hg.
  pose proof (fun dp' => @federated_decision_local s src dst rnd dp' Hwf) as Hloc.
  pose proof (federated_decision_frame s src dst rnd) as (_ & _ & Ht).
  unfold packet_in_handler.
  destruct (served_decision src dst rnd Hs) as [s1 E]. rewrite E in *. simpl in *.
  destruct (update_local_q_table_frame dp src dst OFPP_FLOOD 1%float Hwf1) as [Hg2 Hl2].
  pose proof (update_local_q_table_trust s1 dp src dst OFPP_FLOOD 1%float) as Ht2.
  destruct (update_local_q_table_cases dp src dst OFPP_FLOOD 1%float Hwf1)
    as [(_ & _ & s2 & E2 & _)|(_ & s2 & E2 & _ & Hl)];
    rewrite E2 in *; simpl in *; [discriminate|].
  intros [= <- <-]. repeat split; try congruence.
  intros dp' src' dst' a. rewrite <- Hloc.
  destruct (Z.eq_dec dp' dp) as [->|Hne].
  - now rewrite Hl, lookup3_ensure_flow.
  - now rewrite Hl2.
Qed.

(** The reply to the first packet: the score of [host2] stays the default. *)
Lemma failed_handling_learns_nothing_witness :
  let s := state_of (packet_in_handler init dp1 host1 host2 0.5%float false) in
  let s' := state_of (packet_in_handler s dp1 host2 host1 0.25%float true) in
  served s
  /\ packet_in_handler s dp1 host2 host1 0.25%float true = Raise TypeError s'
  /\ trust_values s' = trust_values s
  /\ trust_of s' host2 = 1.0%float.
Proof.
  set (s := state_of (packet_in_handler init dp1 host1 host2 0.5%float false)).
  set (s' := state_of (packet_in_handler s dp1 host2 host1 0.25%float true)).
  assert (Hs : served s) by apply served_packet, served_init.
  assert (Hr : packet_in_handler s dp1 host2 host1 0.25%float true = Raise TypeError s')
    by reflexivity.
  destruct (@failed_handling_learns_nothing s dp1 host2 host1 0.25%float true
              TypeError s' Hs Hr) as (_ & Ht & _).
  exact (conj Hs (conj Hr (conj Ht eq_refl))).
Defined.

(** ** When the decision raises *)

(** X19: [federated_decision] raises exactly when the global table holds an
    entry without any action for the flow; the exception is the [ValueError]
    of [max] on an empty dictionary, and the controller is left in the state
    it was in.  In every other case it returns. *)
Theorem decision_raises_on_empty_entry_only (s : state) (src dst : addr) (rnd : float) :
  ((exists e s', federated_decision s src dst rnd = Raise e s')
   <-> dget dst (dget_or src [] (global_table s)) = Some [])
  /\ (forall e s', federated_decision s src dst rnd = Raise e s' ->
                   e = ValueError /\ s' = s).
Proof.
  assert (Hraise : forall e s', federated_decision s src dst rnd = Raise e s' ->
                                dget dst (dget_or src [] (global_table s)) = Some []
                                /\ e = ValueError).
  { intros e s'. unfold federated_decision. rewrite init_flow_entry.
    destruct (dget dst (dget_or src [] (global_table s))) as [[|[a v] e']|];
      cbn [py_max_key]; try discriminate. now intros [= <- _]. }
  split; [split|].
  - intros (e & s' & E). now apply Hraise in E.
  - intros Hempty. unfold federated_decision.
    rewrite init_flow_entry, Hempty. cbn [py_max_key]. eauto.
  - intros e s' E. destruct (Hraise _ _ E) as [Hempty ->]. split; [reflexivity|].
    assert (Hknown : has_flow (global_table s) src dst = true).
    { unfold has_flow, dmem. now rewrite Hempty. }
    pose proof (federated_decision_state s src dst rnd) as Hst.
    rewrite E, init_flow_known in Hst by assumption. simpl in Hst.
    unfold global_table in Hst. now rewrite write_deref, with_store_same in Hst.
Qed.

(** ** Failures until the gate closes *)

(** X20: a host without trust entry starts at the default [1.0]; after [n]
    consecutive [update_trust(host, 0.0)] the test [>= 0.5] of line 82 still
    succeeds for [n < 7] and fails for every [n >= 7]: it takes exactly seven
    failures to make the decision fall back to flooding, and without a
    success the score never comes back. *)
Theorem seven_failures_close_the_gate (s : state) (node : addr) (n : nat) :
  dget node (trust_values s) = None ->
  (0.5 <=? trust_of (Nat.iter n (fun s' => update_trust s' node 0%float) s) node)%float
  = (n <? 7)%nat.
Proof.
  intros Hnone.
  set (score := fun k : nat =>
         trust_of (Nat.iter k (fun s' => update_trust s' node 0%float) s) node).
  change (trust_of (Nat.iter n (fun s' => update_trust s' node 0%float) s) node)
    with (score n).
  assert (Hstep : forall k, score (S k) = (0.9 * score k + 0.1 * 0)%float)
    by (intros k; apply trust_of_iter_step).
  assert (H0 : score 0%nat = 1.0%float).
  { unfold score, trust_of, dget_or. simpl. now rewrite Hnone. }
  assert (H7 : score 7%nat = Nat.iter 7 (fun t => (0.9 * t + 0.1 * 0)%float) 1.0%float).
  { simpl Nat.iter. now rewrite !Hstep, H0. }
  assert (Hlate : forall m, (0 <= tkey (score (7 + m)%nat) <= tkey (score 7%nat))%Z).
  { induction m as [|m IH].
    - rewrite Nat.add_0_r, H7. vm_compute. split; discriminate.
    - replace (7 + S m)%nat with (S (7 + m)) by lia. rewrite Hstep.
      destruct (@decay_key (score (7 + m)%nat)) as [Hd _]; lia. }
  destruct (Nat.ltb_spec n 7) as [Hlt|Hge].
  - do 7 (destruct n as [|n]; [simpl Nat.iter; rewrite ?Hstep, H0; reflexivity|]). lia.
  - replace n with (7 + (n - 7))%nat by lia.
    pose proof (Hlate (n - 7)%nat) as Hk.
    rewrite leb_tkey by (try lia; vm_compute; discriminate).
    apply Z.leb_gt. rewrite H7 in Hk.
    assert (Hc : (tkey (Nat.iter 7 (fun t => (0.9 * t + 0.1 * 0)%float) 1.0%float)
                  < tkey 0.5)%Z) by (vm_compute; reflexivity).
    lia.
Qed.

(** A fresh controller: six failures leave the gate open, the seventh
    closes it. *)
Lemma seven_failures_close_the_gate_witness :
  dget host1 (trust_values init) = None
  /\ (0.5 <=? trust_of (Nat.iter 6 (fun s' => update_trust s' host1 0%float) init) host1)%float
     = true
  /\ (0.5 <=? trust_of (Nat.iter 7 (fun s' => update_trust s' host1 0%float) init) host1)%float
     = false.
Proof.
  assert (Hnone : dget host1 (trust_values init) = None) by reflexivity.
  split; [exact Hnone | split].
  - exact (@seven_failures_close_the_gate init host1 6 Hnone).
  - exact (@seven_failures_close_the_gate init host1 7 Hnone).
Defined.

(** ** Binary64 rounding keeps the tables within range *)

(** X21: [update_trust] keeps the trust scores within [0, 1]: when every
    host's score (the default [1.0] of a host without entry included) and the
    success rate lie within [0, 1], so does every host's score afterwards.
    Line 126 rounds three times, each product and the sum; no rounding
    carries a score above [1] or below [0]. *)
Theorem update_trust_keeps_unit_interval (s : state) (node : addr)
  (success_rate : float) :
  (forall n, within 0 1 (trust_of s n)) -> within 0 1 success_rate ->
  forall n, within 0 1 (trust_of (update_trust s node success_rate) n).
Proof.
  intros Hs [Hr0 Hr1] n. destruct (string_dec n node) as [->|Hne].
  - rewrite trust_of_update_trust. destruct (Hs node) as [Ht0 Ht1].
    apply trust_step_range; assumption.
  - rewrite trust_of_update_trust_other by assumption. apply Hs.
Qed.

(** A fresh controller and the success rate [0.9] of line 69. *)
Lemma update_trust_keeps_unit_interval_witness :
  (forall n, within 0 1 (trust_of init n))
  /\ within 0 1 0.9%float
  /\ within 0 1 (trust_of (update_trust init host1 0.9%float) host1).
Proof.
  assert (H1 : forall n, within 0 1 (trust_of init n)) by (intros n; split; reflexivity).
  assert (H2 : within 0 1 0.9%float) by (split; reflexivity).
  exact (conj H1 (conj H2
           (@update_trust_keeps_unit_interval init host1 0.9%float H1 H2 host1))).
Defined.

(** X22: aggregation is an averaging that stays within range.  For binary64
    bounds [0 <= lo] and [hi < 2^1023]: when every value of the global table
    and of every datapath's table lies within [lo, hi], so does every value of
    the global table after [aggregate_global_q_values()].  Neither the
    rounding of the sum nor that of the halving of line 115 leaves the
    range. *)
Theorem aggregate_keeps_range (s : state) (lo hi : float) :
  wf s -> (0 <=? lo)%float = true -> (hi <? 0x1p1023)%float = true ->
  table_within lo hi (global_table s) ->
  (forall dp, table_within lo hi (local_table s dp)) ->
  table_within lo hi (global_table (aggregate_global_q_values s)).
Proof.
  intros Hwf Hlo Hhi Hg Hl src dst a v.
  assert (Hagg : lookup3 (global_table (aggregate_global_q_values s)) src dst a
                 = fold_left merge1 (local_values s src dst a)
                     (lookup3 (global_table s) src dst a)).
  { unfold global_table, aggregate_global_q_values, local_values. simpl.
    apply lookup3_aggregate_fold;
      [apply (wf_global Hwf) | now apply wf_global_not_local | apply (wf_tables Hwf)]. }
  rewrite Hagg. apply fold_merge1_within; auto.
  - apply Forall_forall. intros x Hx.
    destruct (In_local_values s src dst a x Hwf Hx) as [dp Hdp].
    apply (Hl dp src dst a x Hdp).
  - intros x. apply Hg.
Qed.

(** The two reports [2.0] and [4.0]: their mean [3.0] lies within
    [2, 4]. *)
Lemma aggregate_keeps_range_witness :
  wf two_reports
  /\ table_within 2 4 (global_table two_reports)
  /\ (forall dp, table_within 2 4 (local_table two_reports dp))
  /\ table_within 2 4 (global_table (aggregate_global_q_values two_reports))
  /\ lookup3 (global_table (aggregate_global_q_values two_reports)) host1 host2 port3
     = Some 3%float.
Proof.
  pose proof (wf_reachable two_reports_reachable) as Hwf.
  assert (Hst : Forall (table_within 2 4) (store two_reports))
    by (apply store_within_check; vm_compute; reflexivity).
  assert (Hg : table_within 2 4 (global_table two_reports))
    by (apply table_within_deref; exact Hst).
  assert (Hl : forall dp, table_within 2 4 (local_table two_reports dp))
    by (intros dp; apply table_within_local; exact Hst).
  refine (conj Hwf (conj Hg (conj Hl (conj _ _)))).
  - exact (@aggregate_keeps_range two_reports 2 4 Hwf eq_refl eq_refl Hg Hl).
  - vm_compute. reflexivity.
Defined.

(** X23: learning never lowers a value.  When an update with the reward [1]
    of line 68 returns, and the value [v] the datapath's table held for the
    action ([0] when it held none) lies within [0, 1], the value it stores
    lies within [v, 1]: line 96 moves a value towards [1] and never past
    it. *)
Theorem update_raises_value_up_to_one (s : state) (dp : dpid) (src dst : addr)
  (act : action) (s' : state) :
  wf s -> update_local_q_table s dp src dst act 1%float = Return tt s' ->
  let v := match lookup3 (local_table s dp) src dst act with
           | Some v => v
           | None => 0%float
           end in
  within 0 1 v ->
  exists v', lookup3 (local_table s' dp) src dst act = Some v' /\ within v 1 v'.
Proof.
  intros Hwf Hret v [Hv0 Hv1].
  destruct (update_local_q_table_cases dp src dst act 1%float Hwf)
    as [(Hne & Hrow & s'' & E & _ & Hloc)|(_ & s'' & E & _)];
    rewrite Hret in E; [|discriminate].
  injection E as <-.
  destruct (ensure_flow_mem (local_table s dp) src dst) as [Hs Hd].
  exists (q_update v 1 0). split.
  - rewrite Hloc, lookup3_store_q by assumption. unfold v.
    rewrite <- (lookup3_ensure_flow (local_table s dp) src dst src dst act).
    unfold lookup3, dget_or at 1. reflexivity.
  - apply q_update_range; assumption.
Qed.

(** The first update of a fresh controller stores [0.6]. *)
Lemma update_raises_value_up_to_one_witness :
  let s' := state_of (update_local_q_table init dp1 host1 host2 port3 1%float) in
  wf init
  /\ update_local_q_table init dp1 host1 host2 port3 1%float = Return tt s'
  /\ within 0 1 0%float
  /\ exists v', lookup3 (local_table s' dp1) host1 host2 port3 = Some v' /\ within 0 1 v'.
Proof.
  intros s'.
  assert (Hret : update_local_q_table init dp1 host1 host2 port3 1%float = Return tt s')
    by reflexivity.
  assert (Hv : within 0 1 0%float) by (split; reflexivity).
  exact (conj wf_init (conj Hret (conj Hv
           (@update_raises_value_up_to_one init dp1 host1 host2 port3 s'
              wf_init Hret Hv)))).
Defined.

(** X24: the Q-values stay within [0, 1].  In every run of a fresh
    controller in which [random.random()] returns numbers within [0, 1], as
    it does, every value of the global table and of every datapath's table
    lies within [0, 1], whichever packets arrive, whichever of them fail and
    whenever the tables are aggregated. *)
Theorem q_values_stay_in_unit_interval (evs : list event) :
  Forall unit_draw evs ->
  table_within 0 1 (global_table (snd (run init evs)))
  /\ forall dp, table_within 0 1 (local_table (snd (run init evs)) dp).
Proof.
  intros Hd.
  assert (Hst : Forall (table_within 0 1) (store (snd (run init evs)))).
  { apply table_within_run; [apply served_init | exact Hd |].
    constructor; [apply table_within_nil | constructor]. }
  split.
  - now apply table_within_deref.
  - intros dp. now apply table_within_local.
Qed.

(** A switch connects and one packet arrives, with the draws [0.25] and
    [0.01]: the tables are aggregated, and the global table holds the mean of
    [0.25] and the learned [0.6]. *)
Lemma q_values_stay_in_unit_interval_witness :
  let evs := [EventOFPSwitchFeatures dp1; EventOFPPacketIn packet12 0.25 0.01] in
  Forall unit_draw evs
  /\ table_within 0 1 (global_table (snd (run init evs)))
  /\ lookup3 (global_table (snd (run init evs))) host1 host2 OFPP_FLOOD
     = Some ((0.25 + 0.6) / 2)%float.
Proof.
  intros evs.
  assert (Hd : Forall unit_draw evs).
  { repeat constructor. }
  refine (conj Hd (conj (proj1 (@q_values_stay_in_unit_interval evs Hd)) _)).
  vm_compute. reflexivity.
Defined.
